(** * Verification of the FLIR One Pro LT driver core

    Shallow embedding of [flir/frame_parser.py] (the resynchronising frame
    parser), [flir/thermal.py] (the Planck conversion), [flir/usb_driver.py]
    ([USBDriver.read]) and [flir/camera.py] ([FLIRCamera._make_frame]). *)

From Stdlib Require Import ZArith List Lia Bool.
From Stdlib Require Import Strings.Byte.
From Stdlib Require Import Reals Lra QArith Qreals.
From Stdlib Require String.
From Stdlib Require SpecFloat.
Import ListNotations.
Open Scope Z_scope.

(* ------------------------------------------------------------------------- *)
(** ** Python byte strings and slices *)

Module PyBytes.

(** [zdrop n l] and [ztake n l]: [l[n:]] and [l[:n]] for a non-negative
    Python index [n]; both clamp at the end of the list, as Python does. *)
Fixpoint zdrop (n : Z) (l : list byte) : list byte :=
  match l with
  | [] => []
  | _ :: t => if n <=? 0 then l else zdrop (n - 1) t
  end.

Fixpoint ztake (n : Z) (l : list byte) : list byte :=
  match l with
  | [] => []
  | x :: t => if n <=? 0 then [] else x :: ztake (n - 1) t
  end.

(** [l[i:j]] for [0 <= i]. *)
Definition slice (l : list byte) (i j : Z) : list byte :=
  ztake (j - i) (zdrop i l).

(** [l[i:j] = xs] on a [bytearray], step 1, [0 <= i]: Python clamps both
    bounds to the length and raises [j] to [i]. *)
Definition slice_assign (l : list byte) (i j : Z) (xs : list byte) : list byte :=
  ztake i l ++ xs ++ zdrop (Z.max i j) l.

Definition zlen {A} (l : list A) : Z := Z.of_nat (length l).

Fixpoint bytes_eqb (a b : list byte) : bool :=
  match a, b with
  | [], [] => true
  | x :: a', y :: b' => Byte.eqb x y && bytes_eqb a' b'
  | _, _ => false
  end.

(** [bytearray(n)]: [n] zero bytes. *)
Definition zeros (n : Z) : list byte :=
  match n with
  | Zpos p => Pos.iter (cons x00) [] p
  | _ => []
  end.

Definition bval (b : byte) : Z := Z.of_nat (Byte.to_nat b).

End PyBytes.
Import PyBytes.

(* ------------------------------------------------------------------------- *)
(** ** [flir/frame_parser.py] *)

Module FrameParser.

Definition MAGIC_BYTES : list byte := [xef; xbe; x00; x00].
Definition THERMAL_WIDTH : Z := 80.
Definition THERMAL_HEIGHT : Z := 60.
Definition THERMAL_PIXELS : Z := THERMAL_WIDTH * THERMAL_HEIGHT.
Definition HEADER_SIZE : Z := 28.
Definition DEFAULT_BUFFER_SIZE : Z := 1048576.

(** [ParsedFrame]; [thermal_raw] is the 60 x 80 array as a list of rows. *)
Record ParsedFrame := {
  thermal_raw : list (list Z);
  visible_jpeg : option (list byte);
  status_data : option (list byte);
  frame_size : Z;
  thermal_size : Z;
  jpeg_size : Z;
  status_size : Z
}.

(** The parser object: [buffer], [buffer_ptr], [buffer_size]. *)
Record FrameParser := {
  buffer : list byte;
  buffer_ptr : Z;
  buffer_size : Z
}.

(** [FrameParser.__init__(buffer_size)]. *)
Definition init (size : Z) : FrameParser :=
  {| buffer := zeros size; buffer_ptr := 0; buffer_size := size |}.

Definition set_buffer (p : FrameParser) (b : list byte) (ptr : Z) : FrameParser :=
  {| buffer := b; buffer_ptr := ptr; buffer_size := buffer_size p |}.

(** [FrameParser.reset]: only the pointer is cleared. *)
Definition reset (p : FrameParser) : FrameParser :=
  set_buffer p (buffer p) 0.

(** [_find_magic(data, 0)], i.e. [data.index(MAGIC_BYTES)] or [-1]. *)
Fixpoint find_magic (data : list byte) : Z :=
  match data with
  | [] => -1
  | _ :: t =>
      if bytes_eqb (ztake 4 data) MAGIC_BYTES then 0
      else let r := find_magic t in if r <? 0 then -1 else r + 1
  end.

(** [_resync_buffer]. *)
Definition resync_buffer (p : FrameParser) : FrameParser :=
  let buf := buffer p in
  let ptr := buffer_ptr p in
  let pos := find_magic (slice buf 1 ptr) in
  if 0 <=? pos then
    let pos := pos + 1 in
    let remaining := ptr - pos in
    set_buffer p (slice_assign buf 0 remaining (slice buf pos ptr)) remaining
  else
    let keep := Z.min 3 ptr in
    set_buffer p (slice_assign buf 0 keep (slice buf (ptr - keep) ptr)) keep.

(** [_resync_from_chunk(data)]; [data[-keep:]] with [1 <= keep] is
    [data[len(data) - keep:]]. *)
Definition resync_from_chunk (p : FrameParser) (data : list byte) : FrameParser :=
  let buf := buffer p in
  let pos := find_magic data in
  if 0 <=? pos then
    let remaining := zlen data - pos in
    let remaining := if remaining >? buffer_size p then buffer_size p else remaining in
    set_buffer p (slice_assign buf 0 remaining (slice data pos (pos + remaining))) remaining
  else
    let keep := Z.min 3 (zlen data) in
    set_buffer p (slice_assign buf 0 keep (zdrop (zlen data - keep) data)) keep.

(** [struct.unpack_from('<I', buf, off)].  [unpack_from] raises when fewer
    than four bytes remain; it is only called with [buffer_ptr >= 32]
    bytes held, and a missing byte reads as 0 here. *)
Definition unpack_u32_le (buf : list byte) (off : Z) : Z :=
  let b k := bval (nth (Z.to_nat (off + k)) buf x00) in
  b 0 + 256 * b 1 + 65536 * b 2 + 16777216 * b 3.

(** [np.frombuffer(bs, dtype='>u2')]. *)
Fixpoint u16_be (bs : list byte) : list Z :=
  match bs with
  | hi :: lo :: t => (256 * bval hi + bval lo) :: u16_be t
  | _ => []
  end.

(** [.reshape((rows, cols))] of a row-major array. *)
Fixpoint reshape (rows : nat) (cols : nat) (xs : list Z) : list (list Z) :=
  match rows with
  | O => []
  | S r => firstn cols xs :: reshape r cols (skipn cols xs)
  end.

(** [np.zeros((60, 80), dtype=np.uint16)]. *)
Definition zero_matrix : list (list Z) := repeat (repeat 0 80) 60.

(** The thermal branch of [_try_parse_frame]. *)
Definition thermal_of (thermal_bytes : list byte) : list (list Z) :=
  let expected_pixels := THERMAL_WIDTH * THERMAL_HEIGHT in
  if expected_pixels * 2 <=? zlen thermal_bytes then
    reshape 60 80 (u16_be (ztake (expected_pixels * 2) thermal_bytes))
  else zero_matrix.

(** [_try_parse_frame]. *)
Definition try_parse_frame (p : FrameParser) : FrameParser * option ParsedFrame :=
  let buf := buffer p in
  let ptr := buffer_ptr p in
  if ptr <? HEADER_SIZE + 4 then (p, None) else
  let frame_size := unpack_u32_le buf 8 in
  let thermal_size := unpack_u32_le buf 12 in
  let jpeg_size := unpack_u32_le buf 16 in
  let status_size := unpack_u32_le buf 20 in
  if (frame_size =? 0) || (frame_size + HEADER_SIZE >? buffer_size p) then
    (set_buffer p buf 0, None) else
  let total_needed := HEADER_SIZE + frame_size in
  if ptr <? total_needed then (p, None) else
  if HEADER_SIZE + thermal_size + jpeg_size >? ptr then
    (set_buffer p buf 0, None) else
  let thermal_start := HEADER_SIZE in
  let thermal_end := thermal_start + thermal_size in
  let thermal_bytes := slice buf thermal_start thermal_end in
  let thermal_raw := thermal_of thermal_bytes in
  let jpeg_start := thermal_end in
  let jpeg_end := jpeg_start + jpeg_size in
  let visible_jpeg := if jpeg_size >? 0 then Some (slice buf jpeg_start jpeg_end) else None in
  let status_start := jpeg_end in
  let status_end := status_start + status_size in
  let status_data :=
    if status_size >? 0 then Some (slice buf status_start status_end) else None in
  let frame := {| thermal_raw := thermal_raw; visible_jpeg := visible_jpeg;
                  status_data := status_data; frame_size := frame_size;
                  thermal_size := thermal_size; jpeg_size := jpeg_size;
                  status_size := status_size |} in
  let consumed := total_needed in
  let remaining := ptr - consumed in
  let buf' := if remaining >? 0 then slice_assign buf 0 remaining (slice buf consumed ptr)
              else buf in
  (set_buffer p buf' remaining, Some frame).

(** [add_chunk(data)]. *)
Definition add_chunk (p : FrameParser) (data : list byte)
  : FrameParser * option ParsedFrame :=
  match data with
  | [] => (p, None)
  | _ =>
    if buffer_ptr p + zlen data >=? buffer_size p then
      (resync_from_chunk p data, None)
    else
      let ptr := buffer_ptr p in
      let p := set_buffer p (slice_assign (buffer p) ptr (ptr + zlen data) data)
                 (ptr + zlen data) in
      if buffer_ptr p >=? 4 then
        if negb (bytes_eqb (slice (buffer p) 0 4) MAGIC_BYTES) then
          (resync_buffer p, None)
        else try_parse_frame p
      else (p, None)
  end.

(** A sequence of [add_chunk] calls; the emitted frames in order. *)
Fixpoint feed (p : FrameParser) (chunks : list (list byte))
  : FrameParser * list ParsedFrame :=
  match chunks with
  | [] => (p, [])
  | c :: cs =>
      let '(p1, r) := add_chunk p c in
      let '(p2, fs) := feed p1 cs in
      (p2, match r with Some f => f :: fs | None => fs end)
  end.

(** Wire encoding of a frame (spec, section 6), used to build inputs. *)
Definition byte_of (z : Z) : byte :=
  match Byte.of_nat (Z.to_nat (z mod 256)) with Some b => b | None => x00 end.

Definition le32 (v : Z) : list byte :=
  [byte_of v; byte_of (v / 256); byte_of (v / 256 / 256); byte_of (v / 256 / 256 / 256)].

Definition header (fs ts js ss : Z) : list byte :=
  MAGIC_BYTES ++ le32 0 ++ le32 fs ++ le32 ts ++ le32 js ++ le32 ss ++ le32 0.

Definition encode_frame (fs : Z) (th jp st : list byte) : list byte :=
  header fs (zlen th) (zlen jp) (zlen st) ++ th ++ jp ++ st.

(** The frame a well-formed encoding is expected to parse back to. *)
Definition expected_frame (fs : Z) (th jp st : list byte) : ParsedFrame :=
  {| thermal_raw := thermal_of th;
     visible_jpeg := if zlen jp >? 0 then Some jp else None;
     status_data := if zlen st >? 0 then Some st else None;
     frame_size := fs; thermal_size := zlen th; jpeg_size := zlen jp;
     status_size := zlen st |}.

End FrameParser.

(* ------------------------------------------------------------------------- *)
(** ** Lemmas on slices and on the wire encoding *)

(** Settles a goal [false = (a <? b)], [true = (a >=? b)], ... by [lia]. *)
Ltac zbool :=
  symmetry; rewrite ?Z.gtb_ltb, ?Z.geb_leb;
  first [ apply Z.ltb_ge | apply Z.ltb_lt | apply Z.leb_gt | apply Z.leb_le
        | apply Z.eqb_neq | apply Z.eqb_eq ]; unfold FrameParser.HEADER_SIZE in *; lia.

Module SliceFacts.
Import FrameParser.

Lemma zlen_app {A} (a b : list A) : zlen (a ++ b) = zlen a + zlen b.
Proof. unfold zlen. rewrite length_app. lia. Qed.

Lemma zlen_nonneg {A} (a : list A) : 0 <= zlen a.
Proof. unfold zlen. lia. Qed.

Lemma zlen_cons {A} (x : A) (a : list A) : zlen (x :: a) = zlen a + 1.
Proof. unfold zlen. simpl length. lia. Qed.

Lemma ztake_0 (l : list byte) : ztake 0 l = [].
Proof. destruct l; reflexivity. Qed.

Lemma zdrop_0 (l : list byte) : zdrop 0 l = l.
Proof. destruct l; reflexivity. Qed.

Lemma zdrop_app (a b : list byte) (n : Z) : n = zlen a -> zdrop n (a ++ b) = b.
Proof.
  revert n; induction a as [|x a IH]; intros n Hn; simpl.
  - unfold zlen in Hn; simpl in Hn; subst; apply zdrop_0.
  - rewrite zlen_cons in Hn. pose proof (zlen_nonneg a).
    replace (n <=? 0) with false by zbool.
    apply IH; lia.
Qed.

Lemma ztake_app (a b : list byte) (n : Z) : n = zlen a -> ztake n (a ++ b) = a.
Proof.
  revert n; induction a as [|x a IH]; intros n Hn; simpl.
  - unfold zlen in Hn; simpl in Hn; subst; apply ztake_0.
  - rewrite zlen_cons in Hn. pose proof (zlen_nonneg a).
    replace (n <=? 0) with false by zbool.
    f_equal; apply IH; lia.
Qed.

(** [(a ++ b ++ c)[len a : len a + len b] == b]. *)
Lemma slice_mid (a b c : list byte) (i j : Z) :
  i = zlen a -> j = zlen a + zlen b -> slice (a ++ b ++ c) i j = b.
Proof.
  intros -> ->. unfold slice. rewrite (zdrop_app a (b ++ c)) by reflexivity.
  apply ztake_app; lia.
Qed.

Lemma bval_byte_of (z : Z) : bval (byte_of z) = z mod 256.
Proof.
  unfold bval, byte_of.
  pose proof (Z.mod_pos_bound z 256 ltac:(lia)).
  destruct (Byte.of_nat (Z.to_nat (z mod 256))) as [b|] eqn:E.
  - apply Byte.to_of_nat in E. rewrite E. lia.
  - apply Byte.of_nat_None_iff in E. lia.
Qed.

Lemma le32_value (v : Z) : 0 <= v < 2 ^ 32 ->
  bval (byte_of v) + 256 * bval (byte_of (v / 256))
  + 65536 * bval (byte_of (v / 256 / 256))
  + 16777216 * bval (byte_of (v / 256 / 256 / 256)) = v.
Proof.
  intros Hv. rewrite !bval_byte_of.
  pose proof (Z.div_mod v 256 ltac:(lia)).
  pose proof (Z.div_mod (v / 256) 256 ltac:(lia)).
  pose proof (Z.div_mod (v / 256 / 256) 256 ltac:(lia)).
  pose proof (Z.div_mod (v / 256 / 256 / 256) 256 ltac:(lia)).
  pose proof (Z.mod_pos_bound v 256 ltac:(lia)).
  pose proof (Z.mod_pos_bound (v / 256) 256 ltac:(lia)).
  pose proof (Z.mod_pos_bound (v / 256 / 256) 256 ltac:(lia)).
  pose proof (Z.mod_pos_bound (v / 256 / 256 / 256) 256 ltac:(lia)).
  assert (0 <= v / 256 / 256 / 256 / 256).
  { repeat apply Z.div_pos; lia. }
  lia.
Qed.

Lemma unpack_header (fs ts js ss : Z) (rest : list byte) :
  0 <= fs < 2 ^ 32 -> 0 <= ts < 2 ^ 32 -> 0 <= js < 2 ^ 32 -> 0 <= ss < 2 ^ 32 ->
  unpack_u32_le (header fs ts js ss ++ rest) 8 = fs /\
  unpack_u32_le (header fs ts js ss ++ rest) 12 = ts /\
  unpack_u32_le (header fs ts js ss ++ rest) 16 = js /\
  unpack_u32_le (header fs ts js ss ++ rest) 20 = ss.
Proof.
  intros. unfold unpack_u32_le, header, le32. simpl.
  repeat split; apply le32_value; lia.
Qed.

Lemma zlen_header (fs ts js ss : Z) : zlen (header fs ts js ss) = 28.
Proof. reflexivity. Qed.

Lemma zlen_encode (fs : Z) (th jp st : list byte) :
  zlen (encode_frame fs th jp st) = 28 + zlen th + zlen jp + zlen st.
Proof. unfold encode_frame. rewrite !zlen_app, zlen_header. lia. Qed.

End SliceFacts.

(* ------------------------------------------------------------------------- *)
(** ** Parsing a well-formed frame *)

Module ParserFacts.
Import FrameParser SliceFacts.


Lemma try_parse_encoded (p : FrameParser) (fs : Z) (th jp st rest : list byte) :
  buffer p = encode_frame fs th jp st ++ rest ->
  buffer_ptr p = HEADER_SIZE + fs ->
  fs = zlen th + zlen jp + zlen st ->
  4 <= fs -> HEADER_SIZE + fs <= buffer_size p -> fs < 2 ^ 32 ->
  try_parse_frame p = (set_buffer p (buffer p) 0, Some (expected_frame fs th jp st)).
Proof.
  intros Hbuf Hptr Hfs H4 Hcap Hmax.
  pose proof (zlen_nonneg th); pose proof (zlen_nonneg jp); pose proof (zlen_nonneg st).
  unfold try_parse_frame. rewrite Hptr.
  unfold HEADER_SIZE in *.
  replace (28 + fs <? 28 + 4) with false by zbool.
  assert (Hb : buffer p = header fs (zlen th) (zlen jp) (zlen st) ++ th ++ jp ++ st ++ rest)
    by (rewrite Hbuf; unfold encode_frame; rewrite <- !app_assoc; reflexivity).
  rewrite Hb.
  destruct (unpack_header fs (zlen th) (zlen jp) (zlen st) (th ++ jp ++ st ++ rest))
    as (-> & -> & -> & ->); try lia.
  replace ((fs =? 0) || (fs + 28 >? buffer_size p)) with false
    by (rewrite (proj2 (Z.eqb_neq fs 0)) by lia; simpl; zbool).
  replace (28 + fs <? 28 + fs) with false by zbool.
  replace (28 + zlen th + zlen jp >? 28 + fs) with false
    by zbool.
  rewrite Z.sub_diag; change (0 >? 0) with false; cbv iota.
  rewrite (slice_mid (header fs (zlen th) (zlen jp) (zlen st)) th (jp ++ st ++ rest))
    by (rewrite ?zlen_header; lia).
  rewrite (app_assoc (header fs (zlen th) (zlen jp) (zlen st)) th).
  rewrite (slice_mid (header fs (zlen th) (zlen jp) (zlen st) ++ th) jp (st ++ rest))
    by (rewrite ?zlen_app, ?zlen_header; lia).
  rewrite (app_assoc (header fs (zlen th) (zlen jp) (zlen st) ++ th) jp).
  rewrite (slice_mid ((header fs (zlen th) (zlen jp) (zlen st) ++ th) ++ jp) st rest)
    by (rewrite ?zlen_app, ?zlen_header; lia).
  reflexivity.
Qed.

Lemma add_chunk_encoded (p : FrameParser) (fs : Z) (th jp st : list byte) :
  buffer_ptr p = 0 ->
  fs = zlen th + zlen jp + zlen st ->
  4 <= fs -> HEADER_SIZE + fs < buffer_size p -> fs < 2 ^ 32 ->
  add_chunk p (encode_frame fs th jp st)
  = (set_buffer p (slice_assign (buffer p) 0 (HEADER_SIZE + fs) (encode_frame fs th jp st)) 0,
     Some (expected_frame fs th jp st)).
Proof.
  intros Hptr Hfs H4 Hcap Hmax.
  assert (Hlen : zlen (encode_frame fs th jp st) = HEADER_SIZE + fs)
    by (rewrite zlen_encode; unfold HEADER_SIZE; lia).
  destruct (encode_frame fs th jp st) as [|b0 d] eqn:E.
  { unfold zlen, HEADER_SIZE in Hlen. simpl length in Hlen. lia. }
  unfold add_chunk. cbv beta iota. rewrite <- E in *.
  rewrite Hptr, Hlen, Z.add_0_l.
  replace (HEADER_SIZE + fs >=? buffer_size p) with false by zbool.
  cbv beta iota. cbn [buffer_ptr set_buffer].
  replace (HEADER_SIZE + fs >=? 4) with true by zbool.
  assert (Hsa : slice_assign (buffer p) 0 (HEADER_SIZE + fs) (encode_frame fs th jp st)
                = encode_frame fs th jp st ++ zdrop (HEADER_SIZE + fs) (buffer p)).
  { unfold slice_assign. rewrite ztake_0, app_nil_l, Z.max_r by (unfold HEADER_SIZE; lia).
    reflexivity. }
  rewrite Hsa. cbn [buffer set_buffer].
  replace (slice (encode_frame fs th jp st ++ zdrop (HEADER_SIZE + fs) (buffer p)) 0 4)
    with MAGIC_BYTES by reflexivity.
  change (negb (bytes_eqb MAGIC_BYTES MAGIC_BYTES)) with false. cbv beta iota.
  rewrite (try_parse_encoded _ fs th jp st (zdrop (HEADER_SIZE + fs) (buffer p)));
    cbn [buffer buffer_ptr buffer_size set_buffer]; try reflexivity; try lia.
Qed.

End ParserFacts.

Module ParserFacts2.
Import FrameParser SliceFacts.

(** The appended buffer of [add_chunk p data] when no overflow occurs. *)
Definition appended (p : FrameParser) (data : list byte) : list byte :=
  slice_assign (buffer p) (buffer_ptr p) (buffer_ptr p + zlen data) data.

(** When the chunk fits and the buffer then starts with the magic bytes,
    [add_chunk] hands the appended buffer to [_try_parse_frame]. *)
Lemma add_chunk_to_parse (p : FrameParser) (data : list byte) :
  data <> [] ->
  buffer_ptr p + zlen data < buffer_size p ->
  4 <= buffer_ptr p + zlen data ->
  slice (appended p data) 0 4 = MAGIC_BYTES ->
  add_chunk p data
  = try_parse_frame (set_buffer p (appended p data) (buffer_ptr p + zlen data)).
Proof.
  intros Hne Hfit H4 Hmagic.
  destruct data as [|b d]; [congruence|].
  unfold add_chunk. cbv beta iota.
  replace (buffer_ptr p + zlen (b :: d) >=? buffer_size p) with false by zbool.
  cbv beta iota. cbn [buffer_ptr buffer set_buffer].
  replace (buffer_ptr p + zlen (b :: d) >=? 4) with true by zbool.
  fold (appended p (b :: d)). rewrite Hmagic. reflexivity.
Qed.

(** A header that fails the size check resets the pointer. *)
Lemma try_parse_bad_size (p : FrameParser) :
  HEADER_SIZE + 4 <= buffer_ptr p ->
  (unpack_u32_le (buffer p) 8 = 0 \/ unpack_u32_le (buffer p) 8 + HEADER_SIZE > buffer_size p) ->
  try_parse_frame p = (set_buffer p (buffer p) 0, None).
Proof.
  intros Hptr Hbad. unfold try_parse_frame.
  replace (buffer_ptr p <? HEADER_SIZE + 4) with false by zbool.
  destruct Hbad as [H0 | Hbig].
  - rewrite H0. reflexivity.
  - replace (unpack_u32_le (buffer p) 8 + HEADER_SIZE >? buffer_size p) with true
      by (symmetry; apply Z.gtb_lt; lia).
    rewrite orb_true_r. reflexivity.
Qed.

End ParserFacts2.

(* ------------------------------------------------------------------------- *)
(** ** Claims about the frame parser *)

Module ParserClaims.
Import FrameParser SliceFacts ParserFacts ParserFacts2.

(** Sample inputs. *)
Definition thermal_4096 : list byte := flat_map (fun _ : nat => [x10; x00]) (seq 0 4800).
Definition short_thermal : list byte := repeat x11 100.
Definition bogus_size_header : list byte := header (10 * 1048576) 9600 0 0 ++ repeat x00 4.

(** C10: an empty chunk returns [None] and leaves the parser, buffer
    contents and [buffer_ptr] included, unchanged, whatever it holds. *)
Theorem add_chunk_empty_noop (p : FrameParser) : add_chunk p [] = (p, None).
Proof. reflexivity. Qed.

(** C1 (counterexample): a complete frame declaring [thermal_size = 100]
    (< 9600) is emitted, with a zero-filled thermal matrix. *)
Lemma short_thermal_emitted_zero_filled :
  match snd (add_chunk (init DEFAULT_BUFFER_SIZE) (encode_frame 100 short_thermal [] [])) with
  | Some f => thermal_size f < 9600 /\ thermal_raw f = zero_matrix
  | None => False
  end.
Proof. vm_compute. split; [reflexivity | reflexivity]. Qed.

(** C1 (amended): a complete frame fed to a parser with no pending bytes,
    whose header declares [thermal_size < 9600], is not discarded:
    [add_chunk] emits a frame for it whose [thermal_raw] is the all-zero
    60 x 80 matrix. *)
Theorem short_thermal_frame_zero_filled (p : FrameParser) (fs : Z) (th jp st : list byte) :
  buffer_ptr p = 0 ->
  fs = zlen th + zlen jp + zlen st ->
  4 <= fs -> HEADER_SIZE + fs < buffer_size p -> fs < 2 ^ 32 ->
  zlen th < 9600 ->
  exists f, snd (add_chunk p (encode_frame fs th jp st)) = Some f /\
            thermal_size f = zlen th /\ thermal_raw f = zero_matrix.
Proof.
  intros Hptr Hfs H4 Hcap Hmax Hth.
  rewrite add_chunk_encoded by assumption.
  eexists; split; [reflexivity|]. split; [reflexivity|].
  unfold expected_frame, thermal_of; cbn [thermal_raw].
  replace (THERMAL_WIDTH * THERMAL_HEIGHT * 2 <=? zlen th) with false
    by (symmetry; apply Z.leb_gt; unfold THERMAL_WIDTH, THERMAL_HEIGHT; lia).
  reflexivity.
Qed.

Lemma short_thermal_frame_zero_filled_witness :
  exists f, snd (add_chunk (init DEFAULT_BUFFER_SIZE) (encode_frame 100 short_thermal [] []))
            = Some f /\ thermal_size f = 100 /\ thermal_raw f = zero_matrix.
Proof.
  apply (short_thermal_frame_zero_filled (init DEFAULT_BUFFER_SIZE) 100 short_thermal [] []);
    vm_compute; try reflexivity; discriminate.
Defined.

(** C7: when the appended buffer starts with the magic bytes, holds a full
    header and declares [frame_size = 0] or [frame_size + 28 > capacity],
    [add_chunk] returns [None] with [buffer_ptr = 0]; a well-formed frame
    fed next as one chunk is then parsed back to its sub-blocks. *)
Theorem bad_frame_size_rejected_then_recovers
    (p : FrameParser) (data : list byte) (fs : Z) (th jp st : list byte) :
  data <> [] ->
  buffer_ptr p + zlen data < buffer_size p ->
  HEADER_SIZE + 4 <= buffer_ptr p + zlen data ->
  slice (appended p data) 0 4 = MAGIC_BYTES ->
  unpack_u32_le (appended p data) 8 = 0 \/
  unpack_u32_le (appended p data) 8 + HEADER_SIZE > buffer_size p ->
  fs = zlen th + zlen jp + zlen st ->
  4 <= fs -> HEADER_SIZE + fs < buffer_size p -> fs < 2 ^ 32 ->
  match add_chunk p data with
  | (p1, r1) =>
      r1 = None /\ buffer_ptr p1 = 0 /\ buffer_size p1 = buffer_size p /\
      snd (add_chunk p1 (encode_frame fs th jp st)) = Some (expected_frame fs th jp st)
  end.
Proof.
  intros Hne Hfit Hhdr Hmagic Hbad Hfs H4 Hcap Hmax.
  rewrite add_chunk_to_parse by (unfold HEADER_SIZE in *; auto; lia).
  rewrite try_parse_bad_size by (cbn [buffer buffer_ptr buffer_size set_buffer]; auto).
  split; [reflexivity|]. split; [reflexivity|]. split; [reflexivity|].
  rewrite add_chunk_encoded by (cbn [buffer_ptr buffer_size set_buffer]; auto).
  reflexivity.
Qed.

Lemma bad_frame_size_rejected_then_recovers_witness :
  match add_chunk (init DEFAULT_BUFFER_SIZE) bogus_size_header with
  | (p1, r1) =>
      r1 = None /\ buffer_ptr p1 = 0 /\ buffer_size p1 = DEFAULT_BUFFER_SIZE /\
      snd (add_chunk p1 (encode_frame 9600 thermal_4096 [] []))
      = Some (expected_frame 9600 thermal_4096 [] [])
  end.
Proof.
  apply (bad_frame_size_rejected_then_recovers (init DEFAULT_BUFFER_SIZE) bogus_size_header
           9600 thermal_4096 [] []);
    try (vm_compute; reflexivity); try discriminate; try (right; vm_compute; reflexivity);
    vm_compute; try reflexivity; discriminate.
Defined.

(** Inputs for C2 and C8: a frame whose header declares [frame_size = 4],
    no thermal or JPEG data and [status_size = 100] (resp. 8), followed by
    four payload bytes; and a 40-byte chunk whose header claims
    [frame_size = 0xFFFFFFFF]. *)
Definition status_overrun (ss : Z) : list byte := header 4 0 0 ss ++ [xaa; xaa; xaa; xaa].
Definition huge_header_chunk : list byte := header 4294967295 0 0 0 ++ repeat xff 12.

(** C2 (counterexample): the declared sizes violate
    [thermal_size + jpeg_size + status_size <= frame_size] (0 + 0 + 100 > 4),
    yet the buffer is not reset and a frame is emitted. *)
Lemma status_overrun_emitted :
  0 + 0 + 100 > 4 /\
  snd (add_chunk (init DEFAULT_BUFFER_SIZE) (status_overrun 100)) <> None.
Proof. vm_compute. split; [reflexivity | discriminate]. Qed.

(** C2 (amended): once the appended buffer starts with the magic bytes,
    passes the [frame_size] checks and holds the whole [28 + frame_size]
    bytes, [add_chunk] returns [None] exactly when
    [28 + thermal_size + jpeg_size > buffer_ptr], and it then resets
    [buffer_ptr] to 0; otherwise it emits a frame. [status_size] takes no
    part in the check. *)
Theorem thermal_jpeg_overrun_resets (p : FrameParser) (data : list byte) :
  let buf := appended p data in
  let ptr := buffer_ptr p + zlen data in
  data <> [] ->
  ptr < buffer_size p ->
  HEADER_SIZE + 4 <= ptr ->
  slice buf 0 4 = MAGIC_BYTES ->
  unpack_u32_le buf 8 <> 0 ->
  unpack_u32_le buf 8 + HEADER_SIZE <= buffer_size p ->
  HEADER_SIZE + unpack_u32_le buf 8 <= ptr ->
  (snd (add_chunk p data) = None <->
   HEADER_SIZE + unpack_u32_le buf 12 + unpack_u32_le buf 16 > ptr) /\
  (HEADER_SIZE + unpack_u32_le buf 12 + unpack_u32_le buf 16 > ptr ->
   add_chunk p data = (set_buffer p buf 0, None)).
Proof.
  intros buf ptr Hne Hfit Hhdr Hmagic Hnz Hcap Hall.
  rewrite add_chunk_to_parse by (unfold HEADER_SIZE in *; auto; lia).
  unfold try_parse_frame; cbn [buffer buffer_ptr buffer_size set_buffer]. fold buf ptr.
  replace (ptr <? HEADER_SIZE + 4) with false by zbool.
  replace (unpack_u32_le buf 8 =? 0) with false by zbool.
  replace (unpack_u32_le buf 8 + HEADER_SIZE >? buffer_size p) with false by zbool.
  replace (ptr <? HEADER_SIZE + unpack_u32_le buf 8) with false by zbool.
  cbn [orb].
  destruct (HEADER_SIZE + unpack_u32_le buf 12 + unpack_u32_le buf 16 >? ptr) eqn:Eov.
  - apply Z.gtb_lt in Eov. split; [split; [intros _; lia | reflexivity] | reflexivity].
  - rewrite Z.gtb_ltb in Eov. apply Z.ltb_ge in Eov. cbn [snd].
    split; [split; [discriminate | lia] | lia].
Qed.

Lemma thermal_jpeg_overrun_resets_witness :
  let q := init DEFAULT_BUFFER_SIZE in
  let d := header 4 100 0 0 ++ repeat xaa 4 in
  (snd (add_chunk q d) = None <->
   HEADER_SIZE + unpack_u32_le (appended q d) 12 + unpack_u32_le (appended q d) 16
   > buffer_ptr q + zlen d) /\
  (HEADER_SIZE + unpack_u32_le (appended q d) 12 + unpack_u32_le (appended q d) 16
   > buffer_ptr q + zlen d ->
   add_chunk q d = (set_buffer q (appended q d) 0, None)).
Proof.
  apply thermal_jpeg_overrun_resets;
    try discriminate; vm_compute; try reflexivity; discriminate.
Defined.

(** C8: after a rejected header and [reset()], the parser emits a frame
    whose status bytes differ from those a fresh parser of the same
    capacity emits on the same input: the status slice reads past
    [buffer_ptr] into bytes left over from the earlier input. *)
Theorem reset_parser_differs_from_fresh :
  let used := reset (fst (add_chunk (init DEFAULT_BUFFER_SIZE) huge_header_chunk)) in
  option_map status_data (snd (add_chunk used (status_overrun 8)))
    = Some (Some [xaa; xaa; xaa; xaa; xff; xff; xff; xff]) /\
  option_map status_data (snd (add_chunk (init DEFAULT_BUFFER_SIZE) (status_overrun 8)))
    = Some (Some [xaa; xaa; xaa; xaa; x00; x00; x00; x00]) /\
  snd (feed used [status_overrun 8]) <> snd (feed (init DEFAULT_BUFFER_SIZE) [status_overrun 8]).
Proof. vm_compute. split; [reflexivity | split; [reflexivity | discriminate]]. Qed.

End ParserClaims.

(* ------------------------------------------------------------------------- *)
(** ** [flir/usb_driver.py]: [USBDriver.read] *)

Module USBDriver.

Definition EP_IN : Z := 133.
Definition BUFFER_SIZE : Z := 16384.

(** What [self.device.read(EP_IN, BUFFER_SIZE, timeout=...)] does: return
    data, raise [usb.core.USBTimeoutError], raise [usb.core.USBError]
    with some [errno] (possibly [None]), or raise an exception that is not
    a [USBError] (for instance the [ValueError] or [NotImplementedError]
    of a backend), named by its class. *)
Inductive UsbReadOutcome :=
| ReadData (data : list byte)
| RaiseUSBTimeoutError
| RaiseUSBError (errno : option Z)
| RaiseOtherError (exc : String.string).

(** How a Python call ends: a returned value or a raised exception, named
    by its class. *)
Inductive PyResult (A : Type) :=
| Return (v : A)
| Raise (exc : String.string).
Arguments Return {A} v.
Arguments Raise {A} exc.

(** [USBDriver.read(timeout)]: [device_open] is [self.device is not None].
    The [print] of the last branch has no effect on the result. An
    exception that is not a [USBError] matches neither [except] clause and
    propagates. *)
Definition read (device_open : bool) (outcome : UsbReadOutcome) : PyResult (option (list byte)) :=
  if negb device_open then Return None else
  match outcome with
  | ReadData data => Return (Some data)
  | RaiseUSBTimeoutError => Return None
  | RaiseUSBError errno =>
      match errno with
      | Some e => if (e =? 110) || (e =? 19) then Return None else Return None
      | None => Return None
      end
  | RaiseOtherError exc => Raise exc
  end.

(** C9 (counterexample): a USB error other than a timeout or ENODEV
    ([errno = 5], EIO) is not surfaced: [read] returns [None]. *)
Lemma other_usb_error_returns_none :
  read true (RaiseUSBError (Some 5)) = Return None.
Proof. reflexivity. Qed.

(** C9 (amended): [read] returns [None] when no device is open, and
    otherwise the data read; it returns [None] on a timeout, on ENODEV and
    on every other USB error alike. It raises no exception for any USB
    error; an exception of [device.read] that is not a [USBError]
    propagates unchanged. *)
Theorem read_result (device_open : bool) (outcome : UsbReadOutcome) :
  read device_open outcome
  = if device_open then
      match outcome with
      | ReadData data => Return (Some data)
      | RaiseOtherError exc => Raise exc
      | _ => Return None
      end
    else Return None.
Proof.
  destruct device_open; [|reflexivity].
  destruct outcome as [data| |[e|]|exc]; try reflexivity.
  unfold read; cbn. destruct ((e =? 110) || (e =? 19)); reflexivity.
Qed.

End USBDriver.

(* ------------------------------------------------------------------------- *)
(** ** [flir/thermal.py]: [ThermalContext.raw2temp], scalar path

    Reals stand for the NumPy floats.  A division whose divisor is 0
    yields [None]: NumPy returns +inf, -inf or NaN there, none of them
    finite.  Rounding is not modelled. *)

Module Thermal.
Local Open Scope R_scope.

(** [ThermalContext.config]. *)
Record Calibration := {
  PlanckR1 : R;
  PlanckB : R;
  PlanckF : R;
  PlanckO : R;
  Emissivity : R;
  ReflectedApparentTemperature : R
}.


(** A calibration record the spec calls valid (every real is finite). *)
Definition valid_calibration (c : Calibration) : Prop :=
  0.1 <= Emissivity c <= 1.0.

(** Floating-point division; [None] when the result is not finite. *)
Definition fl_div (x y : R) : option R :=
  if Req_dec_T y 0 then None else Some (x / y).

(** [raw2temp(raw_counts)] on a scalar; [None] is a non-finite result. *)
Definition raw2temp (c : Calibration) (raw_counts : R) : option R :=
  let R1 := PlanckR1 c in
  let B := PlanckB c in
  let F := PlanckF c in
  let O := PlanckO c in
  let safe_raw := if Rle_dec raw_counts O then O + 1.0 else raw_counts in
  let denom := safe_raw - O in
  let denom := if Req_dec_T denom 0 then 1.0 else denom in
  let val := R1 / denom + F in
  let val := if Rle_dec val 0 then 1.0 else val in
  match fl_div B (ln val) with
  | Some temp_k => Some (temp_k - 273.15)
  | None => None
  end.

End Thermal.

(* ------------------------------------------------------------------------- *)
(** ** Rational enclosures of [exp], by repeated squaring *)

Module ExpBounds.
Local Open Scope Q_scope.

Definition scale : positive := Pos.pow 10 20.

(** Round down, resp. up, to a multiple of [1 / 10^20]. *)
Definition round_down (q : Q) : Q := (Qnum q * Zpos scale / Zpos (Qden q)) # scale.
Definition round_up (q : Q) : Q := - round_down (- q).



(** [exp_lo k x <= exp x]: [1 + x / 2^k], squared [k] times. *)
Fixpoint exp_lo (k : nat) (x : Q) : Q :=
  match k with
  | O => 1 + x
  | S k' =>
      let m := exp_lo k' (x / 2) in
      let l := if Qle_bool m 0 then 0 else m in
      round_down (l * l)
  end.

(** [exp x <= exp_hi k x] for [x < 2^k]: [1 / (1 - x / 2^k)], squared [k] times. *)
Fixpoint exp_hi (k : nat) (x : Q) : Q :=
  match k with
  | O => 1 / (1 - x)
  | S k' => let u := exp_hi k' (x / 2) in round_up (u * u)
  end.

Local Open Scope R_scope.

Lemma Q2R_half (x : Q) : Q2R (x / 2)%Q = Q2R x / 2.
Proof.
  rewrite Q2R_div by (intro H; discriminate H).
  unfold Q2R at 2. cbn. field.
Qed.

Lemma exp_double (y : R) : exp y = exp (y / 2) * exp (y / 2).
Proof. rewrite <- exp_plus. f_equal. field. Qed.



End ExpBounds.

(* ------------------------------------------------------------------------- *)
(** ** Claims about the Planck conversion *)

Module ThermalFacts.
Import Thermal ExpBounds.
Local Open Scope R_scope.










End ThermalFacts.

Module ThermalClaims.
Import Thermal ThermalFacts.
Local Open Scope R_scope.

(** A valid calibration with a negative [PlanckF]. *)
Definition negative_F_config : Calibration :=
  {| PlanckR1 := 21106.77; PlanckB := 1506.8; PlanckF := -10; PlanckO := -7340;
     Emissivity := 0.95; ReflectedApparentTemperature := 20.0 |}.

(** C3: with a valid calibration whose [PlanckF] is -10, [raw2temp(0)] has
    [R1 / denom + F <= 0]; the code replaces it by 1, and [B / ln 1] is a
    division by zero: the result is not finite. *)
Theorem raw2temp_not_finite_negative_F :
  valid_calibration negative_F_config /\ raw2temp negative_F_config 0 = None.
Proof.
  split; [unfold valid_calibration; cbn; lra|].
  unfold raw2temp. cbv zeta. cbn [PlanckR1 PlanckB PlanckF PlanckO negative_F_config].
  destruct (Rle_dec 0 (-7340)) as [H|_]; [lra|].
  destruct (Req_dec_T (0 - -7340) 0) as [H|_]; [lra|].
  replace (0 - -7340) with 7340 by lra.
  destruct (Rle_dec (21106.77 / 7340 + -10) 0) as [_|H]; [|lra].
  replace (ln 1.0) with 0 by (rewrite <- ln_1; f_equal; lra). unfold fl_div.
  destruct (Req_dec_T 0 0) as [_|H]; [reflexivity | congruence].
Qed.




End ThermalClaims.

(* ------------------------------------------------------------------------- *)
(** ** [flir/camera.py]: [FLIRCamera._make_frame] *)

Module Camera.
Import FrameParser.
Local Open Scope R_scope.

Definition zseq (n : nat) : list Z := map Z.of_nat (seq 0 n).

(** A cell of the Celsius matrix: column [x], row [y] and its temperature. *)
Definition cell : Type := (Z * Z * R)%type.
Definition cell_loc (c : cell) : Z * Z := let '(x, y, _) := c in (x, y).
Definition cell_val (c : cell) : R := let '(_, _, t) := c in t.

(** First cell of least, resp. greatest, temperature (NumPy's [argmin] and
    [argmax] keep the first occurrence). *)
Fixpoint argmin_from (best : cell) (l : list cell) : cell :=
  match l with
  | [] => best
  | c :: t => argmin_from (if Rlt_dec (cell_val c) (cell_val best) then c else best) t
  end.

Fixpoint argmax_from (best : cell) (l : list cell) : cell :=
  match l with
  | [] => best
  | c :: t => argmax_from (if Rlt_dec (cell_val best) (cell_val c) then c else best) t
  end.

Definition first_cell (l : list cell) : cell :=
  match l with [] => (0%Z, 0%Z, 0) | c :: _ => c end.

Section Stats.

(** Modelled from the spec: [raw_to_celsius], imported by [camera.py] from
    [flir/thermal.py] but not defined there; any per-pixel conversion of a
    raw count to degrees Celsius. *)
Variable raw_to_celsius : Z -> R.

(** The Celsius value of column [x], row [y] of a raw matrix. *)
Definition celsius_at (m : list (list Z)) (x y : Z) : R :=
  raw_to_celsius (nth (Z.to_nat x) (nth (Z.to_nat y) m []) 0%Z).

(** Modelled from the spec: the cells of the 60 x 80 Celsius matrix in
    row-major order, each with its (x, y) = (column, row). *)
Definition cells (m : list (list Z)) : list cell :=
  flat_map (fun y => map (fun x => (x, y, celsius_at m x y)) (zseq 80)) (zseq 60).

Record TempStats := {
  min_c : R;
  max_c : R;
  mean_c : R;
  min_location : Z * Z;
  max_location : Z * Z
}.

(** Modelled from the spec: [get_temperature_stats], imported by
    [camera.py] from [flir/thermal.py] but not defined there: "min, max,
    mean Celsius computed over the 60x80 Celsius matrix; (x,y) coordinates
    of the argmin and argmax cells (x is column 0..79, y is row 0..59)". *)
Definition get_temperature_stats (m : list (list Z)) : TempStats :=
  let cs := cells m in
  let lo := argmin_from (first_cell cs) cs in
  let hi := argmax_from (first_cell cs) cs in
  {| min_c := cell_val lo; max_c := cell_val hi;
     mean_c := fold_right Rplus 0 (map cell_val cs) / 4800;
     min_location := cell_loc lo; max_location := cell_loc hi |}.

(** [FLIRFrame], without the display images, the decoded JPEG and the
    timestamp. *)
Record FLIRFrame := {
  frame_thermal_raw : list (list Z);
  min_temp_c : R;
  max_temp_c : R;
  mean_temp_c : R;
  hotspot : Z * Z;
  coldspot : Z * Z
}.

(** [_make_frame(parsed)], temperature fields. *)
Definition make_frame (parsed : ParsedFrame) : FLIRFrame :=
  let stats := get_temperature_stats (thermal_raw parsed) in
  {| frame_thermal_raw := thermal_raw parsed;
     min_temp_c := min_c stats;
     max_temp_c := max_c stats;
     mean_temp_c := mean_c stats;
     hotspot := max_location stats;
     coldspot := min_location stats |}.

End Stats.

End Camera.

Module CameraFacts.
Import FrameParser SliceFacts Camera.
Local Open Scope R_scope.

Lemma argmin_from_in (b : cell) (l : list cell) : In (argmin_from b l) (b :: l).
Proof.
  revert b; induction l as [|c l IH]; intro b; cbn [argmin_from]; [left; reflexivity|].
  destruct (Rlt_dec (cell_val c) (cell_val b)).
  - specialize (IH c). right; exact IH.
  - specialize (IH b). destruct IH as [E|E]; [left; exact E | right; right; exact E].
Qed.

Lemma argmin_from_le (b : cell) (l : list cell) :
  forall c, In c (b :: l) -> cell_val (argmin_from b l) <= cell_val c.
Proof.
  revert b; induction l as [|d l IH]; intros b c Hc; cbn [argmin_from].
  - destruct Hc as [<-|[]]. apply Rle_refl.
  - destruct (Rlt_dec (cell_val d) (cell_val b)) as [Hlt|Hge].
    + destruct Hc as [<-|Hc].
      * apply Rle_trans with (cell_val d); [apply IH; left; reflexivity | lra].
      * apply IH; exact Hc.
    + destruct Hc as [<-|[<-|Hc]].
      * apply IH; left; reflexivity.
      * apply Rle_trans with (cell_val b); [apply IH; left; reflexivity | lra].
      * apply IH; right; exact Hc.
Qed.

Lemma argmax_from_in (b : cell) (l : list cell) : In (argmax_from b l) (b :: l).
Proof.
  revert b; induction l as [|c l IH]; intro b; cbn [argmax_from]; [left; reflexivity|].
  destruct (Rlt_dec (cell_val b) (cell_val c)).
  - specialize (IH c). right; exact IH.
  - specialize (IH b). destruct IH as [E|E]; [left; exact E | right; right; exact E].
Qed.

Lemma argmax_from_ge (b : cell) (l : list cell) :
  forall c, In c (b :: l) -> cell_val c <= cell_val (argmax_from b l).
Proof.
  revert b; induction l as [|d l IH]; intros b c Hc; cbn [argmax_from].
  - destruct Hc as [<-|[]]. apply Rle_refl.
  - destruct (Rlt_dec (cell_val b) (cell_val d)) as [Hlt|Hge].
    + destruct Hc as [<-|Hc].
      * apply Rle_trans with (cell_val d); [lra | apply IH; left; reflexivity].
      * apply IH; exact Hc.
    + destruct Hc as [<-|[<-|Hc]].
      * apply IH; left; reflexivity.
      * apply Rle_trans with (cell_val b); [lra | apply IH; left; reflexivity].
      * apply IH; right; exact Hc.
Qed.

Lemma in_zseq (n : nat) (x : Z) : In x (zseq n) <-> (0 <= x < Z.of_nat n)%Z.
Proof.
  unfold zseq. rewrite in_map_iff. split.
  - intros (k & <- & Hk). apply in_seq in Hk. lia.
  - intros Hx. exists (Z.to_nat x). split; [lia|]. apply in_seq. lia.
Qed.

Lemma in_cells (conv : Z -> R) (m : list (list Z)) (c : cell) :
  In c (cells conv m) <->
  exists x y, (0 <= x < 80)%Z /\ (0 <= y < 60)%Z /\ c = (x, y, celsius_at conv m x y).
Proof.
  unfold cells. rewrite in_flat_map. split.
  - intros (y & Hy & Hc). apply in_map_iff in Hc. destruct Hc as (x & <- & Hx).
    apply in_zseq in Hx, Hy. exists x, y. repeat split; lia.
  - intros (x & y & Hx & Hy & ->). exists y. split; [apply in_zseq; lia|].
    apply in_map_iff. exists x. split; [reflexivity | apply in_zseq; lia].
Qed.

Lemma first_cell_in (conv : Z -> R) (m : list (list Z)) :
  In (first_cell (cells conv m)) (cells conv m).
Proof.
  replace (first_cell (cells conv m)) with ((0%Z, 0%Z, celsius_at conv m 0 0)) by reflexivity.
  apply in_cells. exists 0%Z, 0%Z. repeat split; lia.
Qed.

(** Shape of the thermal matrix of every emitted frame. *)
Definition shape_60x80 (m : list (list Z)) : Prop :=
  length m = 60%nat /\ Forall (fun row => length row = 80%nat) m.

Lemma length_ztake (n : Z) (l : list byte) :
  (0 <= n)%Z -> length (ztake n l) = Nat.min (Z.to_nat n) (length l).
Proof.
  revert n; induction l as [|b l IH]; intros n Hn; cbn [ztake length].
  - lia.
  - destruct (n <=? 0)%Z eqn:E.
    + apply Z.leb_le in E. replace n with 0%Z by lia. reflexivity.
    + apply Z.leb_gt in E. cbn [length]. rewrite IH by lia. lia.
Qed.

Lemma length_u16_be (n : nat) : forall l, length l = (2 * n)%nat -> length (u16_be l) = n.
Proof.
  induction n as [|n IH]; intros l Hl.
  - destruct l; [reflexivity | cbn in Hl; lia].
  - destruct l as [|a [|b l]]; cbn in Hl; try lia.
    cbn. f_equal. apply IH. lia.
Qed.

Lemma reshape_shape (rows cols : nat) :
  forall xs, length xs = (rows * cols)%nat ->
  length (reshape rows cols xs) = rows /\
  Forall (fun row => length row = cols) (reshape rows cols xs).
Proof.
  induction rows as [|r IH]; intros xs Hxs; cbn [reshape length].
  - split; [reflexivity | constructor].
  - destruct (IH (skipn cols xs)) as [H1 H2]; [rewrite length_skipn; lia|].
    split; [lia|]. constructor; [rewrite length_firstn; lia | exact H2].
Qed.

Lemma thermal_of_shape (bs : list byte) : shape_60x80 (thermal_of bs).
Proof.
  unfold thermal_of, shape_60x80.
  destruct (THERMAL_WIDTH * THERMAL_HEIGHT * 2 <=? zlen bs)%Z eqn:E.
  - apply Z.leb_le in E. unfold THERMAL_WIDTH, THERMAL_HEIGHT, zlen in E.
    apply reshape_shape. apply length_u16_be.
    unfold THERMAL_WIDTH, THERMAL_HEIGHT. rewrite length_ztake by lia. lia.
  - unfold zero_matrix. split; [apply repeat_length|].
    apply Forall_forall. intros row Hr. apply repeat_spec in Hr. subst. apply repeat_length.
Qed.

Lemma try_parse_thermal (p p' : FrameParser) (f : ParsedFrame) :
  try_parse_frame p = (p', Some f) -> exists bs, thermal_raw f = thermal_of bs.
Proof.
  intros H. unfold try_parse_frame in H. cbv zeta in H.
  repeat match type of H with context [if ?b then _ else _] => destruct b end;
    inversion H; subst; eexists; reflexivity.
Qed.

Lemma add_chunk_shape (p p' : FrameParser) (data : list byte) (f : ParsedFrame) :
  add_chunk p data = (p', Some f) -> shape_60x80 (thermal_raw f).
Proof.
  intros H. unfold add_chunk in H. destruct data as [|b d]; [discriminate H|].
  destruct (_ >=? _)%Z; [discriminate H|].
  destruct (_ >=? 4)%Z; [|discriminate H].
  destruct (negb _); [discriminate H|].
  apply try_parse_thermal in H. destruct H as [bs ->]. apply thermal_of_shape.
Qed.

End CameraFacts.

Module CameraClaims.
Import FrameParser SliceFacts Camera CameraFacts ParserClaims.
Local Open Scope R_scope.

Lemma map_flat_map_comm {A B C} (f : B -> C) (g : A -> list B) (l : list A) :
  map f (flat_map g l) = flat_map (fun a => map f (g a)) l.
Proof.
  induction l as [|a l IH]; [reflexivity|]. cbn [flat_map]. rewrite map_app, IH. reflexivity.
Qed.

(** C4: for every frame the parser emits, [_make_frame] reports as
    [min_temp_c] / [max_temp_c] a lower / upper bound of every cell of the
    60 x 80 Celsius matrix, attained at [coldspot] / [hotspot], which are
    (column 0..79, row 0..59); [mean_temp_c] is the sum over the 4800 cells
    divided by 4800; the raw matrix has 60 rows of 80 values. *)
Theorem make_frame_stats (conv : Z -> R) (p p' : FrameParser) (data : list byte)
    (parsed : ParsedFrame) :
  add_chunk p data = (p', Some parsed) ->
  let m := thermal_raw parsed in
  let f := make_frame conv parsed in
  shape_60x80 m /\
  (forall x y, (0 <= x < 80)%Z -> (0 <= y < 60)%Z ->
     min_temp_c f <= celsius_at conv m x y <= max_temp_c f) /\
  (let '(x, y) := coldspot f in
     (0 <= x < 80)%Z /\ (0 <= y < 60)%Z /\ celsius_at conv m x y = min_temp_c f) /\
  (let '(x, y) := hotspot f in
     (0 <= x < 80)%Z /\ (0 <= y < 60)%Z /\ celsius_at conv m x y = max_temp_c f) /\
  mean_temp_c f =
    fold_right Rplus 0
      (flat_map (fun y => map (fun x => celsius_at conv m x y) (zseq 80)) (zseq 60)) / 4800.
Proof.
  intros Hadd m f.
  set (cs := cells conv m).
  assert (Hfirst : In (first_cell cs) cs) by apply first_cell_in.
  assert (Hlo : In (argmin_from (first_cell cs) cs) cs).
  { destruct (argmin_from_in (first_cell cs) cs) as [E|E]; [rewrite <- E|]; assumption. }
  assert (Hhi : In (argmax_from (first_cell cs) cs) cs).
  { destruct (argmax_from_in (first_cell cs) cs) as [E|E]; [rewrite <- E|]; assumption. }
  split; [apply (add_chunk_shape p p' data parsed Hadd)|].
  split; [|split; [|split]].
  - intros x y Hx Hy.
    assert (Hc : In (x, y, celsius_at conv m x y) cs)
      by (apply in_cells; exists x, y; repeat split; lia).
    split.
    + apply (argmin_from_le (first_cell cs) cs (x, y, celsius_at conv m x y)); right; exact Hc.
    + apply (argmax_from_ge (first_cell cs) cs (x, y, celsius_at conv m x y)); right; exact Hc.
  - cbn [coldspot min_temp_c f make_frame get_temperature_stats min_location min_c].
    fold m. fold cs.
    apply in_cells in Hlo. destruct Hlo as (x & y & Hx & Hy & E). rewrite E.
    cbn [cell_loc cell_val]. repeat split; lia.
  - cbn [hotspot max_temp_c f make_frame get_temperature_stats max_location max_c].
    fold m. fold cs.
    apply in_cells in Hhi. destruct Hhi as (x & y & Hx & Hy & E). rewrite E.
    cbn [cell_loc cell_val]. repeat split; lia.
  - cbn [mean_temp_c f make_frame get_temperature_stats mean_c]. fold m.
    unfold cells. rewrite map_flat_map_comm.
    rewrite (flat_map_ext _ (fun y => map (fun x => celsius_at conv m x y) (zseq 80)))
      by (intro y; rewrite map_map; reflexivity).
    reflexivity.
Qed.

Lemma make_frame_stats_witness :
  let parsed := expected_frame 9600 thermal_4096 [] [] in
  let m := thermal_raw parsed in
  let f := make_frame IZR parsed in
  shape_60x80 m /\
  (forall x y, (0 <= x < 80)%Z -> (0 <= y < 60)%Z ->
     min_temp_c f <= celsius_at IZR m x y <= max_temp_c f) /\
  (let '(x, y) := coldspot f in
     (0 <= x < 80)%Z /\ (0 <= y < 60)%Z /\ celsius_at IZR m x y = min_temp_c f) /\
  (let '(x, y) := hotspot f in
     (0 <= x < 80)%Z /\ (0 <= y < 60)%Z /\ celsius_at IZR m x y = max_temp_c f) /\
  mean_temp_c f =
    fold_right Rplus 0
      (flat_map (fun y => map (fun x => celsius_at IZR m x y) (zseq 80)) (zseq 60)) / 4800.
Proof.
  apply (make_frame_stats IZR (init DEFAULT_BUFFER_SIZE)
           (fst (add_chunk (init DEFAULT_BUFFER_SIZE) (encode_frame 9600 thermal_4096 [] [])))
           (encode_frame 9600 thermal_4096 [] [])).
  rewrite (surjective_pairing (add_chunk _ _)) at 1.
  apply f_equal. vm_compute. reflexivity.
Defined.

End CameraClaims.

(* ------------------------------------------------------------------------- *)
(** ** Lengths and composition of slices *)

Module SliceLengths.
Import FrameParser SliceFacts.

Lemma ztake_nonpos (n : Z) (l : list byte) : n <= 0 -> ztake n l = [].
Proof. intros Hn. destruct l; simpl; [reflexivity|]. now rewrite (proj2 (Z.leb_le n 0) Hn). Qed.

Lemma zdrop_nonpos (n : Z) (l : list byte) : n <= 0 -> zdrop n l = l.
Proof. intros Hn. destruct l; simpl; [reflexivity|]. now rewrite (proj2 (Z.leb_le n 0) Hn). Qed.

Lemma zdrop_cons (n : Z) (x : byte) (t : list byte) : 0 < n -> zdrop n (x :: t) = zdrop (n - 1) t.
Proof. intros Hn. simpl. now replace (n <=? 0) with false by zbool. Qed.

Lemma ztake_cons (n : Z) (x : byte) (t : list byte) : 0 < n -> ztake n (x :: t) = x :: ztake (n - 1) t.
Proof. intros Hn. simpl. now replace (n <=? 0) with false by zbool. Qed.

Lemma zlen_nil {A} : zlen (@nil A) = 0.
Proof. reflexivity. Qed.

Lemma zlen_ztake (n : Z) (l : list byte) : zlen (ztake n l) = Z.max 0 (Z.min n (zlen l)).
Proof.
  revert n; induction l as [|x t IH]; intros n.
  - destruct n; reflexivity.
  - pose proof (zlen_nonneg t). rewrite zlen_cons.
    destruct (Z.leb_spec n 0).
    + rewrite ztake_nonpos by lia. rewrite zlen_nil. lia.
    + rewrite ztake_cons, zlen_cons, IH by lia. lia.
Qed.

Lemma zlen_zdrop (n : Z) (l : list byte) : zlen (zdrop n l) = zlen l - Z.max 0 (Z.min n (zlen l)).
Proof.
  revert n; induction l as [|x t IH]; intros n.
  - destruct n; reflexivity.
  - pose proof (zlen_nonneg t). rewrite zlen_cons.
    destruct (Z.leb_spec n 0).
    + rewrite zdrop_nonpos by lia. rewrite zlen_cons. lia.
    + rewrite zdrop_cons, IH by lia. lia.
Qed.

Lemma zlen_slice (l : list byte) (i j : Z) :
  0 <= i <= j -> j <= zlen l -> zlen (slice l i j) = j - i.
Proof. intros. unfold slice. rewrite zlen_ztake, zlen_zdrop. lia. Qed.

Lemma zlen_slice_le (l : list byte) (i j : Z) : 0 <= i -> zlen (slice l i j) <= Z.max 0 (j - i).
Proof. intros. unfold slice. rewrite zlen_ztake. lia. Qed.

Lemma zlen_slice_assign (l : list byte) (i j : Z) (xs : list byte) :
  0 <= i <= j -> j <= zlen l -> zlen (slice_assign l i j xs) = zlen l - (j - i) + zlen xs.
Proof.
  intros. unfold slice_assign. rewrite !zlen_app, zlen_ztake, zlen_zdrop. lia.
Qed.

Lemma zdrop_zdrop (a b : Z) (l : list byte) :
  0 <= a -> 0 <= b -> zdrop a (zdrop b l) = zdrop (a + b) l.
Proof.
  revert b; induction l as [|x t IH]; intros b Ha Hb; [destruct a; reflexivity|].
  destruct (Z.leb_spec b 0).
  - rewrite (zdrop_nonpos b) by lia. f_equal. lia.
  - rewrite zdrop_cons by lia. rewrite (zdrop_cons (a + b)) by lia.
    rewrite IH by lia. f_equal. lia.
Qed.

Lemma zdrop_ztake (a n : Z) (l : list byte) :
  0 <= a -> zdrop a (ztake n l) = ztake (n - a) (zdrop a l).
Proof.
  revert a n; induction l as [|x t IH]; intros a n Ha; [destruct a, n; reflexivity|].
  destruct (Z.leb_spec n 0).
  - rewrite (ztake_nonpos n) by lia.
    destruct (Z.leb_spec a 0).
    + rewrite !zdrop_nonpos by lia. rewrite ztake_nonpos by lia. reflexivity.
    + rewrite zdrop_cons by lia. rewrite ztake_nonpos by lia. destruct a; reflexivity.
  - rewrite ztake_cons by lia.
    destruct (Z.leb_spec a 0).
    + rewrite !zdrop_nonpos by lia. rewrite ztake_cons by lia. do 2 f_equal. lia.
    + rewrite !zdrop_cons by lia. rewrite IH by lia. f_equal. lia.
Qed.

Lemma ztake_ztake (m n : Z) (l : list byte) : m <= n -> ztake m (ztake n l) = ztake m l.
Proof.
  revert m n; induction l as [|x t IH]; intros m n Hmn; [destruct n, m; reflexivity|].
  destruct (Z.leb_spec m 0).
  - rewrite !(ztake_nonpos m) by lia. reflexivity.
  - rewrite (ztake_cons n), !(ztake_cons m) by lia. f_equal. apply IH. lia.
Qed.

Lemma ztake_app_le (n : Z) (a b : list byte) : n <= zlen a -> ztake n (a ++ b) = ztake n a.
Proof.
  revert n; induction a as [|x a IH]; intros n Hn.
  - rewrite zlen_nil in Hn. rewrite !ztake_nonpos by lia. reflexivity.
  - rewrite zlen_cons in Hn. destruct (Z.leb_spec n 0).
    + rewrite !ztake_nonpos by lia. reflexivity.
    + rewrite <- app_comm_cons, !ztake_cons by lia. f_equal. apply IH. lia.
Qed.

Lemma zdrop_app_le (n : Z) (a b : list byte) : 0 <= n <= zlen a -> zdrop n (a ++ b) = zdrop n a ++ b.
Proof.
  revert n; induction a as [|x a IH]; intros n Hn.
  - unfold zlen in Hn; simpl length in Hn. replace n with 0 by lia. rewrite !zdrop_0. reflexivity.
  - rewrite zlen_cons in Hn. destruct (Z.leb_spec n 0).
    + rewrite !zdrop_nonpos by lia. reflexivity.
    + rewrite <- app_comm_cons, !zdrop_cons by lia. apply IH. lia.
Qed.

Lemma ztake_all (n : Z) (l : list byte) : zlen l <= n -> ztake n l = l.
Proof.
  revert n; induction l as [|x t IH]; intros n Hn; [reflexivity|].
  rewrite zlen_cons in Hn. pose proof (zlen_nonneg t).
  rewrite ztake_cons by lia. f_equal. apply IH. lia.
Qed.

Lemma zdrop_all (n : Z) (l : list byte) : zlen l <= n -> zdrop n l = [].
Proof.
  revert n; induction l as [|x t IH]; intros n Hn; [reflexivity|].
  rewrite zlen_cons in Hn. pose proof (zlen_nonneg t).
  rewrite zdrop_cons by lia. apply IH. lia.
Qed.

(** [l[i:j][a:b] == l[i + a : i + b]] when [b <= j - i]. *)
Lemma slice_slice (l : list byte) (i j a b : Z) :
  0 <= i -> 0 <= a <= b -> b <= j - i -> slice (slice l i j) a b = slice l (i + a) (i + b).
Proof.
  intros. unfold slice. rewrite zdrop_ztake, zdrop_zdrop by lia.
  rewrite ztake_ztake by lia. f_equal; [lia|]. f_equal. lia.
Qed.

Lemma slice_app_l (a b : list byte) (i j : Z) :
  0 <= i -> j <= zlen a -> slice (a ++ b) i j = slice a i j.
Proof.
  intros. unfold slice. destruct (Z.leb_spec i (zlen a)).
  - rewrite zdrop_app_le by lia. apply ztake_app_le. rewrite zlen_zdrop. lia.
  - rewrite !ztake_nonpos by lia. reflexivity.
Qed.

Lemma slice_prefix (a b : list byte) : slice (a ++ b) 0 (zlen a) = a.
Proof. unfold slice. rewrite zdrop_0, Z.sub_0_r. apply (ztake_app a b). reflexivity. Qed.

(** After [l[:n] = xs] with [len(xs) == n], the first [n] bytes are [xs]. *)
Lemma slice_assign_front (l xs : list byte) :
  slice_assign l 0 (zlen xs) xs = xs ++ zdrop (zlen xs) l.
Proof.
  unfold slice_assign. rewrite ztake_0, app_nil_l, Z.max_r by apply zlen_nonneg. reflexivity.
Qed.

Lemma bytes_eqb_eq (a b : list byte) : bytes_eqb a b = true <-> a = b.
Proof.
  revert b; induction a as [|x a IH]; intros [|y b]; simpl; try (split; congruence).
  rewrite andb_true_iff, IH. split.
  - intros [Hx ->]. apply Byte.byte_dec_bl in Hx. now subst.
  - intros H; injection H as -> ->. split; [apply Byte.byte_dec_lb|]; reflexivity.
Qed.

Lemma zlen_magic : zlen MAGIC_BYTES = 4.
Proof. reflexivity. Qed.

End SliceLengths.

(** Turns a hypothesis [(a <? b) = true], [(a >? b) = false], ... into
    the arithmetic fact it stands for. *)
Ltac zhyp H :=
  rewrite ?Z.gtb_ltb, ?Z.geb_leb in H;
  first [ apply Z.ltb_lt in H | apply Z.ltb_ge in H | apply Z.leb_le in H
        | apply Z.leb_gt in H | apply Z.eqb_eq in H | apply Z.eqb_neq in H ].

Module ParserInvariant.
Import FrameParser SliceFacts SliceLengths ParserFacts2.

(** The parser's bytearray keeps its length [buffer_size], and
    [buffer_ptr] stays within it. *)
Definition wf (p : FrameParser) : Prop :=
  zlen (buffer p) = buffer_size p /\ 0 <= buffer_ptr p <= buffer_size p.

Lemma buffer_set (p : FrameParser) (b : list byte) (n : Z) : buffer (set_buffer p b n) = b.
Proof. reflexivity. Qed.

Lemma buffer_ptr_set (p : FrameParser) (b : list byte) (n : Z) : buffer_ptr (set_buffer p b n) = n.
Proof. reflexivity. Qed.

Lemma buffer_size_set (p : FrameParser) (b : list byte) (n : Z) :
  buffer_size (set_buffer p b n) = buffer_size p.
Proof. reflexivity. Qed.

Lemma bval_range (b : byte) : 0 <= bval b <= 255.
Proof. unfold bval. pose proof (Byte.to_nat_bounded b). lia. Qed.

Lemma unpack_u32_le_range (buf : list byte) (off : Z) : 0 <= unpack_u32_le buf off < 2 ^ 32.
Proof.
  unfold unpack_u32_le.
  pose proof (bval_range (nth (Z.to_nat (off + 0)) buf x00)).
  pose proof (bval_range (nth (Z.to_nat (off + 1)) buf x00)).
  pose proof (bval_range (nth (Z.to_nat (off + 2)) buf x00)).
  pose proof (bval_range (nth (Z.to_nat (off + 3)) buf x00)).
  lia.
Qed.

Lemma slice_nil (i j : Z) : slice [] i j = [].
Proof. unfold slice. destruct i; reflexivity. Qed.

Lemma slice_cons_0 (x : byte) (t : list byte) : slice (x :: t) 0 4 = ztake 4 (x :: t).
Proof. reflexivity. Qed.

Lemma slice4_cons (x : byte) (t : list byte) (j : Z) :
  0 < j -> slice (x :: t) j (j + 4) = slice (t) (j - 1) (j - 1 + 4).
Proof. intros. unfold slice. rewrite zdrop_cons by lia. f_equal. lia. Qed.

Lemma find_magic_cons (x : byte) (t : list byte) :
  find_magic (x :: t)
  = if bytes_eqb (ztake 4 (x :: t)) MAGIC_BYTES then 0
    else let r := find_magic t in if r <? 0 then -1 else r + 1.
Proof. reflexivity. Qed.

(** [_find_magic(data, 0)] is the index of the first occurrence of the
    magic bytes in [data], or [-1] when there is none. *)
Lemma find_magic_correct (d : list byte) :
  (find_magic d = -1 /\ forall j, 0 <= j -> slice d j (j + 4) <> MAGIC_BYTES) \/
  (0 <= find_magic d /\ slice d (find_magic d) (find_magic d + 4) = MAGIC_BYTES /\
   forall j, 0 <= j < find_magic d -> slice d j (j + 4) <> MAGIC_BYTES).
Proof.
  induction d as [|x t IH].
  - left. split; [reflexivity|]. intros j _. rewrite slice_nil. discriminate.
  - rewrite find_magic_cons.
    destruct (bytes_eqb (ztake 4 (x :: t)) MAGIC_BYTES) eqn:E.
    + right. apply bytes_eqb_eq in E. split; [lia|]. split; [exact E|]. intros; lia.
    + assert (H0 : slice (x :: t) 0 4 <> MAGIC_BYTES).
      { rewrite slice_cons_0. intros Hc. apply bytes_eqb_eq in Hc. congruence. }
      destruct IH as [(Hm & Hno) | (Hpos & Hat & Hfirst)].
      * left. rewrite Hm. split; [reflexivity|]. intros j Hj.
        destruct (Z.eq_dec j 0) as [->|]; [exact H0|].
        rewrite slice4_cons by lia. apply Hno. lia.
      * right. cbv zeta. replace (find_magic t <? 0) with false by zbool.
        split; [lia|]. split.
        -- rewrite slice4_cons by lia. replace (find_magic t + 1 - 1) with (find_magic t) by lia.
           exact Hat.
        -- intros j Hj. destruct (Z.eq_dec j 0) as [->|]; [exact H0|].
           rewrite slice4_cons by lia. apply Hfirst. lia.
Qed.

Lemma find_magic_bounds (d : list byte) :
  -1 <= find_magic d /\ (0 <= find_magic d -> find_magic d + 4 <= zlen d).
Proof.
  destruct (find_magic_correct d) as [(-> & _) | (Hpos & Hat & _)]; [lia|].
  split; [lia|]. intros _.
  assert (Hl : zlen (slice d (find_magic d) (find_magic d + 4)) = 4) by (rewrite Hat; reflexivity).
  unfold slice in Hl. rewrite zlen_ztake, zlen_zdrop in Hl. lia.
Qed.

Lemma length_iter_cons (p : positive) : forall l : list byte,
  length (Pos.iter (cons x00) l p) = (Pos.to_nat p + length l)%nat.
Proof.
  induction p using Pos.peano_ind; intros l; [reflexivity|].
  rewrite Pos.iter_succ. cbn [length]. rewrite IHp, Pos2Nat.inj_succ. reflexivity.
Qed.

Lemma zlen_zeros (n : Z) : 0 <= n -> zlen (zeros n) = n.
Proof.
  intros Hn. destruct n as [|p|p]; [reflexivity| |lia].
  unfold zeros, zlen. rewrite length_iter_cons. simpl length. lia.
Qed.

Lemma init_wf (n : Z) : 0 <= n -> wf (init n).
Proof. intros Hn. split; cbn [buffer buffer_ptr buffer_size init]; [apply zlen_zeros|]; lia. Qed.

Lemma resync_buffer_wf (p : FrameParser) : wf p -> wf (resync_buffer p).
Proof.
  intros (Hlen & Hptr). unfold resync_buffer.
  pose proof (find_magic_bounds (slice (buffer p) 1 (buffer_ptr p))) as (Hlo & Hhi).
  pose proof (zlen_slice_le (buffer p) 1 (buffer_ptr p) ltac:(lia)).
  destruct (0 <=? find_magic (slice (buffer p) 1 (buffer_ptr p))) eqn:E.
  - zhyp E. specialize (Hhi E).
    split; cbn [buffer buffer_ptr buffer_size set_buffer]; [|lia].
    rewrite zlen_slice_assign, zlen_slice by lia. lia.
  - split; cbn [buffer buffer_ptr buffer_size set_buffer]; [|lia].
    rewrite zlen_slice_assign, zlen_slice by lia. lia.
Qed.

Lemma resync_from_chunk_wf (p : FrameParser) (data : list byte) :
  3 <= buffer_size p -> wf p -> wf (resync_from_chunk p data).
Proof.
  intros H3 (Hlen & Hptr). unfold resync_from_chunk.
  pose proof (find_magic_bounds data) as (Hlo & Hhi).
  destruct (0 <=? find_magic data) eqn:E.
  - zhyp E. specialize (Hhi E).
    destruct (zlen data - find_magic data >? buffer_size p) eqn:E2;
      zhyp E2;
      (split; cbn [buffer buffer_ptr buffer_size set_buffer]; [|lia]);
      rewrite zlen_slice_assign, zlen_slice by lia; lia.
  - pose proof (zlen_nonneg data).
    split; cbn [buffer buffer_ptr buffer_size set_buffer]; [|lia].
    unfold slice_assign. rewrite !zlen_app, zlen_ztake, !zlen_zdrop. lia.
Qed.

Lemma try_parse_wf (p : FrameParser) : wf p -> wf (fst (try_parse_frame p)).
Proof.
  intros (Hlen & Hptr). unfold try_parse_frame. cbv zeta.
  pose proof (unpack_u32_le_range (buffer p) 8).
  destruct (buffer_ptr p <? HEADER_SIZE + 4); [split; assumption|].
  destruct ((unpack_u32_le (buffer p) 8 =? 0)
            || (unpack_u32_le (buffer p) 8 + HEADER_SIZE >? buffer_size p));
    [split; cbn; lia|].
  destruct (buffer_ptr p <? HEADER_SIZE + unpack_u32_le (buffer p) 8) eqn:E1;
    [split; assumption|].
  zhyp E1.
  destruct (HEADER_SIZE + unpack_u32_le (buffer p) 12 + unpack_u32_le (buffer p) 16
            >? buffer_ptr p); [split; cbn; lia|].
  cbn [fst]. unfold HEADER_SIZE in *.
  destruct (buffer_ptr p - (28 + unpack_u32_le (buffer p) 8) >? 0) eqn:E2;
    (split; cbn [buffer buffer_ptr buffer_size set_buffer]; [|lia]); [|assumption].
  zhyp E2.
  rewrite zlen_slice_assign, zlen_slice by lia. lia.
Qed.

Lemma appended_wf (p : FrameParser) (data : list byte) :
  wf p -> buffer_ptr p + zlen data < buffer_size p ->
  wf (set_buffer p (appended p data) (buffer_ptr p + zlen data)).
Proof.
  intros (Hlen & Hptr) Hfit. pose proof (zlen_nonneg data).
  split; cbn [buffer buffer_ptr buffer_size set_buffer]; [|lia].
  unfold appended. rewrite zlen_slice_assign by lia. lia.
Qed.

Lemma add_chunk_wf (p : FrameParser) (data : list byte) :
  3 <= buffer_size p -> wf p -> wf (fst (add_chunk p data)).
Proof.
  intros H3 Hwf. destruct data as [|b d]; [exact Hwf|].
  unfold add_chunk. cbv beta iota.
  destruct (buffer_ptr p + zlen (b :: d) >=? buffer_size p) eqn:E.
  - apply resync_from_chunk_wf; assumption.
  - zhyp E. fold (appended p (b :: d)).
    pose proof (appended_wf p (b :: d) Hwf E) as Hw.
    cbn [buffer_ptr buffer set_buffer].
    destruct (buffer_ptr p + zlen (b :: d) >=? 4); [|exact Hw].
    destruct (negb (bytes_eqb (slice (appended p (b :: d)) 0 4) MAGIC_BYTES)).
    + apply resync_buffer_wf, Hw.
    + apply try_parse_wf, Hw.
Qed.

Lemma add_chunk_size (p : FrameParser) (data : list byte) :
  buffer_size (fst (add_chunk p data)) = buffer_size p.
Proof.
  destruct data as [|b d]; [reflexivity|].
  unfold add_chunk, resync_from_chunk, resync_buffer, try_parse_frame. cbv zeta.
  repeat (match goal with |- context [if ?c then _ else _] => destruct c end); reflexivity.
Qed.

Lemma feed_wf (cs : list (list byte)) : forall p,
  3 <= buffer_size p -> wf p -> wf (fst (feed p cs)).
Proof.
  induction cs as [|c cs IH]; intros p H3 Hwf; [exact Hwf|].
  simpl. destruct (add_chunk p c) as [p1 r] eqn:E.
  assert (Hs : buffer_size p1 = buffer_size p)
    by (pose proof (add_chunk_size p c) as Hs; rewrite E in Hs; exact Hs).
  pose proof (add_chunk_wf p c H3 Hwf) as Hw. rewrite E in Hw. cbn [fst] in Hw.
  specialize (IH p1 ltac:(lia) Hw). destruct (feed p1 cs). exact IH.
Qed.

End ParserInvariant.

Module ParserFrames.
Import FrameParser SliceFacts SliceLengths ParserFacts2 ParserInvariant.



(** [_resync_buffer] on a buffer holding [n = buffer_ptr] bytes. *)
Lemma resync_buffer_cases (p : FrameParser) :
  wf p -> 4 <= buffer_ptr p ->
  let s := slice (buffer p) 1 (buffer_ptr p) in
  (find_magic s = -1 /\
   resync_buffer p
   = set_buffer p (slice (buffer p) (buffer_ptr p - 3) (buffer_ptr p)
                   ++ zdrop 3 (buffer p)) 3) \/
  (0 <= find_magic s /\
   resync_buffer p
   = set_buffer p (slice (buffer p) (find_magic s + 1) (buffer_ptr p)
                   ++ zdrop (buffer_ptr p - find_magic s - 1) (buffer p))
                (buffer_ptr p - find_magic s - 1)).
Proof.
  intros (Hlen & Hptr) H4 s. unfold resync_buffer. fold s.
  assert (Hs : zlen s = buffer_ptr p - 1) by (apply zlen_slice; lia).
  pose proof (find_magic_bounds s) as (Hlo & Hhi).
  destruct (0 <=? find_magic s) eqn:E.
  - zhyp E. right. split; [exact E|]. specialize (Hhi E).
    set (xs := slice (buffer p) (find_magic s + 1) (buffer_ptr p)).
    assert (Hx : zlen xs = buffer_ptr p - (find_magic s + 1)) by (apply zlen_slice; lia).
    replace (buffer_ptr p - (find_magic s + 1)) with (zlen xs) by lia.
    rewrite slice_assign_front. f_equal; [f_equal; f_equal|]; lia.
  - zhyp E. left. split; [lia|].
    replace (Z.min 3 (buffer_ptr p)) with 3 by lia.
    set (xs := slice (buffer p) (buffer_ptr p - 3) (buffer_ptr p)).
    assert (Hx : zlen xs = 3) by (unfold xs; rewrite zlen_slice; lia).
    rewrite <- Hx at 1. rewrite slice_assign_front, Hx. reflexivity.
Qed.

End ParserFrames.

Module ParserExtras.
Import FrameParser SliceFacts SliceLengths ParserFacts2 ParserInvariant ParserFrames.


(** [_resync_buffer] keeps a suffix of the [n] bytes held: from the
    first magic sequence after offset 0 (none earlier), else the last 3. *)
Theorem resync_buffer_keeps_suffix (p : FrameParser) :
  wf p -> 4 <= buffer_ptr p ->
  let q := resync_buffer p in
  buffer_size q = buffer_size p /\
  buffer_ptr q < buffer_ptr p /\
  slice (buffer q) 0 (buffer_ptr q)
  = slice (buffer p) (buffer_ptr p - buffer_ptr q) (buffer_ptr p) /\
  ((4 <= buffer_ptr q /\ slice (buffer q) 0 4 = MAGIC_BYTES /\
    forall j, 1 <= j < buffer_ptr p - buffer_ptr q -> slice (buffer p) j (j + 4) <> MAGIC_BYTES)
   \/
   (buffer_ptr q = 3 /\
    forall j, 1 <= j -> j + 4 <= buffer_ptr p -> slice (buffer p) j (j + 4) <> MAGIC_BYTES)).
Proof.
  intros Hwf H4 q. pose proof Hwf as (Hlen & Hptr).
  set (s := slice (buffer p) 1 (buffer_ptr p)).
  assert (Hs : zlen s = buffer_ptr p - 1) by (apply zlen_slice; lia).
  assert (Hsl : forall j, 1 <= j -> j + 4 <= buffer_ptr p ->
                slice (buffer p) j (j + 4) = slice s (j - 1) (j - 1 + 4)).
  { intros j Hj1 Hj2. unfold s. rewrite slice_slice by lia. f_equal; lia. }
  pose proof (find_magic_bounds s) as (_ & Hhi).
  destruct (resync_buffer_cases p Hwf H4) as [(Hm & Hq) | (Hpos & Hq)];
    fold s in Hm || fold s in Hpos; fold s in Hq; unfold q; rewrite Hq;
    cbn [buffer buffer_ptr buffer_size set_buffer].
  - set (xs := slice (buffer p) (buffer_ptr p - 3) (buffer_ptr p)).
    assert (Hx : zlen xs = 3) by (unfold xs; rewrite zlen_slice; lia).
    split; [reflexivity|]. split; [lia|]. split.
    + rewrite <- Hx, slice_prefix; rewrite ?Hx. reflexivity.
    + right. split; [reflexivity|]. intros j Hj1 Hj2.
      rewrite Hsl by lia.
      destruct (find_magic_correct s) as [(_ & Hno) | (Hp & _)]; [apply Hno; lia | lia].
  - specialize (Hhi Hpos).
    set (xs := slice (buffer p) (find_magic s + 1) (buffer_ptr p)).
    assert (Hx : zlen xs = buffer_ptr p - find_magic s - 1) by (unfold xs; rewrite zlen_slice; lia).
    split; [reflexivity|]. split; [lia|]. split.
    + rewrite <- Hx, slice_prefix; rewrite ?Hx. unfold xs. f_equal. lia.
    + left. split; [lia|]. split.
      * rewrite slice_app_l by lia. unfold xs.
        rewrite slice_slice by lia. rewrite !Z.add_0_r.
        destruct (find_magic_correct s) as [(Hm & _) | (_ & Hat & _)]; [lia|].
        rewrite <- Hat. rewrite Hsl by lia. f_equal; f_equal; lia.
      * intros j Hj. rewrite Hsl by lia.
        destruct (find_magic_correct s) as [(Hm & _) | (_ & _ & Hfirst)]; [lia|].
        apply Hfirst. lia.
Qed.

End ParserExtras.

Module ParserStream.
Import FrameParser SliceFacts SliceLengths ParserFacts2 ParserInvariant ParserFrames.

Lemma front_slice (buf xs : list byte) :
  slice (slice_assign buf 0 (zlen xs) xs) 0 (zlen xs) = xs.
Proof. rewrite slice_assign_front. apply slice_prefix. Qed.

(** [_try_parse_frame] on a buffer holding a well-formed frame followed by
    [zlen rest] more valid bytes. *)
Lemma try_parse_encoded_rest (p : FrameParser) (fs : Z) (th jp st rest junk : list byte) :
  buffer p = encode_frame fs th jp st ++ rest ++ junk ->
  buffer_ptr p = HEADER_SIZE + fs + zlen rest ->
  fs = zlen th + zlen jp + zlen st ->
  4 <= fs -> HEADER_SIZE + fs <= buffer_size p -> fs < 2 ^ 32 ->
  try_parse_frame p
  = (set_buffer p (if zlen rest >? 0 then rest ++ zdrop (zlen rest) (buffer p) else buffer p)
                (zlen rest),
     Some (expected_frame fs th jp st)).
Proof.
  intros Hbuf Hptr Hfs H4 Hcap Hmax.
  pose proof (zlen_nonneg th); pose proof (zlen_nonneg jp);
  pose proof (zlen_nonneg st); pose proof (zlen_nonneg rest).
  unfold try_parse_frame. rewrite Hptr.
  unfold HEADER_SIZE in *.
  replace (28 + fs + zlen rest <? 28 + 4) with false by zbool.
  set (hd := header fs (zlen th) (zlen jp) (zlen st)).
  assert (Hb : buffer p = hd ++ th ++ jp ++ st ++ rest ++ junk)
    by (rewrite Hbuf; unfold encode_frame; rewrite <- !app_assoc; reflexivity).
  rewrite Hb.
  destruct (unpack_header fs (zlen th) (zlen jp) (zlen st) (th ++ jp ++ st ++ rest ++ junk))
    as (Hu8 & Hu12 & Hu16 & Hu20); try lia.
  fold hd in Hu8, Hu12, Hu16, Hu20. rewrite Hu8, Hu12, Hu16, Hu20.
  replace ((fs =? 0) || (fs + 28 >? buffer_size p)) with false
    by (rewrite (proj2 (Z.eqb_neq fs 0)) by lia; simpl; zbool).
  replace (28 + fs + zlen rest <? 28 + fs) with false by zbool.
  replace (28 + zlen th + zlen jp >? 28 + fs + zlen rest) with false by zbool.
  replace (28 + fs + zlen rest - (28 + fs)) with (zlen rest) by lia.
  assert (HH : zlen hd = 28) by apply zlen_header.
  rewrite (slice_mid hd th (jp ++ st ++ rest ++ junk) 28 (28 + zlen th)) by lia.
  rewrite (app_assoc hd th).
  rewrite (slice_mid (hd ++ th) jp (st ++ rest ++ junk) (28 + zlen th) (28 + zlen th + zlen jp)) by (rewrite ?zlen_app; lia).
  rewrite (app_assoc (hd ++ th) jp).
  rewrite (slice_mid ((hd ++ th) ++ jp) st (rest ++ junk) (28 + zlen th + zlen jp)
    (28 + zlen th + zlen jp + zlen st)) by (rewrite ?zlen_app; lia).
  rewrite (app_assoc ((hd ++ th) ++ jp) st).
  rewrite (slice_mid (((hd ++ th) ++ jp) ++ st) rest junk (28 + fs) (28 + fs + zlen rest)) by (rewrite ?zlen_app; lia).
  destruct (zlen rest >? 0); [rewrite slice_assign_front|];
    rewrite <- !app_assoc; reflexivity.
Qed.

(** [add_chunk] when the chunk fits but fewer than 4 bytes are held. *)
Lemma add_chunk_short (p : FrameParser) (data : list byte) :
  data <> [] -> buffer_ptr p + zlen data < 4 -> buffer_ptr p + zlen data < buffer_size p ->
  add_chunk p data = (set_buffer p (appended p data) (buffer_ptr p + zlen data), None).
Proof.
  intros Hne H4 Hfit. destruct data as [|b d]; [congruence|].
  unfold add_chunk. cbv beta iota.
  replace (buffer_ptr p + zlen (b :: d) >=? buffer_size p) with false by zbool.
  cbv beta iota. rewrite buffer_ptr_set.
  replace (buffer_ptr p + zlen (b :: d) >=? 4) with false by zbool. reflexivity.
Qed.

Lemma try_parse_short (p : FrameParser) :
  buffer_ptr p < HEADER_SIZE + 4 -> try_parse_frame p = (p, None).
Proof. intros H. unfold try_parse_frame. now replace (buffer_ptr p <? HEADER_SIZE + 4) with true by zbool. Qed.

Lemma try_parse_wait (p : FrameParser) :
  HEADER_SIZE + 4 <= buffer_ptr p ->
  0 < unpack_u32_le (buffer p) 8 ->
  unpack_u32_le (buffer p) 8 + HEADER_SIZE <= buffer_size p ->
  buffer_ptr p < HEADER_SIZE + unpack_u32_le (buffer p) 8 ->
  try_parse_frame p = (p, None).
Proof.
  intros H1 H2 H3 H4. unfold try_parse_frame.
  replace (buffer_ptr p <? HEADER_SIZE + 4) with false by zbool.
  replace (unpack_u32_le (buffer p) 8 =? 0) with false by zbool.
  replace (unpack_u32_le (buffer p) 8 + HEADER_SIZE >? buffer_size p) with false by zbool.
  cbv zeta. now replace (buffer_ptr p <? HEADER_SIZE + unpack_u32_le (buffer p) 8) with true by zbool.
Qed.

Lemma appended_prefix (p : FrameParser) (pre junk data : list byte) :
  buffer p = pre ++ junk -> buffer_ptr p = zlen pre ->
  appended p data = pre ++ data ++ zdrop (zlen pre + zlen data) (pre ++ junk).
Proof.
  intros Hb Hp. unfold appended, slice_assign. rewrite Hb, Hp.
  rewrite (ztake_app pre junk) by reflexivity.
  rewrite Z.max_r by (pose proof (zlen_nonneg data); lia). reflexivity.
Qed.

Lemma unpack_app (a b c : list byte) (off : Z) :
  0 <= off -> off + 4 <= zlen a -> unpack_u32_le (a ++ b) off = unpack_u32_le (a ++ c) off.
Proof.
  intros H0 H1. unfold zlen in H1. unfold unpack_u32_le.
  rewrite !app_nth1 by lia. reflexivity.
Qed.

Lemma magic_encoded (fs : Z) (th jp st x : list byte) :
  slice (encode_frame fs th jp st ++ x) 0 4 = MAGIC_BYTES.
Proof. reflexivity. Qed.

Lemma zlen_encode_ge (fs : Z) (th jp st : list byte) :
  fs = zlen th + zlen jp + zlen st -> zlen (encode_frame fs th jp st) = HEADER_SIZE + fs.
Proof. intros ->. rewrite zlen_encode. unfold HEADER_SIZE. lia. Qed.

Lemma concat_nonempty_nil (cs : list (list byte)) :
  Forall (fun c => c <> []) cs -> concat cs = [] -> cs = [].
Proof.
  intros Hf Hc. destruct cs as [|c cs]; [reflexivity|].
  inversion Hf; subst. simpl in Hc. destruct c; [congruence|discriminate].
Qed.

Lemma feed_cons_none (p p1 : FrameParser) (c : list byte) (cs : list (list byte)) :
  add_chunk p c = (p1, None) -> feed p (c :: cs) = feed p1 cs.
Proof. intros H. simpl. rewrite H. destruct (feed p1 cs); reflexivity. Qed.

Lemma feed_cons_some (p p1 : FrameParser) (c : list byte) (cs : list (list byte)) f :
  add_chunk p c = (p1, Some f) -> feed p (c :: cs) = (fst (feed p1 cs), f :: snd (feed p1 cs)).
Proof. intros H. simpl. rewrite H. destruct (feed p1 cs); reflexivity. Qed.

(** Feeding the rest of a frame whose first [zlen pre] bytes are held. *)
Lemma feed_prefix (fs : Z) (th jp st : list byte) :
  fs = zlen th + zlen jp + zlen st -> 4 <= fs -> fs < 2 ^ 32 ->
  forall cs, Forall (fun c => c <> []) cs ->
  forall pre junk p,
  buffer p = pre ++ junk -> buffer_ptr p = zlen pre ->
  HEADER_SIZE + fs < buffer_size p ->
  pre ++ concat cs = encode_frame fs th jp st ->
  zlen pre < HEADER_SIZE + fs ->
  snd (feed p cs) = [expected_frame fs th jp st] /\ buffer_ptr (fst (feed p cs)) = 0.
Proof.
  intros Hfs H4 Hmax cs Hf. set (e := encode_frame fs th jp st).
  assert (He : zlen e = HEADER_SIZE + fs) by (apply zlen_encode_ge; exact Hfs).
  induction Hf as [|c cs Hc Hf IH]; intros pre junk p Hb Hp Hcap Hpre Hlt.
  - rewrite app_nil_r in Hpre. rewrite Hpre in Hlt. lia.
  - cbn [concat] in Hpre. rewrite app_assoc in Hpre.
    assert (Hlc : zlen (pre ++ c) <= HEADER_SIZE + fs)
      by (rewrite <- He, <- Hpre, (zlen_app (pre ++ c)); pose proof (zlen_nonneg (concat cs)); lia).
    assert (Hcpos : 0 < zlen c) by (destruct c; [congruence|rewrite zlen_cons; pose proof (zlen_nonneg c); lia]).
    rewrite zlen_app in Hlc.
    pose proof (appended_prefix p pre junk c Hb Hp) as Hap.
    set (junk' := zdrop (zlen pre + zlen c) (pre ++ junk)) in Hap.
    set (p1 := set_buffer p (appended p c) (buffer_ptr p + zlen c)).
    assert (Hb1 : buffer p1 = (pre ++ c) ++ junk') by (unfold p1; rewrite buffer_set, Hap, app_assoc; reflexivity).
    assert (Hp1 : buffer_ptr p1 = zlen (pre ++ c)) by (unfold p1; rewrite buffer_ptr_set, Hp, zlen_app; reflexivity).
    assert (Hs1 : buffer_size p1 = buffer_size p) by reflexivity.
    (* the [None] steps, while the frame is incomplete *)
    assert (Hnext : add_chunk p c = (p1, None) -> zlen (pre ++ c) < HEADER_SIZE + fs ->
                    snd (feed p (c :: cs)) = [expected_frame fs th jp st] /\
                    buffer_ptr (fst (feed p (c :: cs))) = 0).
    { intros Hadd Hlt'. rewrite (feed_cons_none p p1 c cs Hadd).
      apply (IH (pre ++ c) junk' p1 Hb1 Hp1); [rewrite Hs1; exact Hcap | exact Hpre | exact Hlt']. }
    destruct (Z_lt_le_dec (zlen pre + zlen c) 4) as [Hsh|Hge4].
    + apply Hnext; [|rewrite zlen_app; unfold HEADER_SIZE in *; lia].
      apply add_chunk_short; [exact Hc|lia|lia].
    + assert (Hmagic : slice (appended p c) 0 4 = MAGIC_BYTES).
      { rewrite Hap, app_assoc, slice_app_l by (rewrite ?zlen_app; lia).
        rewrite <- (slice_app_l (pre ++ c) (concat cs)) by (rewrite ?zlen_app; lia).
        rewrite Hpre. unfold e. rewrite <- (app_nil_r (encode_frame fs th jp st)).
        apply magic_encoded. }
      assert (Hadd : add_chunk p c = try_parse_frame p1)
        by (apply add_chunk_to_parse; [exact Hc|lia|lia|exact Hmagic]).
      destruct (Z_lt_le_dec (zlen pre + zlen c) (HEADER_SIZE + fs)) as [Hin|Hfull].
      * apply Hnext; [|rewrite zlen_app; exact Hin].
        rewrite Hadd.
        destruct (Z_lt_le_dec (zlen pre + zlen c) (HEADER_SIZE + 4)) as [Hsh|Hge].
        -- apply try_parse_short. rewrite Hp1, zlen_app. exact Hsh.
        -- assert (Hu : unpack_u32_le (buffer p1) 8 = fs).
           { rewrite Hb1, (unpack_app (pre ++ c) junk' (concat cs))
               by (rewrite ?zlen_app; unfold HEADER_SIZE in *; lia).
             rewrite Hpre. unfold e, encode_frame. rewrite <- ?app_assoc.
             pose proof (zlen_nonneg th); pose proof (zlen_nonneg jp); pose proof (zlen_nonneg st).
             destruct (unpack_header fs (zlen th) (zlen jp) (zlen st) (th ++ jp ++ st))
               as (Hu & _); lia. }
           apply try_parse_wait; rewrite ?Hu, ?Hp1, ?Hs1, ?zlen_app; lia.
      * assert (Hcs : cs = []).
        { apply concat_nonempty_nil; [exact Hf|].
          apply (f_equal (@zlen byte)) in Hpre. rewrite zlen_app, He, zlen_app in Hpre.
          destruct (concat cs); [reflexivity|rewrite zlen_cons in Hpre; pose proof (zlen_nonneg l); lia]. }
        subst cs. cbn [concat] in Hpre. rewrite app_nil_r in Hpre.
        assert (Hp2 : try_parse_frame p1
                      = (set_buffer p1 (buffer p1) 0, Some (expected_frame fs th jp st))).
        { rewrite (try_parse_encoded_rest p1 fs th jp st [] junk').
          - reflexivity.
          - rewrite Hb1, Hpre. reflexivity.
          - rewrite Hp1, zlen_app, zlen_nil. unfold HEADER_SIZE in *. lia.
          - exact Hfs.
          - exact H4.
          - rewrite Hs1. lia.
          - exact Hmax. }
        rewrite <- Hadd in Hp2. rewrite (feed_cons_some _ _ _ _ _ Hp2). cbn. split; reflexivity.
Qed.

End ParserStream.

Module ParserStream2.
Import FrameParser SliceFacts SliceLengths ParserFacts2 ParserInvariant ParserFrames ParserStream.

Definition nonempty (c : list byte) : bool :=
  match c with [] => false | _ => true end.

Lemma feed_cons (p : FrameParser) (c : list byte) (cs : list (list byte)) :
  feed p (c :: cs)
  = (fst (feed (fst (add_chunk p c)) cs),
     match snd (add_chunk p c) with
     | Some f => f :: snd (feed (fst (add_chunk p c)) cs)
     | None => snd (feed (fst (add_chunk p c)) cs)
     end).
Proof. simpl. destruct (add_chunk p c) as [p1 r]. simpl. destruct (feed p1 cs); reflexivity. Qed.

Lemma feed_filter (cs : list (list byte)) : forall p,
  feed p (filter nonempty cs) = feed p cs.
Proof.
  induction cs as [|c cs IH]; intros p; [reflexivity|].
  destruct c as [|b d].
  - change (filter nonempty ([] :: cs)) with (filter nonempty cs).
    rewrite IH. simpl. destruct (feed p cs); reflexivity.
  - change (filter nonempty ((b :: d) :: cs)) with ((b :: d) :: filter nonempty cs).
    rewrite !feed_cons, IH. reflexivity.
Qed.

Lemma concat_filter (cs : list (list byte)) : concat (filter nonempty cs) = concat cs.
Proof. induction cs as [|[|b d] cs IH]; simpl; rewrite ?IH; reflexivity. Qed.

Lemma filter_nonempty_forall (cs : list (list byte)) :
  Forall (fun c => c <> []) (filter nonempty cs).
Proof.
  induction cs as [|[|b d] cs IH]; simpl; [constructor|exact IH|].
  constructor; [discriminate|exact IH].
Qed.

(** Held bytes after [l[:n] = xs] with [len(xs) == n <= len(l)]. *)
Lemma slice_assign_held (l xs : list byte) :
  slice (slice_assign l 0 (zlen xs) xs) 0 (zlen xs) = xs.
Proof. rewrite slice_assign_front. apply slice_prefix. Qed.

Lemma feed_frame_chunks (p : FrameParser) (fs : Z) (th jp st : list byte)
    (cs : list (list byte)) :
  buffer_ptr p = 0 ->
  fs = zlen th + zlen jp + zlen st -> 4 <= fs -> fs < 2 ^ 32 ->
  HEADER_SIZE + fs < buffer_size p ->
  concat cs = encode_frame fs th jp st ->
  snd (feed p cs) = [expected_frame fs th jp st] /\ buffer_ptr (fst (feed p cs)) = 0.
Proof.
  intros Hp Hfs H4 Hmax Hcap Hc.
  rewrite <- feed_filter.
  apply (feed_prefix fs th jp st Hfs H4 Hmax _ (filter_nonempty_forall cs) [] (buffer p) p).
  - reflexivity.
  - rewrite Hp. reflexivity.
  - exact Hcap.
  - rewrite concat_filter. exact Hc.
  - rewrite zlen_nil. unfold HEADER_SIZE. lia.
Qed.

Lemma zlen_encode_pos (fs : Z) (th jp st : list byte) :
  fs = zlen th + zlen jp + zlen st -> 0 <= fs -> 0 < zlen (encode_frame fs th jp st).
Proof. intros Hfs H. rewrite zlen_encode_ge by exact Hfs. unfold HEADER_SIZE. lia. Qed.



Lemma held_after_assign (l xs : list byte) (n : Z) :
  zlen xs = n -> slice (slice_assign l 0 n xs) 0 n = xs.
Proof. intros <-. apply slice_assign_held. Qed.

(** A chunk that does not fit behind the held bytes produces no frame.
    The held bytes are dropped and the buffer restarts with a piece of the
    chunk. That piece starts at the chunk's first magic sequence and keeps
    at most [buffer_size] bytes, or it is the chunk's last 3 bytes when no
    magic sequence occurs in the chunk. *)
Theorem add_chunk_overflow (p : FrameParser) (data : list byte) :
  wf p -> data <> [] -> buffer_size p <= buffer_ptr p + zlen data ->
  let q := fst (add_chunk p data) in
  snd (add_chunk p data) = None /\ buffer_size q = buffer_size p /\
  exists k, 0 <= k /\ k + buffer_ptr q <= zlen data /\
    slice (buffer q) 0 (buffer_ptr q) = slice data k (k + buffer_ptr q) /\
    ((slice data k (k + 4) = MAGIC_BYTES /\
      (forall j, 0 <= j < k -> slice data j (j + 4) <> MAGIC_BYTES) /\
      buffer_ptr q = Z.min (zlen data - k) (buffer_size p))
     \/
     ((forall j, 0 <= j -> slice data j (j + 4) <> MAGIC_BYTES) /\
      buffer_ptr q = Z.min 3 (zlen data) /\ k = zlen data - buffer_ptr q)).
Proof.
  intros (Hlen & Hptr) Hne Hover q.
  assert (Hadd : add_chunk p data = (resync_from_chunk p data, None)).
  { destruct data as [|b d]; [congruence|]. unfold add_chunk. cbv beta iota.
    replace (buffer_ptr p + zlen (b :: d) >=? buffer_size p) with true
      by (symmetry; rewrite Z.geb_le; lia).
    reflexivity. }
  unfold q; rewrite Hadd; cbn [fst snd]. split; [reflexivity|].
  pose proof (zlen_nonneg data).
  unfold resync_from_chunk. cbv zeta.
  pose proof (find_magic_bounds data) as (Hlo & Hhi).
  destruct (find_magic_correct data) as [(Hm & Hno) | (Hpos & Hat & Hfirst)].
  - rewrite Hm. cbn [Z.leb Z.compare]. rewrite buffer_size_set, buffer_set, buffer_ptr_set.
    split; [reflexivity|].
    assert (Hd : 0 < zlen data) by (destruct data; [congruence|rewrite zlen_cons; pose proof (zlen_nonneg data); lia]).
    set (keep := Z.min 3 (zlen data)).
    assert (Hk : zlen (zdrop (zlen data - keep) data) = keep)
      by (rewrite zlen_zdrop; unfold keep; lia).
    exists (zlen data - keep). split; [unfold keep; lia|]. split; [lia|]. split.
    + rewrite held_after_assign by exact Hk. unfold slice.
      rewrite ztake_all; [reflexivity|]. rewrite Hk. lia.
    + right. split; [exact Hno|]. split; reflexivity.
  - specialize (Hhi Hpos).
    replace (0 <=? find_magic data) with true by (symmetry; apply Z.leb_le; lia).
    set (pos := find_magic data) in *.
    set (rem := if zlen data - pos >? buffer_size p then buffer_size p else zlen data - pos).
    assert (Hrem : rem = Z.min (zlen data - pos) (buffer_size p)).
    { unfold rem. destruct (zlen data - pos >? buffer_size p) eqn:E; zhyp E; lia. }
    assert (Hx : zlen (slice data pos (pos + rem)) = rem) by (rewrite zlen_slice; lia).
    rewrite buffer_size_set, buffer_set, buffer_ptr_set. split; [reflexivity|].
    exists pos. split; [lia|]. split; [lia|]. split.
    + apply held_after_assign, Hx.
    + left. split; [exact Hat|]. split; [exact Hfirst|exact Hrem].
Qed.

End ParserStream2.

Module ParserWitnesses.
Import FrameParser SliceFacts SliceLengths ParserFacts2 ParserInvariant ParserFrames ParserStream ParserStream2 ParserExtras.

(** A frame split into chunks at any points, fed to a parser holding no
    bytes, comes out once, exactly as encoded; the buffer is empty
    afterwards. *)
Theorem feed_chunked_frame (p : FrameParser) (fs : Z) (th jp st : list byte)
    (cs : list (list byte)) :
  buffer_ptr p = 0 ->
  fs = zlen th + zlen jp + zlen st -> 4 <= fs -> fs < 2 ^ 32 ->
  HEADER_SIZE + fs < buffer_size p ->
  concat cs = encode_frame fs th jp st ->
  snd (feed p cs) = [expected_frame fs th jp st] /\ buffer_ptr (fst (feed p cs)) = 0.
Proof. apply feed_frame_chunks. Qed.

Definition demo_frame : list byte := encode_frame 4 [x01; x02] [xff] [x03].


Definition junk_then_magic : FrameParser :=
  set_buffer (init 16) ([x01; x02] ++ MAGIC_BYTES ++ [x05] ++ zeros 9) 7.

Lemma resync_buffer_keeps_suffix_witness :
  let q := resync_buffer junk_then_magic in
  buffer_size q = buffer_size junk_then_magic /\
  buffer_ptr q < buffer_ptr junk_then_magic /\
  slice (buffer q) 0 (buffer_ptr q)
  = slice (buffer junk_then_magic) (buffer_ptr junk_then_magic - buffer_ptr q)
      (buffer_ptr junk_then_magic) /\
  ((4 <= buffer_ptr q /\ slice (buffer q) 0 4 = MAGIC_BYTES /\
    forall j, 1 <= j < buffer_ptr junk_then_magic - buffer_ptr q ->
      slice (buffer junk_then_magic) j (j + 4) <> MAGIC_BYTES)
   \/
   (buffer_ptr q = 3 /\
    forall j, 1 <= j -> j + 4 <= buffer_ptr junk_then_magic ->
      slice (buffer junk_then_magic) j (j + 4) <> MAGIC_BYTES)).
Proof.
  apply resync_buffer_keeps_suffix.
  - split; [reflexivity | cbn; lia].
  - cbn. lia.
Defined.

Lemma feed_chunked_frame_witness :
  snd (feed (init 64) [firstn 5 demo_frame; firstn 20 (skipn 5 demo_frame); skipn 25 demo_frame])
  = [expected_frame 4 [x01; x02] [xff] [x03]] /\
  buffer_ptr (fst (feed (init 64)
    [firstn 5 demo_frame; firstn 20 (skipn 5 demo_frame); skipn 25 demo_frame])) = 0.
Proof.
  apply (feed_chunked_frame (init 64) 4 [x01; x02] [xff] [x03]);
    [reflexivity | reflexivity | lia | lia | vm_compute; reflexivity | reflexivity].
Defined.


Definition overflow_chunk : list byte := zeros 3 ++ MAGIC_BYTES ++ zeros 13.

Lemma add_chunk_overflow_witness :
  let q := fst (add_chunk (init 16) overflow_chunk) in
  snd (add_chunk (init 16) overflow_chunk) = None /\ buffer_size q = buffer_size (init 16) /\
  exists k, 0 <= k /\ k + buffer_ptr q <= zlen overflow_chunk /\
    slice (buffer q) 0 (buffer_ptr q) = slice overflow_chunk k (k + buffer_ptr q) /\
    ((slice overflow_chunk k (k + 4) = MAGIC_BYTES /\
      (forall j, 0 <= j < k -> slice overflow_chunk j (j + 4) <> MAGIC_BYTES) /\
      buffer_ptr q = Z.min (zlen overflow_chunk - k) (buffer_size (init 16)))
     \/
     ((forall j, 0 <= j -> slice overflow_chunk j (j + 4) <> MAGIC_BYTES) /\
      buffer_ptr q = Z.min 3 (zlen overflow_chunk) /\ k = zlen overflow_chunk - buffer_ptr q)).
Proof.
  apply add_chunk_overflow.
  - split; [reflexivity | cbn; lia].
  - discriminate.
  - vm_compute. discriminate.
Defined.

Lemma feed_size (cs : list (list byte)) : forall p, buffer_size (fst (feed p cs)) = buffer_size p.
Proof.
  induction cs as [|c cs IH]; intros p; [reflexivity|].
  simpl. destruct (add_chunk p c) as [p1 r] eqn:E.
  pose proof (add_chunk_size p c) as Hs. rewrite E in Hs. cbn [fst] in Hs.
  specialize (IH p1). destruct (feed p1 cs). cbn [fst] in *. congruence.
Qed.

(** A parser made with a buffer of [n >= 3] bytes keeps, whatever chunks
    it is fed, a bytearray of exactly [n] bytes with [0 <= buffer_ptr <= n]. *)
Theorem feed_keeps_buffer_shape (n : Z) (cs : list (list byte)) :
  3 <= n ->
  wf (fst (feed (init n) cs)) /\ buffer_size (fst (feed (init n) cs)) = n.
Proof.
  intros Hn. split.
  - apply feed_wf; [exact Hn | apply init_wf; lia].
  - rewrite feed_size. reflexivity.
Qed.

Lemma feed_keeps_buffer_shape_witness :
  wf (fst (feed (init 64) [demo_frame; overflow_chunk; [x01]])) /\
  buffer_size (fst (feed (init 64) [demo_frame; overflow_chunk; [x01]])) = 64.
Proof. apply (feed_keeps_buffer_shape 64 [demo_frame; overflow_chunk; [x01]]). lia. Defined.

End ParserWitnesses.

Module USBLifecycle.
Import USBDriver.

Definition USB_CONFIG : Z := 3.
Definition USB_INTERFACES : list Z := [0; 1; 2].

(** Exceptions that reach the driver: [RuntimeError] (raised by [open]),
    [usb.core.USBError], and any other exception. *)
Inductive Exc := RuntimeError | USBError | OtherError.

Inductive Outcome (A : Type) := Ok (v : A) | Fail (e : Exc).
Arguments Ok {A} v.
Arguments Fail {A} e.

(** The device as the driver sees it: how each call on it ends.
    [ctrl_transfer v i] is [ctrl_transfer(0x01, 0x0b, v, i, timeout=100)]. *)
Record UsbEnv := {
  find : option Z;
  is_kernel_driver_active : Z -> Outcome bool;
  detach_kernel_driver : Z -> Outcome unit;
  set_configuration : Z -> Outcome unit;
  claim_interface : Z -> Outcome unit;
  ctrl_transfer : Z -> Z -> Outcome unit;
  release_interface : Z -> Outcome unit
}.

(** [self.device], [self._claimed_interfaces], [self._initialized]. *)
Record Driver := {
  device : option Z;
  claimed_interfaces : list Z;
  initialized : bool
}.

Definition new_driver : Driver :=
  {| device := None; claimed_interfaces := []; initialized := false |}.

(** A state and exception monad: a method runs on the driver and ends
    with a value or an exception; changes made before an exception stay. *)
Definition M (A : Type) : Type := Driver -> Driver * Outcome A.

Definition ret {A} (a : A) : M A := fun s => (s, Ok a).
Definition bind {A B} (m : M A) (k : A -> M B) : M B :=
  fun s => match m s with
           | (s', Ok a) => k a s'
           | (s', Fail e) => (s', Fail e)
           end.
Definition raise {A} (e : Exc) : M A := fun s => (s, Fail e).
Definition call {A} (o : Outcome A) : M A := fun s => (s, o).
Definition modify (f : Driver -> Driver) : M unit := fun s => (f s, Ok tt).

Notation "x <- m ;; k" := (bind m (fun x => k)) (at level 61, m at next level, right associativity).
Notation "m ;;; k" := (bind m (fun _ => k)) (at level 61, right associativity).

(** [try: m except usb.core.USBError: handler]. *)
Definition try_usb (m : M unit) (handler : M unit) : M unit :=
  fun s => match m s with
           | (s', Fail USBError) => handler s'
           | r => r
           end.

(** [try: m except: pass]. *)
Definition try_any (m : M unit) : M unit :=
  fun s => match m s with
           | (s', Fail _) => (s', Ok tt)
           | r => r
           end.

Fixpoint for_each (l : list Z) (body : Z -> M unit) : M unit :=
  match l with
  | [] => ret tt
  | x :: t => body x ;;; for_each t body
  end.

Definition set_device (d : option Z) (s : Driver) : Driver :=
  {| device := d; claimed_interfaces := claimed_interfaces s; initialized := initialized s |}.
Definition append_claimed (i : Z) (s : Driver) : Driver :=
  {| device := device s; claimed_interfaces := claimed_interfaces s ++ [i];
     initialized := initialized s |}.
Definition set_initialized (s : Driver) : Driver :=
  {| device := device s; claimed_interfaces := claimed_interfaces s; initialized := true |}.

(** [find_device]. *)
Definition find_device (env : UsbEnv) : M bool :=
  modify (set_device (find env)) ;;; ret (match find env with Some _ => true | None => false end).

(** [_initialize]; the [print]s and [time.sleep(0.1)] have no effect on
    the state. *)
Definition initialize (env : UsbEnv) : M unit :=
  try_usb (call (ctrl_transfer env 0 2) ;;; call (ctrl_transfer env 0 1) ;;;
           call (ctrl_transfer env 1 1) ;;; modify set_initialized)
          (ret tt).

(** [open]. *)
Definition open (env : UsbEnv) : M bool :=
  fun s =>
  (match device s with
   | None => found <- find_device env ;; if found then ret tt else raise RuntimeError
   | Some _ => ret tt
   end ;;;
   for_each USB_INTERFACES (fun iface =>
     try_usb (active <- call (is_kernel_driver_active env iface) ;;
              if active then call (detach_kernel_driver env iface) else ret tt)
             (ret tt)) ;;;
   try_usb (call (set_configuration env USB_CONFIG)) (ret tt) ;;;
   for_each USB_INTERFACES (fun iface =>
     try_usb (call (claim_interface env iface) ;;; modify (append_claimed iface))
             (ret tt)) ;;;
   initialize env ;;;
   ret true) s.

(** [close]. *)
Definition close (env : UsbEnv) : M unit :=
  fun s =>
  match device s with
  | None => (s, Ok tt)
  | Some _ =>
      (try_any (call (ctrl_transfer env 0 2)) ;;;
       try_any (call (ctrl_transfer env 0 1)) ;;;
       for_each (claimed_interfaces s) (fun iface =>
         try_usb (call (release_interface env iface)) (ret tt)) ;;;
       modify (fun _ => new_driver)) s
  end.

(** [self.device is not None]: what [read] tests. *)
Definition device_open (s : Driver) : bool :=
  match device s with Some _ => true | None => false end.

End USBLifecycle.

Module USBLifecycleFacts.
Import USBDriver USBLifecycle.

(** A call that ends normally or with a [USBError]: the only exception
    the driver catches selectively. *)
Definition usb_only {A} (o : Outcome A) : bool :=
  match o with Fail RuntimeError | Fail OtherError => false | _ => true end.

Definition succeeded {A} (o : Outcome A) : bool :=
  match o with Ok _ => true | Fail _ => false end.

(** No call made by [open] raises anything but [USBError]. *)
Definition open_calls_usb_only (env : UsbEnv) : bool :=
  forallb (fun i => usb_only (is_kernel_driver_active env i) &&
                    usb_only (detach_kernel_driver env i) && usb_only (claim_interface env i))
          USB_INTERFACES &&
  usb_only (set_configuration env USB_CONFIG) &&
  usb_only (ctrl_transfer env 0 2) && usb_only (ctrl_transfer env 0 1) &&
  usb_only (ctrl_transfer env 1 1).

(** [_initialize] completes: the three control transfers succeed. *)
Definition init_ok (env : UsbEnv) : bool :=
  succeeded (ctrl_transfer env 0 2) && succeeded (ctrl_transfer env 0 1) &&
  succeeded (ctrl_transfer env 1 1).

Lemma driver_eta (s : Driver) :
  {| device := device s; claimed_interfaces := claimed_interfaces s; initialized := initialized s |} = s.
Proof. destruct s; reflexivity. Qed.

Lemma bind_ret {A B} (a : A) (k : A -> M B) (s : Driver) : bind (ret a) k s = k a s.
Proof. reflexivity. Qed.

Lemma bind_step {A B} (m : M A) (k : A -> M B) (s s' : Driver) (a : A) :
  m s = (s', Ok a) -> bind m k s = k a s'.
Proof. intros H. unfold bind. rewrite H. reflexivity. Qed.

Lemma bind_fail {A B} (m : M A) (k : A -> M B) (s s' : Driver) (e : Exc) :
  m s = (s', Fail e) -> bind m k s = (s', Fail e).
Proof. intros H. unfold bind. rewrite H. reflexivity. Qed.

Lemma try_usb_call_ok {A} (o : Outcome A) (k : A -> M unit) (s : Driver) :
  usb_only o = true -> (forall a, k a s = (s, Ok tt) \/ k a s = (s, Fail USBError)) ->
  try_usb (bind (call o) k) (ret tt) s = (s, Ok tt).
Proof.
  intros Ho Hk. unfold try_usb, bind, call.
  destruct o as [a|[| |]]; cbn in Ho; try discriminate; [|reflexivity].
  destruct (Hk a) as [-> | ->]; reflexivity.
Qed.

Lemma detach_loop (env : UsbEnv) (l : list Z) (s : Driver) :
  (forall i, In i l -> usb_only (is_kernel_driver_active env i) = true /\
                       usb_only (detach_kernel_driver env i) = true) ->
  for_each l (fun iface =>
    try_usb (active <- call (is_kernel_driver_active env iface) ;;
             if active then call (detach_kernel_driver env iface) else ret tt)
            (ret tt)) s = (s, Ok tt).
Proof.
  induction l as [|x t IH]; intros Hl; [reflexivity|].
  cbn [for_each]. destruct (Hl x (or_introl eq_refl)) as [Hk Hd].
  rewrite (bind_step _ _ s s tt); [apply IH; intros i Hi; apply Hl; right; exact Hi|].
  apply try_usb_call_ok; [exact Hk|]. intros [|]; [|left; reflexivity].
  unfold call. destruct (detach_kernel_driver env x) as [[]|[| |]]; cbn in Hd;
    try discriminate; [left|right]; reflexivity.
Qed.

Lemma claim_loop (env : UsbEnv) (l : list Z) (s : Driver) :
  (forall i, In i l -> usb_only (claim_interface env i) = true) ->
  for_each l (fun iface =>
    try_usb (call (claim_interface env iface) ;;; modify (append_claimed iface)) (ret tt)) s
  = ({| device := device s;
        claimed_interfaces := claimed_interfaces s
                              ++ filter (fun i => succeeded (claim_interface env i)) l;
        initialized := initialized s |}, Ok tt).
Proof.
  revert s. induction l as [|x t IH]; intros s Hl.
  - cbn. rewrite app_nil_r, driver_eta. reflexivity.
  - cbn [for_each filter]. pose proof (Hl x (or_introl eq_refl)) as Hx.
    unfold bind at 1. unfold try_usb at 1. unfold bind at 1. unfold call at 1.
    destruct (claim_interface env x) as [[]|[| |]]; cbn in Hx; try discriminate; cbn [succeeded].
    + cbn. rewrite IH by (intros i Hi; apply Hl; right; exact Hi).
      cbn. rewrite <- app_assoc. reflexivity.
    + cbn. rewrite IH by (intros i Hi; apply Hl; right; exact Hi). reflexivity.
Qed.

Lemma release_loop_ok (env : UsbEnv) (l : list Z) (s : Driver) :
  (forall i, In i l -> usb_only (release_interface env i) = true) ->
  for_each l (fun iface => try_usb (call (release_interface env iface)) (ret tt)) s = (s, Ok tt).
Proof.
  induction l as [|x t IH]; intros Hl; [reflexivity|].
  cbn [for_each]. pose proof (Hl x (or_introl eq_refl)) as Hx.
  unfold bind at 1, try_usb at 1, call at 1.
  destruct (release_interface env x) as [[]|[| |]]; cbn in Hx; try discriminate;
    apply IH; intros i Hi; apply Hl; right; exact Hi.
Qed.

Lemma release_loop_fail (env : UsbEnv) (l : list Z) (s : Driver) :
  (exists i, In i l /\ usb_only (release_interface env i) = false) ->
  exists e, for_each l (fun iface => try_usb (call (release_interface env iface)) (ret tt)) s
            = (s, Fail e).
Proof.
  induction l as [|x t IH]; intros (i & Hi & Hn); [destruct Hi|].
  cbn [for_each]. unfold bind at 1, try_usb at 1, call at 1.
  destruct (release_interface env x) as [[]|[| |]] eqn:E.
  - apply IH. exists i. destruct Hi as [<-|Hi]; [rewrite E in Hn; discriminate|tauto].
  - eexists; reflexivity.
  - apply IH. exists i. destruct Hi as [<-|Hi]; [rewrite E in Hn; discriminate|tauto].
  - eexists; reflexivity.
Qed.

Lemma initialize_result (env : UsbEnv) (s : Driver) :
  usb_only (ctrl_transfer env 0 2) = true -> usb_only (ctrl_transfer env 0 1) = true ->
  usb_only (ctrl_transfer env 1 1) = true ->
  initialize env s
  = ({| device := device s; claimed_interfaces := claimed_interfaces s;
        initialized := initialized s || init_ok env |}, Ok tt).
Proof.
  intros H1 H2 H3. unfold initialize, init_ok, try_usb, bind, call, modify.
  destruct (ctrl_transfer env 0 2) as [[]|[| |]]; cbn in H1; try discriminate;
  destruct (ctrl_transfer env 0 1) as [[]|[| |]]; cbn in H2; try discriminate;
  destruct (ctrl_transfer env 1 1) as [[]|[| |]]; cbn in H3; try discriminate;
  cbn; rewrite ?orb_true_r, ?orb_false_r, ?driver_eta; reflexivity.
Qed.

Lemma open_result (env : UsbEnv) (s : Driver) :
  open_calls_usb_only env = true ->
  device s <> None \/ find env <> None ->
  open env s
  = ({| device := match device s with Some d => Some d | None => find env end;
        claimed_interfaces := claimed_interfaces s
          ++ filter (fun i => succeeded (claim_interface env i)) USB_INTERFACES;
        initialized := initialized s || init_ok env |}, Ok true).
Proof.
  intros Hall Hdev. unfold open_calls_usb_only in Hall.
  rewrite !andb_true_iff in Hall. destruct Hall as ((((Hifs & Hcfg) & H1) & H2) & H3).
  rewrite forallb_forall in Hifs.
  assert (Hifs' : forall i, In i USB_INTERFACES ->
            usb_only (is_kernel_driver_active env i) = true /\
            usb_only (detach_kernel_driver env i) = true /\ usb_only (claim_interface env i) = true)
    by (intros i Hi; specialize (Hifs i Hi); rewrite !andb_true_iff in Hifs; tauto).
  clear Hifs. rename Hifs' into Hifs.
  set (s1 := {| device := match device s with Some d => Some d | None => find env end;
                claimed_interfaces := claimed_interfaces s; initialized := initialized s |}).
  unfold open.
  rewrite (bind_step _ _ s s1 tt).
  2:{ destruct (device s) as [d|] eqn:Ed.
      - unfold s1. rewrite <- Ed, driver_eta. reflexivity.
      - destruct Hdev as [Hdev|Hdev]; [congruence|].
        unfold find_device, bind, modify, ret, raise. cbn.
        destruct (find env) as [d|]; [|congruence]. unfold s1, set_device. reflexivity. }
  rewrite (bind_step _ _ s1 s1 tt).
  2:{ apply detach_loop. intros i Hi. destruct (Hifs i Hi) as (Ha & Hb & _). split; assumption. }
  rewrite (bind_step _ _ s1 s1 tt).
  2:{ unfold try_usb, call. destruct (set_configuration env USB_CONFIG) as [[]|[| |]];
      cbn in Hcfg; try discriminate; reflexivity. }
  assert (Hcl : forall i, In i USB_INTERFACES -> usb_only (claim_interface env i) = true)
    by (intros i Hi; apply (Hifs i Hi)).
  rewrite (bind_step _ _ _ _ _ (claim_loop env USB_INTERFACES s1 Hcl)).
  rewrite (bind_step _ _ _ _ _ (initialize_result env _ H1 H2 H3)).
  reflexivity.
Qed.

Lemma close_release_error (env : UsbEnv) (s : Driver) :
  device s <> None ->
  existsb (fun i => negb (usb_only (release_interface env i))) (claimed_interfaces s) = true ->
  fst (close env s) = s /\ exists e, snd (close env s) = Fail e.
Proof.
  intros Hd Hrel. rewrite existsb_exists in Hrel.
  assert (Hrel' : exists i, In i (claimed_interfaces s) /\ usb_only (release_interface env i) = false)
    by (destruct Hrel as (i & Hi & Hn); exists i; split; [exact Hi|]; apply negb_true_iff, Hn).
  clear Hrel. rename Hrel' into Hrel. unfold close. destruct (device s) as [d|]; [|congruence].
  rewrite (bind_step _ _ s s tt) by (unfold try_any, call; destruct (ctrl_transfer env 0 2) as [[]|]; reflexivity).
  rewrite (bind_step _ _ s s tt) by (unfold try_any, call; destruct (ctrl_transfer env 0 1) as [[]|]; reflexivity).
  destruct (release_loop_fail env (claimed_interfaces s) s Hrel) as (e & He).
  rewrite (bind_fail _ _ _ _ _ He). split; [reflexivity|]. exists e. reflexivity.
Qed.

End USBLifecycleFacts.

Module USBLifecycleExtras.
Import USBDriver USBLifecycle USBLifecycleFacts.

(** [open] without a device handle raises [RuntimeError] when
    [usb.core.find] finds no camera, and changes nothing. *)
Theorem open_not_found (env : UsbEnv) (s : Driver) :
  device s = None -> find env = None -> open env s = (s, Fail RuntimeError).
Proof.
  intros Hd Hf. unfold open. rewrite Hd. unfold find_device, bind, modify, ret, raise.
  rewrite Hf. cbn. unfold set_device. rewrite <- Hd, driver_eta. reflexivity.
Qed.

(** When every USB call fails at most with a [USBError], [open] returns
    [True]. It keeps or stores the found device, appends the interfaces
    whose claim succeeded, and marks the driver initialised iff the three
    control transfers succeeded. *)
Theorem open_returns_true (env : UsbEnv) (s : Driver) :
  open_calls_usb_only env = true ->
  device s <> None \/ find env <> None ->
  open env s
  = ({| device := match device s with Some d => Some d | None => find env end;
        claimed_interfaces := claimed_interfaces s
          ++ filter (fun i => succeeded (claim_interface env i)) USB_INTERFACES;
        initialized := initialized s || init_ok env |}, Ok true).
Proof. apply open_result. Qed.

(** When no interface release raises anything but a [USBError], [close]
    returns normally. It resets the driver to a fresh one when a device was
    open, and does nothing otherwise. The errors of its two control
    transfers are always swallowed. *)
Theorem close_resets (env : UsbEnv) (s : Driver) :
  forallb (fun i => usb_only (release_interface env i)) (claimed_interfaces s) = true ->
  close env s = (if device_open s then new_driver else s, Ok tt).
Proof.
  intros Hrel. rewrite forallb_forall in Hrel. unfold close, device_open. destruct (device s) as [d|]; [|reflexivity].
  rewrite (bind_step _ _ s s tt) by (unfold try_any, call; destruct (ctrl_transfer env 0 2) as [[]|]; reflexivity).
  rewrite (bind_step _ _ s s tt) by (unfold try_any, call; destruct (ctrl_transfer env 0 1) as [[]|]; reflexivity).
  rewrite (bind_step _ _ s s tt) by (apply release_loop_ok; exact Hrel).
  reflexivity.
Qed.

(** When releasing an interface raises an error other than [USBError],
    [close] propagates it and leaves the driver as it was, device handle
    included. *)
Theorem close_release_error_keeps_device (env : UsbEnv) (s : Driver) :
  device s <> None ->
  existsb (fun i => negb (usb_only (release_interface env i))) (claimed_interfaces s) = true ->
  fst (close env s) = s /\ exists e, snd (close env s) = Fail e.
Proof. apply close_release_error. Qed.

(** After a [close] that returned normally, [read] returns [None] without
    touching the device. *)
Theorem read_after_close (env : UsbEnv) (s : Driver) (outcome : UsbReadOutcome) :
  snd (close env s) = Ok tt ->
  read (device_open (fst (close env s))) outcome = Return None.
Proof.
  intros Hok. assert (Hd : device (fst (close env s)) = None).
  { unfold close in *. destruct (device s) as [d|] eqn:Ed; [|exact Ed].
    revert Hok. unfold bind, try_any, call, modify.
    destruct (ctrl_transfer env 0 2); destruct (ctrl_transfer env 0 1); cbn;
    destruct (for_each (claimed_interfaces s) _ s) as [s' [[]|ex]]; cbn;
    first [reflexivity | discriminate]. }
  unfold device_open. rewrite Hd. reflexivity.
Qed.

(** A host without the camera, and a camera whose calls partly fail. *)
Definition absent_env : UsbEnv :=
  {| find := None; is_kernel_driver_active := fun _ => Ok false;
     detach_kernel_driver := fun _ => Ok tt; set_configuration := fun _ => Ok tt;
     claim_interface := fun _ => Ok tt; ctrl_transfer := fun _ _ => Ok tt;
     release_interface := fun _ => Ok tt |}.

Definition flaky_env : UsbEnv :=
  {| find := Some 7;
     is_kernel_driver_active := fun i => if i =? 0 then Ok true else Fail USBError;
     detach_kernel_driver := fun _ => Ok tt;
     set_configuration := fun _ => Fail USBError;
     claim_interface := fun i => if i =? 1 then Fail USBError else Ok tt;
     ctrl_transfer := fun v _ => if v =? 1 then Fail USBError else Ok tt;
     release_interface := fun i => if i =? 2 then Fail OtherError else Ok tt |}.

Definition open_driver (claimed : list Z) : Driver :=
  {| device := Some 7; claimed_interfaces := claimed; initialized := true |}.

Lemma open_not_found_witness : open absent_env new_driver = (new_driver, Fail RuntimeError).
Proof. apply open_not_found; reflexivity. Defined.

Lemma open_returns_true_witness :
  open flaky_env new_driver
  = ({| device := match device new_driver with Some d => Some d | None => find flaky_env end;
        claimed_interfaces := claimed_interfaces new_driver
          ++ filter (fun i => succeeded (claim_interface flaky_env i)) USB_INTERFACES;
        initialized := initialized new_driver || init_ok flaky_env |}, Ok true).
Proof. apply open_returns_true; [reflexivity | right; discriminate]. Defined.

Lemma close_resets_witness :
  close flaky_env (open_driver [0; 1])
  = (if device_open (open_driver [0; 1]) then new_driver else open_driver [0; 1], Ok tt).
Proof. apply close_resets; reflexivity. Defined.

Lemma close_release_error_keeps_device_witness :
  fst (close flaky_env (open_driver [0; 2])) = open_driver [0; 2] /\
  exists e, snd (close flaky_env (open_driver [0; 2])) = Fail e.
Proof. apply close_release_error_keeps_device; [discriminate | reflexivity]. Defined.

Lemma read_after_close_witness :
  read (device_open (fst (close flaky_env (open_driver [0; 1])))) (ReadData [x01]) = Return None.
Proof. apply read_after_close. reflexivity. Defined.

End USBLifecycleExtras.

Module CameraSession.
Import FrameParser USBDriver USBLifecycle Camera.

(** [FLIRCamera]: [_connected], [usb] and [parser] (the palette and the
    lock take no part in what is modelled). *)
Record CamState := {
  connected : bool;
  usb : Driver;
  parser : FrameParser
}.

(** [FLIRCamera.__init__]. *)
Definition new_camera : CamState :=
  {| connected := false; usb := new_driver; parser := init DEFAULT_BUFFER_SIZE |}.

(** [connect]: [except Exception] catches whatever [usb.open()] raises. *)
Definition connect (env : UsbEnv) (cs : CamState) : CamState * bool :=
  if connected cs then (cs, true) else
  match open env (usb cs) with
  | (u, Ok _) => ({| connected := true; usb := u; parser := FrameParser.reset (parser cs) |}, true)
  | (u, Fail _) => ({| connected := false; usb := u; parser := parser cs |}, false)
  end.

(** [disconnect]: an exception of [usb.close()] propagates before
    [_connected] is cleared. *)
Definition disconnect (env : UsbEnv) (cs : CamState) : CamState * Outcome unit :=
  if negb (connected cs) then (cs, Ok tt) else
  match close env (usb cs) with
  | (u, Ok _) => ({| connected := false; usb := u; parser := parser cs |}, Ok tt)
  | (u, Fail e) => ({| connected := true; usb := u; parser := parser cs |}, Fail e)
  end.

(** The [while] loop of [read]: one [usb.read] outcome per iteration
    started before the deadline. *)
Fixpoint read_loop (dev_open : bool) (p : FrameParser) (outs : list UsbReadOutcome)
  : FrameParser * PyResult (option ParsedFrame) :=
  match outs with
  | [] => (p, Return None)
  | o :: t =>
      match USBDriver.read dev_open o with
      | Raise e => (p, Raise e)
      | Return None => read_loop dev_open p t
      | Return (Some data) =>
          match add_chunk p data with
          | (p1, Some f) => (p1, Return (Some f))
          | (p1, None) => read_loop dev_open p1 t
          end
      end
  end.

(** [read(timeout)]. *)
Definition cam_read (conv : Z -> R) (cs : CamState) (outs : list UsbReadOutcome)
  : CamState * PyResult (option FLIRFrame) :=
  if negb (connected cs) then (cs, Return None) else
  let '(p, r) := read_loop (device_open (usb cs)) (parser cs) outs in
  ({| connected := connected cs; usb := usb cs; parser := p |},
   match r with
   | Return (Some f) => Return (Some (make_frame conv f))
   | Return None => Return None
   | Raise e => Raise e
   end).

(** The chunks [usb.read] hands to the parser, up to the first call
    that raises. *)
Fixpoint received (dev_open : bool) (outs : list UsbReadOutcome) : list (list byte) :=
  match outs with
  | [] => []
  | o :: t =>
      match USBDriver.read dev_open o with
      | Raise _ => []
      | Return (Some d) => d :: received dev_open t
      | Return None => received dev_open t
      end
  end.

(** The exception of the first [usb.read] call that raises, if any. *)
Fixpoint raised (dev_open : bool) (outs : list UsbReadOutcome) : option String.string :=
  match outs with
  | [] => None
  | o :: t =>
      match USBDriver.read dev_open o with
      | Raise e => Some e
      | Return _ => raised dev_open t
      end
  end.

End CameraSession.

Module CameraSessionFacts.
Import FrameParser ParserInvariant ParserStream2 USBDriver USBLifecycle USBLifecycleFacts Camera CameraSession.

Lemma read_loop_first (dev_open : bool) (outs : list UsbReadOutcome) : forall p,
  snd (read_loop dev_open p outs)
  = match hd_error (snd (feed p (received dev_open outs))) with
    | Some f => Return (Some f)
    | None => match raised dev_open outs with Some e => Raise e | None => Return None end
    end.
Proof.
  induction outs as [|o t IH]; intros p; [reflexivity|].
  cbn [read_loop received raised].
  destruct (USBDriver.read dev_open o) as [[d|]|e]; [|apply IH|reflexivity].
  rewrite feed_cons. destruct (add_chunk p d) as [p1 [f|]]; cbn [fst snd].
  - reflexivity.
  - apply IH.
Qed.

Lemma camera_eta (cs : CamState) :
  {| connected := connected cs; usb := usb cs; parser := parser cs |} = cs.
Proof. destruct cs; reflexivity. Qed.

Lemma cam_read_first (conv : Z -> R) (cs : CamState) (outs : list UsbReadOutcome) :
  connected cs = true ->
  snd (cam_read conv cs outs)
  = match hd_error (snd (feed (parser cs) (received (device_open (usb cs)) outs))) with
    | Some f => Return (Some (make_frame conv f))
    | None =>
        match raised (device_open (usb cs)) outs with
        | Some e => Raise e
        | None => Return None
        end
    end.
Proof.
  intros Hc. unfold cam_read. rewrite Hc. cbn [negb].
  pose proof (read_loop_first (device_open (usb cs)) outs (parser cs)) as H.
  destruct (read_loop (device_open (usb cs)) (parser cs) outs) as [p r].
  cbn [snd] in H |- *. subst r.
  destruct (hd_error _); [reflexivity|].
  destruct (raised _ _); reflexivity.
Qed.

Lemma disconnect_release_error_aux (env : UsbEnv) (cs : CamState) :
  connected cs = true -> device (usb cs) <> None ->
  existsb (fun i => negb (usb_only (release_interface env i))) (claimed_interfaces (usb cs)) = true ->
  connected (fst (disconnect env cs)) = true /\ usb (fst (disconnect env cs)) = usb cs /\
  exists e, snd (disconnect env cs) = Fail e.
Proof.
  intros Hc Hd Hrel. unfold disconnect. rewrite Hc. cbn [negb].
  destruct (close_release_error env (usb cs) Hd Hrel) as (Hu & e & He).
  destruct (close env (usb cs)) as [u r]. cbn [fst snd] in Hu, He. subst u r.
  cbn. split; [reflexivity|]. split; [reflexivity|]. exists e. reflexivity.
Qed.

End CameraSessionFacts.

Module CameraSessionExtras.
Import FrameParser ParserInvariant ParserStream2 USBDriver USBLifecycle USBLifecycleFacts
  Camera CameraSession CameraSessionFacts.

(** On a connected camera, [read] returns the first frame that the parser
    completes from the bytes received before the deadline and before any
    exception of [usb.read], turned into an [FLIRFrame]. When no frame
    completes, it raises the first exception that [usb.read] propagated,
    and returns [None] when there was none. *)
Theorem cam_read_first_frame (conv : Z -> R) (cs : CamState) (outs : list UsbReadOutcome) :
  connected cs = true ->
  snd (cam_read conv cs outs)
  = match hd_error (snd (feed (parser cs) (received (device_open (usb cs)) outs))) with
    | Some f => Return (Some (make_frame conv f))
    | None =>
        match raised (device_open (usb cs)) outs with
        | Some e => Raise e
        | None => Return None
        end
    end.
Proof. apply cam_read_first. Qed.

(** [connect] on a disconnected camera with no device handle and no device
    on the bus returns [False] and changes nothing. *)
Theorem connect_absent (env : UsbEnv) (cs : CamState) :
  connected cs = false -> device (usb cs) = None -> find env = None ->
  connect env cs = (cs, false).
Proof.
  intros Hc Hd Hf. unfold connect. rewrite Hc.
  unfold open. rewrite Hd. unfold find_device, bind, modify, ret, raise. rewrite Hf. cbn.
  unfold set_device. rewrite <- Hd, driver_eta, <- Hc, camera_eta. reflexivity.
Qed.

(** [connect] followed by [read], when the bytes received carry exactly
    one encoded frame: [connect] returns [True], and [read] returns that
    frame. *)
Theorem connect_then_read_frame (env : UsbEnv) (conv : Z -> R) (cs : CamState)
    (fs : Z) (th jp st : list byte) (outs : list UsbReadOutcome) :
  connected cs = false ->
  open_calls_usb_only env = true ->
  device (usb cs) <> None \/ find env <> None ->
  fs = zlen th + zlen jp + zlen st -> 4 <= fs -> fs < 2 ^ 32 ->
  HEADER_SIZE + fs < buffer_size (parser cs) ->
  concat (received true outs) = encode_frame fs th jp st ->
  snd (connect env cs) = true /\ connected (fst (connect env cs)) = true /\
  snd (cam_read conv (fst (connect env cs)) outs)
  = Return (Some (make_frame conv (expected_frame fs th jp st))).
Proof.
  intros Hc Hall Hdev Hfs H4 Hmax Hcap Hrec.
  unfold connect. rewrite Hc. rewrite (open_result env (usb cs) Hall Hdev).
  cbn [fst snd]. split; [reflexivity|]. split; [reflexivity|].
  rewrite cam_read_first by reflexivity. cbn [parser usb].
  replace (device_open _) with true.
  2:{ unfold device_open. cbn [device].
      destruct (device (usb cs)) as [d|]; [reflexivity|].
      destruct (find env) as [d|]; [reflexivity|tauto]. }
  destruct (feed_frame_chunks (FrameParser.reset (parser cs)) fs th jp st (received true outs))
    as [Hf _]; try assumption; [reflexivity|].
  rewrite Hf. reflexivity.
Qed.

(** When [close] raises because an interface release failed with an error
    other than [USBError], [disconnect] propagates the error. The camera
    then stays marked connected, with its driver unchanged. *)
Theorem disconnect_release_error (env : UsbEnv) (cs : CamState) :
  connected cs = true -> device (usb cs) <> None ->
  existsb (fun i => negb (usb_only (release_interface env i))) (claimed_interfaces (usb cs)) = true ->
  connected (fst (disconnect env cs)) = true /\ usb (fst (disconnect env cs)) = usb cs /\
  exists e, snd (disconnect env cs) = Fail e.
Proof. apply disconnect_release_error_aux. Qed.

(** A frame split over two bulk reads, with a timeout and an I/O error
    in between. *)
Definition cam_frame : list byte := encode_frame 4 [x01; x02] [xff] [x03].
Definition cam_reads : list UsbReadOutcome :=
  [RaiseUSBTimeoutError; ReadData (firstn 10 cam_frame); RaiseUSBError (Some 5);
   ReadData (skipn 10 cam_frame)].
Definition cam_connected : CamState :=
  {| connected := true; usb := USBLifecycleExtras.open_driver [0; 2]; parser := init 64 |}.
Definition cam_fresh : CamState :=
  {| connected := false; usb := new_driver; parser := init 64 |}.

Module ExcNames.
Import String.
Definition ValueError : string := "ValueError"%string.
End ExcNames.

(** The first half of that frame, then an exception of the backend. *)
Definition cam_reads_err : list UsbReadOutcome :=
  [ReadData (firstn 10 cam_frame); RaiseOtherError ExcNames.ValueError;
   ReadData (skipn 10 cam_frame)].

Lemma cam_read_first_frame_witness :
  snd (cam_read (fun _ => 0%R) cam_connected cam_reads_err)
  = match hd_error (snd (feed (parser cam_connected)
                     (received (device_open (usb cam_connected)) cam_reads_err))) with
    | Some f => Return (Some (make_frame (fun _ => 0%R) f))
    | None =>
        match raised (device_open (usb cam_connected)) cam_reads_err with
        | Some e => Raise e
        | None => Return None
        end
    end.
Proof. apply cam_read_first_frame. reflexivity. Defined.

Lemma connect_absent_witness :
  connect USBLifecycleExtras.absent_env new_camera = (new_camera, false).
Proof. apply connect_absent; reflexivity. Defined.

Lemma connect_then_read_frame_witness :
  snd (connect USBLifecycleExtras.flaky_env cam_fresh) = true /\
  connected (fst (connect USBLifecycleExtras.flaky_env cam_fresh)) = true /\
  snd (cam_read (fun _ => 0%R) (fst (connect USBLifecycleExtras.flaky_env cam_fresh)) cam_reads)
  = Return (Some (make_frame (fun _ => 0%R) (expected_frame 4 [x01; x02] [xff] [x03]))).
Proof.
  apply connect_then_read_frame;
    [reflexivity | reflexivity | right; discriminate | reflexivity | lia | lia
    | vm_compute; reflexivity | reflexivity].
Defined.

Lemma disconnect_release_error_witness :
  connected (fst (disconnect USBLifecycleExtras.flaky_env cam_connected)) = true /\
  usb (fst (disconnect USBLifecycleExtras.flaky_env cam_connected)) = usb cam_connected /\
  exists e, snd (disconnect USBLifecycleExtras.flaky_env cam_connected) = Fail e.
Proof. apply disconnect_release_error; [reflexivity | discriminate | reflexivity]. Defined.

End CameraSessionExtras.

Module WebViewer.
Local Open Scope R_scope.

(** A Python [float]: finite, infinite or NaN. *)
Inductive PyFloat := Fin (r : R) | PInf | NInf | NaN.

(** [a < b] on floats; every comparison with NaN is false. *)
Definition py_lt (a b : PyFloat) : bool :=
  match a, b with
  | NaN, _ | _, NaN => false
  | Fin x, Fin y => if Rlt_dec x y then true else false
  | NInf, NInf => false
  | NInf, _ => true
  | _, NInf => false
  | PInf, _ => false
  | _, PInf => true
  end.

(** Builtins [min(a, b)] and [max(a, b)]: the first argument is kept
    unless the second compares strictly smaller (resp. greater). *)
Definition py_min (a b : PyFloat) : PyFloat := if py_lt b a then b else a.
Definition py_max (a b : PyFloat) : PyFloat := if py_lt a b then b else a.

(** [set_params]: [parsed] is [float(request.args.get('emissivity',
    EMISSIVITY))], [None] when [float] raises [ValueError]; the result is
    the new [EMISSIVITY] and whether the reply is ["ok"]. *)
Definition set_params (parsed : option PyFloat) (EMISSIVITY : PyFloat) : PyFloat * bool :=
  match parsed with
  | Some e => (py_max (Fin 0.1) (py_min (Fin 1.0) e), true)
  | None => (EMISSIVITY, false)
  end.

Local Open Scope Z_scope.

(** [add_spot]: [parsed] is [(int(float(x)), int(float(y)))], [None] when
    either conversion raises (the bare [except] turns it into a 400). *)
Definition add_spot (parsed : option (Z * Z)) (MEASUREMENT_POINTS : list (Z * Z))
  : list (Z * Z) * bool :=
  match parsed with
  | Some pt =>
      let pts := if 5 <=? Z.of_nat (length MEASUREMENT_POINTS)
                 then tl MEASUREMENT_POINTS else MEASUREMENT_POINTS in
      (pts ++ [pt], true)
  | None => (MEASUREMENT_POINTS, false)
  end.

(** [clear_spots]. *)
Definition clear_spots (MEASUREMENT_POINTS : list (Z * Z)) : list (Z * Z) := [].

Definition THERMAL_WIDTH : Z := 80.
Definition THERMAL_HEIGHT : Z := 60.

(** The pixel read for a measurement point [(mx, my)] in
    [apply_colormap_16bit]: [int(mx / (640 / 80))] is [mx] divided by 8
    rounded toward zero ([mx] comes from [int(float(...))], so
    [float(mx) / 8.0] is exact), then clamped to the frame. *)
Definition measurement_pixel (mx my : Z) : Z * Z :=
  let tx := Z.quot mx 8 in
  let ty := Z.quot my 8 in
  let tx := Z.max 0 (Z.min (THERMAL_WIDTH - 1) tx) in
  let ty := Z.max 0 (Z.min (THERMAL_HEIGHT - 1) ty) in
  (tx, ty).

(** The last [n] elements of a list. *)
Definition lastn {A} (n : nat) (l : list A) : list A := skipn (length l - n) l.

End WebViewer.

Module WebViewerExtras.
Import WebViewer.
Local Open Scope R_scope.

Definition valid_emissivity (e : PyFloat) : Prop :=
  match e with Fin r => 0.1 <= r <= 1.0 | _ => False end.

(** [/api/set_params] keeps [EMISSIVITY] a finite float in [0.1, 1.0] for
    every request, including [nan] and [inf]. A value in range is stored
    unchanged, and [nan] becomes 1.0. *)
Theorem set_params_clamps (parsed : option PyFloat) (cur : PyFloat) :
  valid_emissivity cur ->
  valid_emissivity (fst (set_params parsed cur)) /\
  (forall r, parsed = Some (Fin r) -> 0.1 <= r <= 1.0 -> fst (set_params parsed cur) = Fin r) /\
  (parsed = Some NaN -> fst (set_params parsed cur) = Fin 1.0).
Proof.
  intros Hcur. split; [|split].
  - destruct parsed as [e|]; [|exact Hcur]. cbn [set_params fst].
    destruct e as [r| | |]; unfold py_min, py_max, py_lt; cbn.
    + destruct (Rlt_dec r 1.0) as [H1|H1]; cbn.
      * destruct (Rlt_dec 0.1 r) as [H2|H2]; cbn; lra.
      * destruct (Rlt_dec 0.1 1.0) as [H2|H2]; cbn; lra.
    + destruct (Rlt_dec 0.1 1.0) as [H2|H2]; cbn; lra.
    + lra.
    + destruct (Rlt_dec 0.1 1.0) as [H2|H2]; cbn; lra.
  - intros r -> Hr. cbn [set_params fst]. unfold py_min, py_max, py_lt.
    destruct (Rlt_dec r 1.0) as [H1|H1].
    + destruct (Rlt_dec 0.1 r) as [H2|H2]; [reflexivity|].
      replace r with 0.1 by lra. reflexivity.
    + replace r with 1.0 by lra. destruct (Rlt_dec 0.1 1.0); [reflexivity|lra].
  - intros ->. cbn. unfold py_max, py_lt. destruct (Rlt_dec 0.1 1.0); [reflexivity|lra].
Qed.

Local Open Scope Z_scope.

(** [/api/add_spot] keeps the five most recent points: once five are
    stored, the oldest is dropped before the new one is appended. A request
    whose coordinates do not parse changes nothing. *)
Theorem add_spot_keeps_last_five (parsed : option (Z * Z)) (pts : list (Z * Z)) :
  (length pts <= 5)%nat ->
  fst (add_spot parsed pts)
  = match parsed with Some pt => lastn 5 (pts ++ [pt]) | None => pts end /\
  (length (fst (add_spot parsed pts)) <= 5)%nat.
Proof.
  intros Hl. destruct parsed as [pt|]; [|split; [reflexivity|exact Hl]].
  cbn [add_spot fst]. unfold lastn. rewrite length_app. cbn [length].
  destruct (Nat.eq_dec (length pts) 5) as [H5|H5].
  - replace (5 <=? Z.of_nat (length pts)) with true by (symmetry; apply Z.leb_le; lia).
    rewrite H5. replace (5 + 1 - 5)%nat with 1%nat by lia.
    destruct pts as [|p t]; [discriminate|]. cbn [tl skipn app].
    split; [reflexivity|]. rewrite length_app. cbn [length] in *. lia.
  - replace (5 <=? Z.of_nat (length pts)) with false by (symmetry; apply Z.leb_gt; lia).
    replace (length pts + 1 - 5)%nat with 0%nat by lia. cbn [skipn].
    split; [reflexivity|]. rewrite length_app. cbn [length]. lia.
Qed.

(** Every measurement point, even one outside the 640 x 480 view, is read
    from a pixel inside the 80 x 60 frame. A point inside the view reads
    the 8 x 8 cell it lies in. *)
Theorem measurement_pixel_in_frame (mx my : Z) :
  let '(tx, ty) := measurement_pixel mx my in
  0 <= tx < THERMAL_WIDTH /\ 0 <= ty < THERMAL_HEIGHT /\
  (0 <= mx < 640 -> tx = mx / 8) /\ (0 <= my < 480 -> ty = my / 8).
Proof.
  unfold measurement_pixel, THERMAL_WIDTH, THERMAL_HEIGHT. cbv zeta.
  split; [lia|]. split; [lia|]. split.
  - intros Hm. rewrite Z.quot_div_nonneg by lia.
    assert (0 <= mx / 8 < 80) by (split; [apply Z.div_pos | apply Z.div_lt_upper_bound]; lia). lia.
  - intros Hm. rewrite Z.quot_div_nonneg by lia.
    assert (0 <= my / 8 < 60) by (split; [apply Z.div_pos | apply Z.div_lt_upper_bound]; lia). lia.
Qed.

End WebViewerExtras.

Module Colormap.
Local Open Scope R_scope.

(** [f] over a list, failing as soon as one element fails. *)
Fixpoint omap {A B} (f : A -> option B) (l : list A) : option (list B) :=
  match l with
  | [] => Some []
  | x :: t =>
      match f x, omap f t with
      | Some y, Some ys => Some (y :: ys)
      | _, _ => None
      end
  end.

(** [arr.min()] and [arr.max()]; [None] is the [ValueError] of an empty
    array. *)
Definition zmin_all (xs : list Z) : option Z :=
  match xs with [] => None | x :: t => Some (fold_left Z.min t x) end.
Definition zmax_all (xs : list Z) : option Z :=
  match xs with [] => None | x :: t => Some (fold_left Z.max t x) end.

(** Conversion of a float to an integer, rounding toward zero. *)
Definition trunc (x : R) : Z :=
  if Rle_dec 0 x then Int_part x else (- Int_part (- x))%Z.

(** [.astype(np.uint8)] of one float: defined when the truncated value
    fits in 0..255; [None] stands for the unspecified C conversion of an
    out-of-range value. *)
Definition astype_uint8 (x : R) : option Z :=
  if Rlt_dec (-1) x then if Rlt_dec x 256 then Some (trunc x) else None else None.

(** [np.clip(x, 0, 255)]. *)
Definition clip (x : R) : R := Rmin (Rmax x 0) 255.

Section Float32.

(** Rounding of a real to the nearest float32. *)
Variable rnd : R -> R.

(** One pixel of [normalize_thermal]:
    [(float32(x) - min_val) / range_val * 255] in float32 arithmetic. *)
Definition thermal_scaled (mn range_val x : Z) : R :=
  rnd (rnd (rnd (rnd (IZR x) - rnd (IZR mn)) / rnd (IZR range_val)) * rnd 255).

(** [normalize_thermal(thermal_raw, min_val, max_val)]. *)
Definition normalize_thermal (thermal_raw : list (list Z)) (min_val max_val : option Z)
  : option (list (list Z)) :=
  match (match min_val with Some m => Some m | None => zmin_all (concat thermal_raw) end) with
  | None => None
  | Some mn =>
      match (match max_val with Some m => Some m | None => zmax_all (concat thermal_raw) end) with
      | None => None
      | Some mx =>
          let range_val := Z.max 1 (mx - mn) in
          omap (omap (fun x => astype_uint8 (clip (thermal_scaled mn range_val x)))) thermal_raw
      end
  end.

(** One pixel of the viewers' normalisation:
    [(float32(x) - min_val) * 255 / (max_val - min_val)] in float32. *)
Definition scaled_16bit (mn mx x : Z) : R :=
  rnd (rnd (rnd (rnd (IZR x) - rnd (IZR mn)) * rnd 255) / rnd (IZR (mx - mn))).

(** The normalisation of [apply_colormap_16bit] in [examples/web_viewer.py]
    (and of the main loop of [examples/simple_viewer.py]):
    [min_val], [max_val] from the frame, zeros when they are equal. *)
Definition normalize_16bit (gray : list (list Z)) : option (list (list Z)) :=
  match zmin_all (concat gray), zmax_all (concat gray) with
  | Some mn, Some mx =>
      if (mx >? mn)%Z
      then omap (omap (fun x => astype_uint8 (scaled_16bit mn mx x))) gray
      else Some (map (map (fun _ => 0%Z)) gray)
  | _, _ => None
  end.

End Float32.

(** [palette[i]] with Python's negative indices; [None] is an
    [IndexError]. *)
Definition py_index {A} (l : list A) (i : Z) : option A :=
  if (0 <=? i)%Z && (i <? zlen l)%Z then nth_error l (Z.to_nat i)
  else if (- zlen l <=? i)%Z && (i <? 0)%Z then nth_error l (Z.to_nat (zlen l + i))
  else None.

(** [apply_colormap(thermal_8bit, palette)]: [palette[thermal_8bit]], then
    the last axis reversed (RGB to BGR).  The palette is a 2-D table given
    by its rows. *)
Definition apply_colormap (thermal_8bit : list (list Z)) (palette : list (list Z))
  : option (list (list (list Z))) :=
  omap (omap (fun v => option_map (@rev Z) (py_index palette v))) thermal_8bit.

End Colormap.

Module ColormapFacts.
Import Colormap.
Local Open Scope R_scope.

Lemma Int_part_IZR (z : Z) : Int_part (IZR z) = z.
Proof.
  unfold Int_part. rewrite <- (tech_up (IZR z) (z + 1)).
  - lia.
  - rewrite plus_IZR. lra.
  - rewrite plus_IZR. lra.
Qed.

Lemma Int_part_le (x y : R) : x <= y -> (Int_part x <= Int_part y)%Z.
Proof.
  intros H. destruct (base_Int_part x) as (Hx1 & Hx2). destruct (base_Int_part y) as (Hy1 & Hy2).
  assert (IZR (Int_part x) < IZR (Int_part y + 1)) by (rewrite plus_IZR; lra).
  apply lt_IZR in H0. lia.
Qed.

Lemma trunc_nonneg (x : R) : 0 <= x -> trunc x = Int_part x.
Proof. intros H. unfold trunc. destruct (Rle_dec 0 x); [reflexivity | lra]. Qed.

Lemma trunc_IZR (z : Z) : (0 <= z)%Z -> trunc (IZR z) = z.
Proof. intros H. rewrite trunc_nonneg by (apply IZR_le; exact H). apply Int_part_IZR. Qed.

Lemma trunc_range (x : R) : 0 <= x <= 255 -> (0 <= trunc x <= 255)%Z.
Proof.
  intros H. rewrite trunc_nonneg by lra.
  pose proof (Int_part_le 0 x ltac:(lra)). pose proof (Int_part_le x 255 ltac:(lra)).
  rewrite Int_part_IZR in *. lia.
Qed.

Lemma trunc_mono (x y : R) : 0 <= x -> x <= y -> (trunc x <= trunc y)%Z.
Proof. intros H0 H. rewrite !trunc_nonneg by lra. apply Int_part_le, H. Qed.

(** A conversion to uint8 that is defined gives 0..255. *)
Lemma astype_uint8_range (x : R) (v : Z) : astype_uint8 x = Some v -> (0 <= v <= 255)%Z.
Proof.
  unfold astype_uint8, trunc. intros H.
  destruct (Rlt_dec (-1) x); [|discriminate]. destruct (Rlt_dec x 256); [|discriminate].
  injection H as <-. destruct (Rle_dec 0 x).
  - pose proof (Int_part_le 0 x ltac:(lra)). destruct (base_Int_part x) as (H1 & _).
    rewrite Int_part_IZR in *.
    assert (IZR (Int_part x) < IZR 256) by lra. apply lt_IZR in H0. lia.
  - pose proof (Int_part_le 0 (- x) ltac:(lra)). destruct (base_Int_part (- x)) as (H1 & _).
    rewrite Int_part_IZR in *.
    assert (IZR (Int_part (- x)) < IZR 1) by lra. apply lt_IZR in H0. lia.
Qed.

Lemma astype_uint8_in (x : R) : 0 <= x <= 255 -> astype_uint8 x = Some (trunc x).
Proof.
  intros H. unfold astype_uint8.
  destruct (Rlt_dec (-1) x); [|lra]. destruct (Rlt_dec x 256); [reflexivity|lra].
Qed.

Lemma clip_range (x : R) : 0 <= clip x <= 255.
Proof. unfold clip, Rmin, Rmax. repeat destruct Rle_dec; lra. Qed.

Lemma clip_mono (x y : R) : x <= y -> clip x <= clip y.
Proof. intros H. unfold clip, Rmin, Rmax. repeat destruct Rle_dec; lra. Qed.

Lemma clip_id (x : R) : 0 <= x <= 255 -> clip x = x.
Proof. intros H. unfold clip, Rmin, Rmax. repeat destruct Rle_dec; lra. Qed.

Lemma omap_some {A B} (f : A -> option B) (g : A -> B) (l : list A) :
  (forall x, In x l -> f x = Some (g x)) -> omap f l = Some (map g l).
Proof.
  induction l as [|x t IH]; intros H; [reflexivity|].
  cbn. rewrite (H x (or_introl eq_refl)), IH; [reflexivity|].
  intros y Hy. apply H. right. exact Hy.
Qed.

Lemma omap_nested {A B} (f : A -> option B) (g : A -> B) (m : list (list A)) :
  (forall x, In x (concat m) -> f x = Some (g x)) ->
  omap (omap f) m = Some (map (map g) m).
Proof.
  intros H. apply omap_some. intros row Hr. apply omap_some.
  intros x Hx. apply H. apply in_concat. exists row. split; assumption.
Qed.

Lemma omap_forall {A B} (f : A -> option B) (P : B -> Prop) (l : list A) (ys : list B) :
  (forall x y, f x = Some y -> P y) -> omap f l = Some ys -> Forall P ys.
Proof.
  intros Hf. revert ys. induction l as [|x t IH]; intros ys H.
  - injection H as <-. constructor.
  - cbn in H. destruct (f x) as [y|] eqn:E1; [|discriminate].
    destruct (omap f t) as [ys'|]; [|discriminate].
    injection H as <-. constructor; [apply (Hf x y E1) | apply IH; reflexivity].
Qed.

Lemma omap_nil_iff {A B} (f : A -> option B) (l : list A) :
  omap f l = None <-> exists x, In x l /\ f x = None.
Proof.
  induction l as [|x t IH]; cbn.
  - split; [discriminate | intros (y & [] & _)].
  - destruct (f x) as [y|] eqn:E.
    + destruct (omap f t) eqn:E2.
      * split; [discriminate|]. intros (z & [<-|Hz] & Hn); [congruence|].
        assert (Some l = None) by (apply IH; exists z; split; assumption). discriminate.
      * split; [|reflexivity]. intros _. destruct (proj1 IH eq_refl) as (z & Hz & Hn).
        exists z. split; [right; exact Hz | exact Hn].
    + split; [|reflexivity]. intros _. exists x. split; [left; reflexivity | exact E].
Qed.

Lemma fold_min_spec (t : list Z) : forall h,
  In (fold_left Z.min t h) (h :: t) /\ forall x, In x (h :: t) -> (fold_left Z.min t h <= x)%Z.
Proof.
  induction t as [|y t IH]; intros h; cbn [fold_left].
  - split; [left; reflexivity|]. intros x [<-|[]]. lia.
  - destruct (IH (Z.min h y)) as (Hin & Hle).
    set (m := fold_left Z.min t (Z.min h y)) in *. split.
    + destruct Hin as [Hm|Hin]; [|right; right; exact Hin].
      rewrite <- Hm. destruct (Z.min_spec h y) as [(_ & E)|(_ & E)]; rewrite E;
        [left | right; left]; reflexivity.
    + intros x [<-|[<-|Hx]].
      * pose proof (Hle (Z.min h y) (or_introl eq_refl)). lia.
      * pose proof (Hle (Z.min h y) (or_introl eq_refl)). lia.
      * apply Hle. right. exact Hx.
Qed.

Lemma fold_max_spec (t : list Z) : forall h,
  In (fold_left Z.max t h) (h :: t) /\ forall x, In x (h :: t) -> (x <= fold_left Z.max t h)%Z.
Proof.
  induction t as [|y t IH]; intros h; cbn [fold_left].
  - split; [left; reflexivity|]. intros x [<-|[]]. lia.
  - destruct (IH (Z.max h y)) as (Hin & Hle).
    set (m := fold_left Z.max t (Z.max h y)) in *. split.
    + destruct Hin as [Hm|Hin]; [|right; right; exact Hin].
      rewrite <- Hm. destruct (Z.max_spec h y) as [(_ & E)|(_ & E)]; rewrite E;
        [right; left | left]; reflexivity.
    + intros x [<-|[<-|Hx]].
      * pose proof (Hle (Z.max h y) (or_introl eq_refl)). lia.
      * pose proof (Hle (Z.max h y) (or_introl eq_refl)). lia.
      * apply Hle. right. exact Hx.
Qed.

Lemma zmin_all_eq (xs : list Z) (m : Z) :
  In m xs -> (forall x, In x xs -> (m <= x)%Z) -> zmin_all xs = Some m.
Proof.
  intros Hin Hle. destruct xs as [|h t]; [destruct Hin|].
  cbn. destruct (fold_min_spec t h) as (Hf & Hfl). f_equal.
  pose proof (Hle _ Hf). pose proof (Hfl m Hin). lia.
Qed.

Lemma zmax_all_eq (xs : list Z) (m : Z) :
  In m xs -> (forall x, In x xs -> (x <= m)%Z) -> zmax_all xs = Some m.
Proof.
  intros Hin Hle. destruct xs as [|h t]; [destruct Hin|].
  cbn. destruct (fold_max_spec t h) as (Hf & Hfl). f_equal.
  pose proof (Hle _ Hf). pose proof (Hfl m Hin). lia.
Qed.

Section Float32.
Variable rnd : R -> R.
Hypothesis rnd_mono : forall x y, x <= y -> rnd x <= rnd y.
Hypothesis rnd_int : forall z, (Z.abs z <= 2 ^ 24)%Z -> rnd (IZR z) = IZR z.

Lemma rnd_int' (z : Z) : (Z.abs z <= 2 ^ 24)%Z -> rnd (IZR z) = IZR z.
Proof. apply rnd_int. Qed.

Lemma rnd_255 : rnd 255 = 255.
Proof. apply (rnd_int 255). lia. Qed.

(** In the viewers' normalisation every pixel between the frame's minimum
    and maximum is computed exactly up to the final division. *)
Lemma scaled_16bit_exact (mn mx x : Z) :
  (0 <= mn)%Z -> (mn <= x <= mx)%Z -> (mx <= 65535)%Z ->
  scaled_16bit rnd mn mx x = rnd (IZR ((x - mn) * 255) / IZR (mx - mn)).
Proof.
  intros H0 Hx H1. unfold scaled_16bit.
  rewrite (rnd_int' x), (rnd_int' mn), rnd_255 by lia.
  rewrite <- minus_IZR, (rnd_int' (x - mn)) by lia.
  rewrite <- (mult_IZR (x - mn) 255), (rnd_int' ((x - mn) * 255)) by lia.
  rewrite (rnd_int' (mx - mn)) by lia. reflexivity.
Qed.

Lemma scaled_16bit_range (mn mx x : Z) :
  (0 <= mn)%Z -> (mn <= x <= mx)%Z -> (mx <= 65535)%Z -> (mn < mx)%Z ->
  0 <= scaled_16bit rnd mn mx x <= 255.
Proof.
  intros H0 Hx H1 Hlt. rewrite scaled_16bit_exact by lia.
  assert (Hd : 0 < IZR (mx - mn)) by (apply IZR_lt; lia).
  assert (Hq0 : 0 <= IZR ((x - mn) * 255) / IZR (mx - mn)).
  { unfold Rdiv. apply Rmult_le_pos; [apply IZR_le; lia | left; apply Rinv_0_lt_compat, Hd]. }
  assert (Hq1 : IZR ((x - mn) * 255) / IZR (mx - mn) <= 255).
  { apply Rmult_le_reg_r with (IZR (mx - mn)); [exact Hd|].
    unfold Rdiv. rewrite Rmult_assoc, Rinv_l, Rmult_1_r by lra.
    rewrite <- (mult_IZR 255). apply IZR_le. lia. }
  split.
  - rewrite <- (rnd_int 0) by lia. apply rnd_mono. exact Hq0.
  - rewrite <- rnd_255. apply rnd_mono. exact Hq1.
Qed.

Lemma scaled_16bit_mono (mn mx x y : Z) :
  (0 <= mn)%Z -> (mn <= x)%Z -> (x <= y)%Z -> (y <= mx)%Z -> (mx <= 65535)%Z -> (mn < mx)%Z ->
  scaled_16bit rnd mn mx x <= scaled_16bit rnd mn mx y.
Proof.
  intros H0 Hx Hxy Hy H1 Hlt. rewrite !scaled_16bit_exact by lia.
  apply rnd_mono. assert (Hd : 0 < IZR (mx - mn)) by (apply IZR_lt; lia).
  unfold Rdiv. apply Rmult_le_compat_r; [left; apply Rinv_0_lt_compat, Hd|].
  apply IZR_le. lia.
Qed.

Lemma scaled_16bit_min (mn mx : Z) :
  (0 <= mn)%Z -> (mn <= mx)%Z -> (mx <= 65535)%Z -> (mn < mx)%Z ->
  scaled_16bit rnd mn mx mn = 0.
Proof.
  intros H0 Hx H1 Hlt. rewrite scaled_16bit_exact by lia.
  replace ((mn - mn) * 255)%Z with 0%Z by lia. unfold Rdiv. rewrite Rmult_0_l.
  apply (rnd_int 0). lia.
Qed.

Lemma scaled_16bit_max (mn mx : Z) :
  (0 <= mn)%Z -> (mx <= 65535)%Z -> (mn < mx)%Z ->
  scaled_16bit rnd mn mx mx = 255.
Proof.
  intros H0 H1 Hlt. rewrite scaled_16bit_exact by lia.
  assert (Hd : 0 < IZR (mx - mn)) by (apply IZR_lt; lia).
  rewrite mult_IZR. unfold Rdiv. rewrite Rmult_comm, <- Rmult_assoc, Rinv_l, Rmult_1_l by lra.
  exact rnd_255.
Qed.

Lemma thermal_scaled_exact (mn mx x : Z) :
  (0 <= mn)%Z -> (mn <= x <= mx)%Z -> (mx <= 65535)%Z ->
  thermal_scaled rnd mn (Z.max 1 (mx - mn)) x
  = rnd (rnd (IZR (x - mn) / IZR (Z.max 1 (mx - mn))) * 255).
Proof.
  intros H0 Hx H1. unfold thermal_scaled.
  rewrite (rnd_int' x), (rnd_int' mn), rnd_255 by lia.
  rewrite <- minus_IZR, (rnd_int' (x - mn)) by lia.
  rewrite (rnd_int' (Z.max 1 (mx - mn))) by lia. reflexivity.
Qed.

Lemma thermal_scaled_mono (mn r x y : Z) :
  (0 < r)%Z -> (Z.abs r <= 2 ^ 24)%Z -> (x <= y)%Z ->
  thermal_scaled rnd mn r x <= thermal_scaled rnd mn r y.
Proof.
  intros Hr Hra Hxy. unfold thermal_scaled. rewrite (rnd_int' r) by exact Hra.
  apply rnd_mono. apply Rmult_le_compat_r; [rewrite rnd_255; lra|].
  apply rnd_mono. unfold Rdiv. apply Rmult_le_compat_r.
  - left. apply Rinv_0_lt_compat, IZR_lt, Hr.
  - apply rnd_mono. apply Rplus_le_compat_r. apply rnd_mono, IZR_le, Hxy.
Qed.

End Float32.

End ColormapFacts.

Module PaletteFiles.
Import FrameParser Colormap String.
Local Open Scope string_scope.

(** What a path names on the file system: nothing, a readable file and
    its bytes, a directory, or a file that exists but that [open] or
    [read] cannot read (no read permission, an I/O error: a
    [PermissionError] or another [OSError]). *)
Inductive FsEntry :=
| Missing
| RegularFile (contents : list byte)
| Directory
| Unreadable.

(** [os.path.exists]. *)
Definition path_exists (e : FsEntry) : bool :=
  match e with Missing => false | _ => true end.

(** [os.path.join(a, b)] (posixpath). *)
Definition py_join (a b : string) : string :=
  if String.prefix "/" b then b
  else if String.eqb a "" || String.eqb (substring (String.length a - 1) 1 a) "/"
  then a ++ b
  else a ++ "/" ++ b.

(** [np.array([[i, i, i] for i in range(256)], dtype=np.uint8)]. *)
Definition grayscale : list (list Z) :=
  List.map (fun i => [i; i; i]) (List.map Z.of_nat (List.seq 0 256)).

(** The bytes read from a palette file, as a table. *)
Definition read_palette (data : list byte) : list (list Z) :=
  if (zlen data <? 768)%Z then grayscale
  else reshape 256 3 (List.map bval (ztake 768 data)).

(** The three paths [load_palette] tries, in order. *)
Definition palette_candidates (PALETTE_DIR name : string) : list string :=
  [py_join PALETTE_DIR (name ++ ".raw"); py_join PALETTE_DIR name; name].

(** [load_palette(name)] with [PALETTE_DIR] as an argument; [None] is the
    exception of [open] or [read]: [IsADirectoryError] on a directory,
    [PermissionError] or another [OSError] on an unreadable file. *)
Definition load_palette (fs : string -> FsEntry) (PALETTE_DIR name : string)
  : option (list (list Z)) :=
  let palette_path := py_join PALETTE_DIR (name ++ ".raw") in
  let found :=
    if path_exists (fs palette_path) then Some palette_path
    else List.find (fun alt => path_exists (fs alt)) [py_join PALETTE_DIR name; name] in
  match found with
  | None => Some grayscale
  | Some path =>
      match fs path with
      | RegularFile data => Some (read_palette data)
      | _ => None
      end
  end.

(** [get_default_palette()]: the cache [_default_palette] in, the new cache
    and the result out ([None] when [load_palette] raises). *)
Definition get_default_palette (fs : string -> FsEntry) (PALETTE_DIR : string)
  (cache : option (list (list Z))) : option (list (list Z)) * option (list (list Z)) :=
  match cache with
  | Some p => (cache, Some p)
  | None => let r := load_palette fs PALETTE_DIR "Iron2" in (r, r)
  end.

End PaletteFiles.

Module PaletteFacts.
Import FrameParser SliceFacts CameraFacts Colormap ColormapFacts PaletteFiles ParserInvariant.

(** A colour table as [load_palette] returns it: 256 rows of 3 bytes. *)
Definition palette_table (pal : list (list Z)) : Prop :=
  length pal = 256%nat /\
  Forall (fun row => length row = 3%nat /\ Forall (fun v => 0 <= v <= 255) row) pal.

Lemma reshape_in (rows cols : nat) : forall xs row v,
  In row (reshape rows cols xs) -> In v row -> In v xs.
Proof.
  induction rows as [|r IH]; intros xs row v Hr Hv; cbn [reshape] in Hr; [destruct Hr|].
  rewrite <- (firstn_skipn cols xs). apply in_or_app.
  destruct Hr as [<-|Hr]; [left; exact Hv | right; eapply IH; eassumption].
Qed.

Lemma grayscale_table : palette_table grayscale.
Proof.
  split; [reflexivity|]. apply Forall_forall. intros row Hr.
  unfold grayscale in Hr. apply in_map_iff in Hr as (i & <- & Hi).
  apply in_map_iff in Hi as (n & <- & Hn). apply in_seq in Hn.
  split; [reflexivity|]. repeat constructor; lia.
Qed.

Lemma read_palette_table (data : list byte) : palette_table (read_palette data).
Proof.
  unfold read_palette. destruct (zlen data <? 768) eqn:E; [apply grayscale_table|].
  apply Z.ltb_ge in E.
  assert (Hl : length (List.map bval (ztake 768 data)) = (256 * 3)%nat).
  { rewrite length_map, length_ztake by lia. unfold zlen in E. lia. }
  destruct (reshape_shape 256 3 _ Hl) as (H1 & H2). split; [exact H1|].
  apply Forall_forall. intros row Hr. split; [exact (proj1 (Forall_forall _ _) H2 row Hr)|].
  apply Forall_forall. intros v Hv. pose proof (reshape_in _ _ _ _ _ Hr Hv) as Hin.
  apply in_map_iff in Hin as (b & <- & _). apply bval_range.
Qed.

Lemma load_palette_cases (fs : String.string -> FsEntry) (dir name : String.string) :
  match load_palette fs dir name with
  | Some pal => palette_table pal
  | None =>
      exists path, find (fun p => path_exists (fs p)) (palette_candidates dir name) = Some path /\
                   (fs path = Directory \/ fs path = Unreadable)
  end.
Proof.
  unfold load_palette, palette_candidates. cbv zeta.
  match goal with |- context [if path_exists (fs ?p) then _ else _] => set (p0 := p) end.
  change (if path_exists (fs p0) then Some p0
          else find (fun alt => path_exists (fs alt)) [py_join dir name; name])
    with (find (fun p => path_exists (fs p)) [p0; py_join dir name; name]).
  destruct (find (fun p => path_exists (fs p)) [p0; py_join dir name; name]) as [path|] eqn:Ef;
    [|apply grayscale_table].
  pose proof (find_some _ _ Ef) as (_ & Hex).
  destruct (fs path) eqn:E; try discriminate.
  - apply read_palette_table.
  - exists path. split; [reflexivity | left; exact E].
  - exists path. split; [reflexivity | right; exact E].
Qed.

Lemma py_index_in {A} (l : list A) (i : Z) (d : A) :
  0 <= i < zlen l -> py_index l i = Some (nth (Z.to_nat i) l d).
Proof.
  intros H. unfold py_index. replace ((0 <=? i) && (i <? zlen l)) with true
    by (symmetry; apply andb_true_intro; split; [apply Z.leb_le | apply Z.ltb_lt]; lia).
  apply nth_error_nth'. unfold zlen in H. lia.
Qed.

Lemma py_index_none {A} (l : list A) (i : Z) :
  py_index l i = None <-> (i < - zlen l \/ zlen l <= i).
Proof.
  unfold py_index. pose proof (zlen_nonneg l).
  destruct ((0 <=? i) && (i <? zlen l)) eqn:E1.
  - apply andb_true_iff in E1 as (E1 & E2). apply Z.leb_le in E1. apply Z.ltb_lt in E2.
    split; [|lia]. intros Hn. apply nth_error_None in Hn. unfold zlen in *. lia.
  - destruct ((- zlen l <=? i) && (i <? 0)) eqn:E2.
    + apply andb_true_iff in E2 as (E3 & E4). apply Z.leb_le in E3. apply Z.ltb_lt in E4.
      split; [|lia]. intros Hn. apply nth_error_None in Hn. unfold zlen in *. lia.
    + split; [intros _|reflexivity].
      apply andb_false_iff in E1. apply andb_false_iff in E2.
      destruct E1 as [E1|E1]; [apply Z.leb_gt in E1 | apply Z.ltb_ge in E1];
      destruct E2 as [E2|E2]; try apply Z.leb_gt in E2; try apply Z.ltb_ge in E2; lia.
Qed.

Lemma omap_nested_none {A B} (f : A -> option B) (m : list (list A)) :
  omap (omap f) m = None <-> exists x, In x (concat m) /\ f x = None.
Proof.
  rewrite omap_nil_iff. split.
  - intros (row & Hr & Hn). apply omap_nil_iff in Hn as (x & Hx & Hf).
    exists x. split; [apply in_concat; exists row; split; assumption | exact Hf].
  - intros (x & Hx & Hf). apply in_concat in Hx as (row & Hr & Hx).
    exists row. split; [exact Hr|]. apply omap_nil_iff. exists x. split; assumption.
Qed.

Lemma omap_nested_forall {A B} (f : A -> option B) (P : B -> Prop) (m : list (list A)) n :
  (forall x y, f x = Some y -> P y) -> omap (omap f) m = Some n -> forall y, In y (concat n) -> P y.
Proof.
  intros Hf H. apply (omap_forall _ (Forall P)) in H.
  - intros y Hy. apply in_concat in Hy as (row & Hr & Hy).
    exact (proj1 (Forall_forall _ _) (proj1 (Forall_forall _ _) H row Hr) y Hy).
  - intros row ys Hr. apply (omap_forall f P row ys Hf Hr).
Qed.

(** Every pixel of an image the normalisations return is in 0..255. *)
Lemma normalize_thermal_bytes (rnd : R -> R) img mnv mxv n :
  normalize_thermal rnd img mnv mxv = Some n -> forall v, In v (concat n) -> 0 <= v <= 255.
Proof.
  unfold normalize_thermal. intros H.
  destruct (match mnv with Some m => Some m | None => _ end) as [mn|]; [|discriminate].
  destruct (match mxv with Some m => Some m | None => _ end) as [mx|]; [|discriminate].
  eapply omap_nested_forall; [|exact H]. intros x y. apply astype_uint8_range.
Qed.

Lemma normalize_16bit_bytes (rnd : R -> R) img n :
  normalize_16bit rnd img = Some n -> forall v, In v (concat n) -> 0 <= v <= 255.
Proof.
  unfold normalize_16bit. intros H.
  destruct (zmin_all (concat img)) as [mn|]; [|discriminate].
  destruct (zmax_all (concat img)) as [mx|]; [|discriminate].
  destruct (mx >? mn).
  - eapply omap_nested_forall; [|exact H]. intros x y. apply astype_uint8_range.
  - injection H as <-. intros v Hv. apply in_concat in Hv as (row & Hr & Hv).
    apply in_map_iff in Hr as (row0 & <- & _). apply in_map_iff in Hv as (x & <- & _). lia.
Qed.

End PaletteFacts.

Module ColormapExtras.
Import FrameParser SliceFacts Colormap ColormapFacts PaletteFiles PaletteFacts.

Lemma apply_colormap_in (img pal : list (list Z)) :
  (forall v, In v (concat img) -> 0 <= v < zlen pal) ->
  apply_colormap img pal = Some (map (map (fun v => rev (nth (Z.to_nat v) pal []))) img).
Proof.
  intros H. unfold apply_colormap. apply omap_nested. intros v Hv.
  rewrite (py_index_in pal v []) by (apply H; exact Hv). reflexivity.
Qed.

(** [apply_colormap] looks every pixel up in the palette rows and reverses
    the row (RGB to BGR); it raises exactly when a pixel is outside the
    indices Python accepts, negative ones counting from the end. *)
Theorem apply_colormap_lookup (img pal : list (list Z)) :
  ((forall v, In v (concat img) -> 0 <= v < zlen pal) ->
   apply_colormap img pal = Some (map (map (fun v => rev (nth (Z.to_nat v) pal []))) img)) /\
  (apply_colormap img pal = None <->
   exists v, In v (concat img) /\ (v < - zlen pal \/ zlen pal <= v)).
Proof.
  split; [apply apply_colormap_in|].
  unfold apply_colormap. rewrite omap_nested_none.
  split; intros (v & Hv & Hn); exists v; (split; [exact Hv|]).
  - destruct (py_index pal v) eqn:E; [discriminate|]. apply py_index_none, E.
  - apply py_index_none in Hn. rewrite Hn. reflexivity.
Qed.


(** The colour image of [_make_frame] and of the viewers: for a palette
    [load_palette] returned and an 8-bit image either normalisation
    returned, the lookup never raises and every output pixel is a BGR
    triple of bytes. *)
Theorem colorize_never_fails (rnd : R -> R) (fs : String.string -> FsEntry)
  (dir name : String.string) (pal img : list (list Z)) (mnv mxv : option Z) (n : list (list Z)) :
  load_palette fs dir name = Some pal ->
  (normalize_thermal rnd img mnv mxv = Some n \/ normalize_16bit rnd img = Some n) ->
  apply_colormap n pal = Some (map (map (fun v => rev (nth (Z.to_nat v) pal []))) n) /\
  (forall px, In px (concat (map (map (fun v => rev (nth (Z.to_nat v) pal []))) n)) ->
   length px = 3%nat /\ Forall (fun c => 0 <= c <= 255) px).
Proof.
  intros Hp Hn. pose proof (load_palette_cases fs dir name) as Ht. rewrite Hp in Ht.
  destruct Ht as (Hl & Hrows).
  assert (Hb : forall v, In v (concat n) -> 0 <= v <= 255).
  { destruct Hn as [Hn|Hn]; [eapply normalize_thermal_bytes | eapply normalize_16bit_bytes]; exact Hn. }
  split.
  - apply apply_colormap_in. intros v Hv. apply Hb in Hv. unfold zlen. rewrite Hl. lia.
  - intros px Hpx. apply in_concat in Hpx as (row & Hr & Hpx).
    apply in_map_iff in Hr as (row0 & <- & Hr0). apply in_map_iff in Hpx as (v & <- & Hv).
    assert (Hv' : In v (concat n)) by (apply in_concat; exists row0; split; assumption).
    apply Hb in Hv'.
    assert (Hin : In (nth (Z.to_nat v) pal []) pal) by (apply nth_In; lia).
    destruct (proj1 (Forall_forall _ _) Hrows _ Hin) as (H3 & Hf).
    split; [rewrite length_rev; exact H3 | apply Forall_rev, Hf].
Qed.

Section Rounding.
Variable rnd : R -> R.
Hypothesis rnd_mono : forall x y, (x <= y)%R -> (rnd x <= rnd y)%R.
Hypothesis rnd_int : forall z, Z.abs z <= 2 ^ 24 -> rnd (IZR z) = IZR z.

(** The viewers' normalisation of a 16-bit frame maps every pixel through
    one function of its value: the frame's minimum to 0, its maximum to
    255 (a flat frame to all zeros), order kept, and never outside 0..255,
    so the cast to uint8 never sees an out-of-range value. *)
Theorem normalize_16bit_scales (img : list (list Z)) (mn mx : Z) :
  In mn (concat img) -> In mx (concat img) ->
  (forall x, In x (concat img) -> mn <= x <= mx) -> 0 <= mn -> mx <= 65535 ->
  exists f, normalize_16bit rnd img = Some (map (map f) img) /\
    f mn = 0 /\ (mn < mx -> f mx = 255) /\
    (forall x y, mn <= x -> x <= y -> y <= mx -> f x <= f y) /\
    (forall x, mn <= x <= mx -> 0 <= f x <= 255).
Proof.
  intros Hmn Hmx Hb H0 H1.
  assert (Hle : mn <= mx) by (apply Hb in Hmx; lia).
  unfold normalize_16bit.
  rewrite (zmin_all_eq _ mn Hmn (fun x Hx => proj1 (Hb x Hx))).
  rewrite (zmax_all_eq _ mx Hmx (fun x Hx => proj2 (Hb x Hx))).
  destruct (mx >? mn) eqn:E.
  - apply Z.gtb_lt in E. exists (fun x => trunc (scaled_16bit rnd mn mx x)). split; [|split; [|split; [|split]]].
    + apply omap_nested. intros x Hx. apply Hb in Hx.
      apply astype_uint8_in, scaled_16bit_range; first [assumption | lia].
    + rewrite scaled_16bit_min by first [assumption | lia]. apply (trunc_IZR 0). lia.
    + intros _. rewrite scaled_16bit_max by first [assumption | lia]. apply (trunc_IZR 255). lia.
    + intros x y Hx Hxy Hy. apply trunc_mono.
      * apply (scaled_16bit_range rnd rnd_mono rnd_int mn mx x); lia.
      * apply scaled_16bit_mono; first [assumption | lia].
    + intros x Hx. apply trunc_range, scaled_16bit_range; first [assumption | lia].
  - rewrite Z.gtb_ltb in E. apply Z.ltb_ge in E. exists (fun _ => 0). split; [reflexivity|].
    split; [reflexivity|]. split; [lia|]. split; intros; lia.
Qed.

(** [normalize_thermal] with the automatic bounds maps every pixel through
    one function of its value: the minimum to 0, the maximum to 255, order
    kept, clipped to 0..255. *)
Theorem normalize_thermal_auto (img : list (list Z)) (mn mx : Z) :
  In mn (concat img) -> In mx (concat img) ->
  (forall x, In x (concat img) -> mn <= x <= mx) -> 0 <= mn -> mx <= 65535 ->
  exists f, normalize_thermal rnd img None None = Some (map (map f) img) /\
    f mn = 0 /\ (mn < mx -> f mx = 255) /\
    (forall x y, x <= y -> f x <= f y) /\ (forall x, 0 <= f x <= 255).
Proof.
  intros Hmn Hmx Hb H0 H1.
  assert (Hle : mn <= mx) by (apply Hb in Hmx; lia).
  unfold normalize_thermal.
  rewrite (zmin_all_eq _ mn Hmn (fun x Hx => proj1 (Hb x Hx))).
  rewrite (zmax_all_eq _ mx Hmx (fun x Hx => proj2 (Hb x Hx))). cbv zeta.
  set (r := Z.max 1 (mx - mn)).
  assert (Hr : 0 < r /\ Z.abs r <= 2 ^ 24) by (unfold r; lia).
  exists (fun x => trunc (clip (thermal_scaled rnd mn r x))). split; [|split; [|split; [|split]]].
  - apply omap_nested. intros x _. apply astype_uint8_in, clip_range.
  - unfold r. rewrite thermal_scaled_exact by first [assumption | lia].
    rewrite Z.sub_diag. unfold Rdiv. rewrite Rmult_0_l, (rnd_int 0), Rmult_0_l, (rnd_int 0) by lia.
    rewrite clip_id by lra. apply (trunc_IZR 0). lia.
  - intros Hlt. unfold r. rewrite thermal_scaled_exact by first [assumption | lia].
    replace (Z.max 1 (mx - mn)) with (mx - mn) by lia.
    assert (Hd : IZR (mx - mn) <> 0%R) by (apply not_0_IZR; lia).
    unfold Rdiv. rewrite Rinv_r by exact Hd. rewrite (rnd_int 1) by lia.
    rewrite Rmult_1_l, (rnd_int 255) by lia.
    rewrite clip_id by lra. apply (trunc_IZR 255). lia.
  - intros x y Hxy. apply trunc_mono; [apply clip_range|].
    apply clip_mono, thermal_scaled_mono; first [assumption | lia].
  - intros x. apply trunc_range, clip_range.
Qed.

End Rounding.

End ColormapExtras.

Module PaletteCache.
Import Colormap PaletteFiles String.
Local Open Scope string_scope.

(** Once [get_default_palette] has returned a palette, every later call
    returns that palette again from the cache, whatever the palette files
    have become; the first call returns [load_palette("Iron2")]. *)
Theorem get_default_palette_cached (fs1 fs2 : string -> FsEntry) (dir : string)
  (cache : option (list (list Z))) (pal : list (list Z)) :
  snd (get_default_palette fs1 dir cache) = Some pal ->
  get_default_palette fs2 dir (fst (get_default_palette fs1 dir cache)) = (Some pal, Some pal) /\
  (cache = None -> load_palette fs1 dir "Iron2" = Some pal).
Proof.
  destruct cache as [p|]; cbn [get_default_palette fst snd]; intros H.
  - injection H as <-. split; [reflexivity | discriminate].
  - rewrite H. split; reflexivity.
Qed.

End PaletteCache.

Module ThermalConfig.
Import String.
Local Open Scope string_scope.

Section Dict.

(** The JSON values a configuration file may hold. *)
Variable V : Type.

(** A Python dict with string keys, in insertion order. *)
Definition dict := list (string * V).

(** [d[k] = v]. *)
Fixpoint dict_set (d : dict) (k : string) (v : V) : dict :=
  match d with
  | [] => [(k, v)]
  | (k', v') :: t => if String.eqb k k' then (k, v) :: t else (k', v') :: dict_set t k v
  end.

(** [d.get(k)]. *)
Fixpoint dict_get (d : dict) (k : string) : option V :=
  match d with
  | [] => None
  | (k', v') :: t => if String.eqb k k' then Some v' else dict_get t k
  end.

(** [d.update(items)] on the items of what [json.load] returned: a JSON
    object gives its (key, value) pairs; a JSON array is iterated, each
    element a pair ([Some]) or not ([None], where [update] raises after
    the pairs before it are stored). *)
Fixpoint dict_update (d : dict) (items : list (option (string * V))) : option dict * dict :=
  match items with
  | [] => (Some d, d)
  | Some (k, v) :: t => dict_update (dict_set d k v) t
  | None :: _ => (None, d)
  end.

(** What one of the two candidate paths of [ThermalContext.__init__]
    holds. *)
Inductive ConfigFile :=
  | NoFile                                        (* os.path.exists is false *)
  | BadFile                                       (* open or json.load raises *)
  | JsonData (items : list (option (string * V))).

(** The loop of [ThermalContext.__init__] over [paths]: the config and
    [loaded]. *)
Fixpoint load_config (config : dict) (files : list ConfigFile) : dict * bool :=
  match files with
  | [] => (config, false)
  | NoFile :: t => load_config config t
  | BadFile :: t => load_config config t
  | JsonData items :: t =>
      match dict_update config items with
      | (Some d, _) => (d, true)
      | (None, d) => load_config d t
      end
  end.

(** The last value of [k] among the pairs. *)
Fixpoint last_value (kvs : list (string * V)) (k : string) : option V :=
  match kvs with
  | [] => None
  | (k', v) :: t =>
      match last_value t k with
      | Some w => Some w
      | None => if String.eqb k k' then Some v else None
      end
  end.

Lemma dict_get_set (d : dict) (k k' : string) (v : V) :
  dict_get (dict_set d k v) k' = if String.eqb k' k then Some v else dict_get d k'.
Proof.
  induction d as [|(k0, v0) t IH]; cbn.
  - reflexivity.
  - destruct (String.eqb k k0) eqn:E.
    + apply String.eqb_eq in E. subst k0. cbn. destruct (String.eqb k' k); reflexivity.
    + cbn. rewrite IH. destruct (String.eqb k' k0) eqn:E1, (String.eqb k' k) eqn:E2; try reflexivity.
      apply String.eqb_eq in E1, E2. subst. rewrite String.eqb_refl in E. discriminate.
Qed.

Lemma dict_update_prefix (kvs : list (string * V)) : forall d tail,
  exists d', dict_update d (map Some kvs ++ tail) = dict_update d' tail /\
  forall k, dict_get d' k = match last_value kvs k with Some v => Some v | None => dict_get d k end.
Proof.
  induction kvs as [|(k0, v0) t IH]; intros d tail; cbn.
  - exists d. split; reflexivity.
  - destruct (IH (dict_set d k0 v0) tail) as (d' & Hu & Hg). exists d'. split; [exact Hu|].
    intros k. rewrite Hg, dict_get_set. destruct (last_value t k); [reflexivity|].
    destruct (String.eqb k k0); reflexivity.
Qed.

Lemma load_config_skip (config : dict) (skipped rest : list ConfigFile) :
  Forall (fun f => f = NoFile \/ f = BadFile) skipped ->
  load_config config (skipped ++ rest) = load_config config rest.
Proof.
  induction 1 as [|f t [-> | ->] _ IH]; cbn; [reflexivity | exact IH | exact IH].
Qed.

End Dict.

Arguments NoFile {V}.
Arguments BadFile {V}.
Arguments JsonData {V} items.

End ThermalConfig.

Module ThermalConfigExtras.
Import ThermalConfig String.
Local Open Scope string_scope.

(** [ThermalContext.__init__] skips missing and unreadable paths, stops at
    the first one whose JSON object loads, and sets [loaded]; each key then
    has the file's (last) value, or its default when the file lacks it.
    When no path loads, the defaults stay and [loaded] is false. *)
Theorem load_config_first_loaded (V : Type) (defaults : dict V) (skipped rest : list (ConfigFile V))
  (kvs : list (string * V)) (k : string) :
  Forall (fun f => f = NoFile \/ f = BadFile) skipped ->
  load_config V defaults skipped = (defaults, false) /\
  snd (load_config V defaults (skipped ++ JsonData (map Some kvs) :: rest)) = true /\
  dict_get V (fst (load_config V defaults (skipped ++ JsonData (map Some kvs) :: rest))) k
  = match last_value V kvs k with Some v => Some v | None => dict_get V defaults k end.
Proof.
  intros Hs. split.
  - rewrite <- (app_nil_r skipped), load_config_skip by exact Hs. reflexivity.
  - rewrite load_config_skip by exact Hs. cbn [load_config].
    destruct (dict_update_prefix V kvs defaults []) as (d' & Hu & Hg).
    rewrite app_nil_r in Hu. rewrite Hu. cbn. split; [reflexivity | apply Hg].
Qed.

(** A file holding a JSON array whose element after some (key, value)
    pairs is not a pair makes [update] raise: the error is reported and the
    next path is tried, but the pairs before the bad element stay in the
    config. *)
Theorem load_config_partial_update (V : Type) (defaults : dict V) (kvs : list (string * V))
  (tail : list (option (string * V))) (rest : list (ConfigFile V)) :
  exists d, load_config V defaults (JsonData (map Some kvs ++ None :: tail) :: rest)
            = load_config V d rest /\
  forall k, dict_get V d k = match last_value V kvs k with Some v => Some v | None => dict_get V defaults k end.
Proof.
  destruct (dict_update_prefix V kvs defaults (None :: tail)) as (d' & Hu & Hg).
  exists d'. split; [|exact Hg]. cbn [load_config]. rewrite Hu. reflexivity.
Qed.

End ThermalConfigExtras.

Module WebViewerWitnesses.
Import WebViewer WebViewerExtras.
Local Open Scope R_scope.

Lemma set_params_clamps_witness :
  valid_emissivity (fst (set_params (Some PInf) (Fin 0.95))) /\
  (forall r, Some PInf = Some (Fin r) -> 0.1 <= r <= 1.0 -> fst (set_params (Some PInf) (Fin 0.95)) = Fin r) /\
  (Some PInf = Some NaN -> fst (set_params (Some PInf) (Fin 0.95)) = Fin 1.0).
Proof. apply set_params_clamps. cbn. lra. Defined.

Local Open Scope Z_scope.

Lemma add_spot_keeps_last_five_witness :
  fst (add_spot (Some ((600, 10) : Z * Z)%Z) ([(1, 1); (2, 2); (3, 3); (4, 4); (5, 5)] : list (Z * Z))%Z)
  = lastn 5 (([(1, 1); (2, 2); (3, 3); (4, 4); (5, 5)] : list (Z * Z))%Z ++ [((600, 10) : Z * Z)%Z]) /\
  (length (fst (add_spot (Some ((600, 10) : Z * Z)%Z) ([(1, 1); (2, 2); (3, 3); (4, 4); (5, 5)] : list (Z * Z))%Z)) <= 5)%nat.
Proof. apply (add_spot_keeps_last_five (Some ((600, 10) : Z * Z)%Z)). cbn. lia. Defined.

End WebViewerWitnesses.

Module ColormapWitnesses.
Import Colormap PaletteFiles PaletteFacts ColormapExtras.

Definition no_files : String.string -> FsEntry := fun _ => Missing.

Lemma colorize_never_fails_witness :
  apply_colormap [[0; 0]] grayscale
  = Some (map (map (fun v => rev (nth (Z.to_nat v) grayscale []))) [[0; 0]]) /\
  (forall px, In px (concat (map (map (fun v => rev (nth (Z.to_nat v) grayscale []))) [[0; 0]])) ->
   length px = 3%nat /\ Forall (fun c => 0 <= c <= 255) px).
Proof.
  apply (colorize_never_fails (fun x => x) no_files String.EmptyString String.EmptyString
           grayscale [[7; 7]] None None [[0; 0]]).
  - vm_compute. reflexivity.
  - right. vm_compute. reflexivity.
Defined.

Lemma normalize_16bit_scales_witness :
  exists f, normalize_16bit (fun x => x) [[3; 7]; [5; 3]] = Some (map (map f) [[3; 7]; [5; 3]]) /\
    f 3 = 0 /\ (3 < 7 -> f 7 = 255) /\
    (forall x y, 3 <= x -> x <= y -> y <= 7 -> f x <= f y) /\
    (forall x, 3 <= x <= 7 -> 0 <= f x <= 255).
Proof.
  apply (normalize_16bit_scales (fun x => x)).
  - intros x y H. exact H.
  - intros z _. reflexivity.
  - cbn. tauto.
  - cbn. tauto.
  - intros x Hx. cbn in Hx. lia.
  - lia.
  - lia.
Defined.

Lemma normalize_thermal_auto_witness :
  exists f, normalize_thermal (fun x => x) [[3; 7]; [5; 3]] None None
            = Some (map (map f) [[3; 7]; [5; 3]]) /\
    f 3 = 0 /\ (3 < 7 -> f 7 = 255) /\
    (forall x y, x <= y -> f x <= f y) /\ (forall x, 0 <= f x <= 255).
Proof.
  apply (normalize_thermal_auto (fun x => x)).
  - intros x y H. exact H.
  - intros z _. reflexivity.
  - cbn. tauto.
  - cbn. tauto.
  - intros x Hx. cbn in Hx. lia.
  - lia.
  - lia.
Defined.

End ColormapWitnesses.

Module ConfigWitnesses.
Import PaletteFiles PaletteCache ThermalConfig ThermalConfigExtras String.
Local Open Scope string_scope.

Lemma get_default_palette_cached_witness :
  get_default_palette (fun _ => Directory) "palettes"
    (fst (get_default_palette (fun _ => Missing) "palettes" None)) = (Some grayscale, Some grayscale) /\
  (@None (list (list Z)) = None -> load_palette (fun _ => Missing) "palettes" "Iron2" = Some grayscale).
Proof. apply get_default_palette_cached. vm_compute. reflexivity. Defined.

Definition lepton_defaults : dict Z := [("PlanckO", -7340%Z); ("PlanckB", 1506%Z)].

Lemma load_config_first_loaded_witness :
  load_config Z lepton_defaults [NoFile] = (lepton_defaults, false) /\
  snd (load_config Z lepton_defaults ([NoFile] ++ JsonData (map Some [("PlanckO", -7000%Z)]) :: [])) = true /\
  dict_get Z (fst (load_config Z lepton_defaults ([NoFile] ++ JsonData (map Some [("PlanckO", -7000%Z)]) :: [])))
    "PlanckB"
  = match last_value Z [("PlanckO", -7000%Z)] "PlanckB" with
    | Some v => Some v | None => dict_get Z lepton_defaults "PlanckB" end.
Proof. apply load_config_first_loaded. repeat constructor. Defined.

End ConfigWitnesses.

(* ------------------------------------------------------------------------- *)
(** ** Rational enclosures of [exp] at a chosen precision

    The construction of [ExpBounds], with the rounding step [1 / scale] a
    parameter, for enclosures tight enough to place a logarithm between
    two consecutive binary64 numbers. *)

Module ExpBoundsAt.
Local Open Scope Q_scope.

Section Scale.
Variable scale : positive.

(** Round down, resp. up, to a multiple of [1 / scale]. *)
Definition round_down (q : Q) : Q := (Qnum q * Zpos scale / Zpos (Qden q)) # scale.
Definition round_up (q : Q) : Q := - round_down (- q).

Lemma round_down_at_le (q : Q) : round_down q <= q.
Proof.
  unfold round_down, Qle; cbn [Qnum Qden].
  destruct q as [n d]; cbn [Qnum Qden].
  rewrite Z.mul_comm. apply Z.mul_div_le. lia.
Qed.

Lemma round_up_at_ge (q : Q) : q <= round_up q.
Proof.
  unfold round_up. pose proof (round_down_at_le (- q)).
  apply Qopp_le_compat in H. rewrite Qopp_involutive in H. exact H.
Qed.

(** [exp_lo k x <= exp x]: [1 + x / 2^k], squared [k] times. *)
Fixpoint exp_lo (k : nat) (x : Q) : Q :=
  match k with
  | O => 1 + x
  | S k' =>
      let m := exp_lo k' (x / 2) in
      let l := if Qle_bool m 0 then 0 else m in
      round_down (l * l)
  end.

(** [exp x <= exp_hi k x] for [x < 2^k]: [1 / (1 - x / 2^k)], squared [k] times. *)
Fixpoint exp_hi (k : nat) (x : Q) : Q :=
  match k with
  | O => 1 / (1 - x)
  | S k' => let u := exp_hi k' (x / 2) in round_up (u * u)
  end.

Local Open Scope R_scope.

Lemma exp_lo_at_le (k : nat) : forall x : Q, Q2R (exp_lo k x) <= exp (Q2R x).
Proof.
  induction k as [|k IH]; intro x; cbn [exp_lo].
  - rewrite Q2R_plus. replace (Q2R 1) with 1 by (unfold Q2R; cbn; field).
    apply exp_ineq1_le.
  - set (m := exp_lo k (x / 2)%Q).
    pose proof (IH (x / 2)%Q) as Hm. fold m in Hm. rewrite ExpBounds.Q2R_half in Hm.
    eapply Rle_trans; [apply Qle_Rle, round_down_at_le|].
    rewrite Q2R_mult, (ExpBounds.exp_double (Q2R x)).
    pose proof (exp_pos (Q2R x / 2)).
    destruct (Qle_bool m 0) eqn:E.
    + replace (Q2R 0) with 0 by (unfold Q2R; cbn; field).
      rewrite Rmult_0_l. apply Rlt_le, Rmult_lt_0_compat; assumption.
    + assert (0 <= Q2R m).
      { replace 0 with (Q2R 0) by (unfold Q2R; cbn; field). apply Qle_Rle.
        apply Qlt_le_weak, Qnot_le_lt. intro Hle. apply Qle_bool_iff in Hle. congruence. }
      apply Rmult_le_compat; assumption.
Qed.

Lemma exp_hi_at_ge (k : nat) : forall x : Q, Q2R x < 2 ^ k -> exp (Q2R x) <= Q2R (exp_hi k x).
Proof.
  induction k as [|k IH]; intros x Hx; cbn [exp_hi].
  - simpl pow in Hx.
    assert (Hq : ~ (1 - x == 0)%Q).
    { intro E. apply Qeq_eqR in E. rewrite Q2R_minus in E.
      replace (Q2R 1) with 1 in E by (unfold Q2R; cbn; field).
      replace (Q2R 0) with 0 in E by (unfold Q2R; cbn; field). lra. }
    rewrite Q2R_div by exact Hq. rewrite Q2R_minus.
    replace (Q2R 1) with 1 by (unfold Q2R; cbn; field).
    pose proof (exp_ineq1_le (- Q2R x)).
    replace (exp (Q2R x)) with (/ exp (- Q2R x))
      by (rewrite exp_Ropp, Rinv_inv; reflexivity).
    unfold Rdiv. rewrite Rmult_1_l.
    apply Rinv_le_contravar; lra.
  - set (u := exp_hi k (x / 2)%Q).
    assert (Hx2 : Q2R (x / 2)%Q < 2 ^ k)
      by (rewrite ExpBounds.Q2R_half; simpl pow in Hx; lra).
    pose proof (IH (x / 2)%Q Hx2) as Hu. fold u in Hu. rewrite ExpBounds.Q2R_half in Hu.
    eapply Rle_trans; [|apply Qle_Rle, round_up_at_ge].
    rewrite Q2R_mult, (ExpBounds.exp_double (Q2R x)).
    pose proof (exp_pos (Q2R x / 2)).
    apply Rmult_le_compat; lra.
Qed.

End Scale.

End ExpBoundsAt.

(* ------------------------------------------------------------------------- *)
(** ** [flir/thermal.py]: [ThermalContext.raw2temp] in NumPy floating point

    The model [Thermal.raw2temp] computes over the reals and so cannot
    tell a [float32] result from a [float64] one. Here the floats are
    IEEE 754 values ([SpecFloat.spec_float]) rounded to nearest even:
    binary32 for [np.float32], binary64 for a Python [float] and for
    [np.float64]. Mixed operations follow NumPy 2 (NEP 50): a Python [int]
    or [float] operand takes the dtype of the NumPy operand. [np.log] on
    each width is a parameter. *)

Module NumPyFloat.
Import SpecFloat.

Definition prec32 : Z := 24.
Definition emax32 : Z := 128.
Definition prec64 : Z := 53.
Definition emax64 : Z := 1024.

(** [+], [-], [/] on [float32] and on [float64]. *)
Definition add32 : spec_float -> spec_float -> spec_float := SFadd prec32 emax32.
Definition sub32 : spec_float -> spec_float -> spec_float := SFsub prec32 emax32.
Definition div32 : spec_float -> spec_float -> spec_float := SFdiv prec32 emax32.
Definition add64 : spec_float -> spec_float -> spec_float := SFadd prec64 emax64.
Definition sub64 : spec_float -> spec_float -> spec_float := SFsub prec64 emax64.
Definition div64 : spec_float -> spec_float -> spec_float := SFdiv prec64 emax64.

(** An integer as a [float32], resp. a [float64]. *)
Definition of_Z32 (n : Z) : spec_float := binary_normalize prec32 emax32 n 0 false.
Definition of_Z64 (n : Z) : spec_float := binary_normalize prec64 emax64 n 0 false.

(** A [float64] (or any float) cast to [float32]. *)
Definition round32 (x : spec_float) : spec_float :=
  match x with
  | S754_finite s m e => binary_round prec32 emax32 s m e
  | _ => x
  end.

(** The Python literal [n / d] written in decimal: the binary64 number
    nearest to the quotient. *)
Definition literal (n d : Z) : spec_float := div64 (of_Z64 n) (of_Z64 d).

(** Python's comparison of two floats of any widths: exact, and [None]
    when one of them is NaN. *)
Definition py_cmp (x y : spec_float) : option comparison :=
  match x, y with
  | S754_nan, _ | _, S754_nan => None
  | S754_finite sx mx ex, S754_finite sy my ey =>
      let k := Z.min ex ey in
      Some (Z.compare (cond_Zopp sx (Zpos mx * 2 ^ (ex - k)))
                      (cond_Zopp sy (Zpos my * 2 ^ (ey - k))))
  | _, _ => SFcompare x y
  end.

(** [x <= y] and [x == y]. *)
Definition py_le (x y : spec_float) : bool :=
  match py_cmp x y with Some (Lt | Eq) => true | _ => false end.
Definition py_eq (x y : spec_float) : bool :=
  match py_cmp x y with Some Eq => true | _ => false end.

(** The real number a finite float stands for (0 for the others). *)
Definition SF2R (x : spec_float) : R :=
  match x with
  | S754_finite s m e => (IZR (cond_Zopp s (Zpos m)) * powerRZ 2 e)%R
  | _ => 0%R
  end.

(** [0], [1.0] and [273.15]. *)
Definition zero : spec_float := S754_zero false.
Definition one64 : spec_float := of_Z64 1.
Definition K273 : spec_float := literal 27315 100.

(** A number of the scalar path: an [np.float32] (or a 0-d [float32]
    array), or a Python [float] (or an [np.float64]). *)
Inductive PyNum := F32 (x : spec_float) | F64 (x : spec_float).

Definition num_value (x : PyNum) : spec_float :=
  match x with F32 v => v | F64 v => v end.

(** [ThermalContext.config] as Python floats; an [int] constant such as
    the default [PlanckO = -7340] stands for the float of the same value. *)
Record FloatCalibration := {
  PlanckR1 : spec_float;
  PlanckB : spec_float;
  PlanckF : spec_float;
  PlanckO : spec_float;
  Emissivity : spec_float;
  ReflectedApparentTemperature : spec_float
}.

(** The defaults of [ThermalContext.__init__]. *)
Definition default_float_config : FloatCalibration :=
  {| PlanckR1 := literal 2110677 100; PlanckB := literal 15068 10; PlanckF := one64;
     PlanckO := of_Z64 (-7340); Emissivity := literal 95 100;
     ReflectedApparentTemperature := literal 200 10 |}.

Section Log.
(** [np.log] on a [float32], resp. a [float64]. *)
Variable log32 log64 : spec_float -> spec_float.

(** [raw2temp(raw_counts)] for a scalar raw count ([np.ndim(safe_raw) == 0]).
    [safe_raw = O + 1.0], [denom = 1.0] and [val = 1.0] assign Python
    floats; the other steps keep the type of their NumPy operand. *)
Definition raw2temp_scalar (c : FloatCalibration) (raw_counts : Z) : PyNum :=
  let R1 := PlanckR1 c in
  let B := PlanckB c in
  let F := PlanckF c in
  let O := PlanckO c in
  let safe_raw := of_Z32 raw_counts in
  let safe_raw := if py_le safe_raw (round32 O) then F64 (add64 O one64) else F32 safe_raw in
  let denom :=
    match safe_raw with
    | F32 x => F32 (sub32 x (round32 O))
    | F64 x => F64 (sub64 x O)
    end in
  let denom := if py_eq (num_value denom) zero then F64 one64 else denom in
  let val :=
    match denom with
    | F32 d => F32 (add32 (div32 (round32 R1) d) (round32 F))
    | F64 d => F64 (add64 (div64 R1 d) F)
    end in
  let val := if py_le (num_value val) zero then F64 one64 else val in
  let temp_k :=
    match val with
    | F32 v => F32 (div32 (round32 B) (log32 v))
    | F64 v => F64 (div64 B (log64 v))
    end in
  match temp_k with
  | F32 t => F32 (sub32 t (round32 K273))
  | F64 t => F64 (sub64 t K273)
  end.

(** One element of [raw2temp(M)] for a matrix [M]: the array stays
    [float32], and each masked assignment casts its Python float to
    [float32]. *)
Definition raw2temp_elem (c : FloatCalibration) (raw : Z) : spec_float :=
  let R1 := PlanckR1 c in
  let B := PlanckB c in
  let F := PlanckF c in
  let O := PlanckO c in
  let safe_raw := of_Z32 raw in
  let safe_raw := if py_le safe_raw (round32 O) then round32 (add64 O one64) else safe_raw in
  let denom := sub32 safe_raw (round32 O) in
  let denom := if py_eq denom zero then round32 one64 else denom in
  let val := add32 (div32 (round32 R1) denom) (round32 F) in
  let val := if py_le val zero then round32 one64 else val in
  sub32 (div32 (round32 B) (log32 val)) (round32 K273).

(** [raw2temp(M)] for a matrix [M] of raw counts. *)
Definition raw2temp_matrix (c : FloatCalibration) (M : list (list Z)) : list (list spec_float) :=
  map (map (raw2temp_elem c)) M.

End Log.

End NumPyFloat.

Module NumPyFloatFacts.
Import SpecFloat NumPyFloat.

Section Bounds.
Variable prec emax : Z.
Hypothesis prec_pos : 0 < prec.

Lemma digits2_pos_bound (p : positive) : Zpos p < 2 ^ Zpos (digits2_pos p).
Proof.
  induction p as [p IH|p IH|]; cbn [digits2_pos].
  - rewrite Pos2Z.inj_succ, Z.pow_succ_r by lia. rewrite Pos2Z.inj_xI. lia.
  - rewrite Pos2Z.inj_succ, Z.pow_succ_r by lia. rewrite Pos2Z.inj_xO. lia.
  - cbn. lia.
Qed.

Lemma Zdigits2_bound (m : Z) : Z.abs m < 2 ^ Zdigits2 m.
Proof.
  destruct m as [|p|p]; cbn [Zdigits2 Z.abs]; [cbn; lia | apply digits2_pos_bound..].
Qed.

Lemma shr_1_abs (r : shr_record) : Z.abs (shr_m (shr_1 r)) = Z.abs (shr_m r) / 2.
Proof.
  destruct r as [m rr ss]; destruct m as [|[p|p|]|[p|p|]]; cbn [shr_1 shr_m Z.abs];
    [ reflexivity
    | apply (Z.div_unique _ _ _ 1); [lia | rewrite Pos2Z.inj_xI; lia]
    | apply (Z.div_unique _ _ _ 0); [lia | rewrite Pos2Z.inj_xO; lia]
    | reflexivity
    | apply (Z.div_unique _ _ _ 1); [lia | rewrite Pos2Z.inj_xI; lia]
    | apply (Z.div_unique _ _ _ 0); [lia | rewrite Pos2Z.inj_xO; lia]
    | reflexivity ].
Qed.

Lemma iter_shr_abs (p : positive) : forall r,
  Z.abs (shr_m (iter_pos shr_1 p r)) = Z.abs (shr_m r) / 2 ^ Zpos p.
Proof.
  induction p as [p IH|p IH|]; intro r; cbn [iter_pos].
  - rewrite IH, IH, shr_1_abs.
    assert (0 < 2 ^ Zpos p) by (apply Z.pow_pos_nonneg; lia).
    rewrite !Z.div_div by lia.
    replace (Zpos p~1) with (1 + Zpos p + Zpos p) by lia.
    rewrite !Z.pow_add_r by lia. f_equal. lia.
  - rewrite IH, IH.
    assert (0 < 2 ^ Zpos p) by (apply Z.pow_pos_nonneg; lia).
    rewrite !Z.div_div by lia.
    replace (Zpos p~0) with (Zpos p + Zpos p) by lia.
    rewrite !Z.pow_add_r by lia. reflexivity.
  - apply shr_1_abs.
Qed.

Lemma shr_fexp_abs (m e : Z) (l : location) :
  Z.abs (shr_m (fst (shr_fexp prec emax m e l))) < 2 ^ prec.
Proof.
  unfold shr_fexp, shr.
  assert (Hrec : shr_m (shr_record_of_loc m l) = m) by (destruct l as [|[]]; reflexivity).
  pose proof (Zdigits2_bound m) as Hd.
  assert (Hd0 : 0 <= Zdigits2 m) by (destruct m; cbn; lia).
  remember (fexp prec emax (Zdigits2 m + e) - e) as n eqn:En.
  assert (Hn : Zdigits2 m - prec <= n) by (subst n; unfold fexp; lia).
  destruct n as [|p|p]; cbn [fst].
  - rewrite Hrec. eapply Z.lt_le_trans; [exact Hd|]. apply Z.pow_le_mono_r; lia.
  - rewrite iter_shr_abs, Hrec.
    assert (0 < 2 ^ Zpos p) by (apply Z.pow_pos_nonneg; lia).
    apply Z.div_lt_upper_bound; [lia|].
    eapply Z.lt_le_trans; [exact Hd|].
    rewrite <- Z.pow_add_r by lia. apply Z.pow_le_mono_r; lia.
  - rewrite Hrec. eapply Z.lt_le_trans; [exact Hd|]. apply Z.pow_le_mono_r; lia.
Qed.

(** A finite float that [binary_round_aux] produces has fewer than
    [prec] bits of mantissa. *)
Definition narrow (x : spec_float) : Prop :=
  match x with S754_finite _ m _ => Zpos m < 2 ^ prec | _ => True end.

Lemma binary_round_aux_narrow (sx : bool) (mx ex : Z) (lx : location) :
  narrow (binary_round_aux prec emax sx mx ex lx).
Proof.
  unfold binary_round_aux.
  destruct (shr_fexp prec emax mx ex lx) as [mrs' e'].
  match goal with |- context [shr_fexp prec emax ?a e' loc_Exact] =>
    pose proof (shr_fexp_abs a e' loc_Exact) as Hb;
    destruct (shr_fexp prec emax a e' loc_Exact) as [mrs'' e''] end.
  cbn [fst] in Hb.
  destruct (shr_m mrs'') as [|m|m]; cbn; try exact I.
  destruct (e'' <=? emax - prec); cbn; [exact Hb | exact I].
Qed.

Lemma binary_normalize_narrow (m e : Z) (sz : bool) :
  narrow (binary_normalize prec emax m e sz).
Proof.
  destruct m as [|p|p]; cbn [binary_normalize]; [exact I| |];
    unfold binary_round; destruct (shl_align _ _ _) as [mz ez];
    apply binary_round_aux_narrow.
Qed.

Lemma sub_narrow (x : spec_float) (sy : bool) (my : positive) (ey : Z) :
  Zpos my < 2 ^ prec -> narrow (SFsub prec emax x (S754_finite sy my ey)).
Proof.
  intros Hy. destruct x as [s|s| |s m e]; unfold SFsub; cbv beta iota zeta;
    [exact Hy | exact I | exact I | apply binary_normalize_narrow].
Qed.

End Bounds.

Lemma abs_cond_Zopp (s : bool) (x : Z) : Z.abs (cond_Zopp s x) = Z.abs x.
Proof. destruct s; cbn; [apply Z.abs_opp | reflexivity]. Qed.

(** A binary64 number whose odd part has more than 24 bits equals no
    number with a mantissa of at most 24 bits. *)
Lemma py_eq_wide (s : bool) (m : positive) (e : Z) (s' : bool) (M M' : positive) (t E : Z) :
  Zpos m < 2 ^ 24 -> 2 ^ 24 < Zpos M' -> Z.odd (Zpos M') = true -> 0 <= t ->
  Zpos M = Zpos M' * 2 ^ t ->
  py_eq (S754_finite s m e) (S754_finite s' M E) = false.
Proof.
  intros Hm HM' Hodd Ht HM. unfold py_eq, py_cmp.
  set (k := Z.min e E).
  destruct (Z.compare_spec (cond_Zopp s (Zpos m * 2 ^ (e - k)))
                           (cond_Zopp s' (Zpos M * 2 ^ (E - k)))) as [Heq| |]; [|reflexivity..].
  exfalso. apply (f_equal Z.abs) in Heq. rewrite !abs_cond_Zopp in Heq.
  assert (Ha : 0 <= e - k) by (unfold k; lia).
  assert (Hb : 0 <= E - k) by (unfold k; lia).
  rewrite !Z.abs_mul, !(Z.abs_eq (2 ^ _)) in Heq by (apply Z.pow_nonneg; lia).
  cbn [Z.abs] in Heq. rewrite HM, <- Z.mul_assoc, <- Z.pow_add_r in Heq by lia.
  set (a := e - k) in *. set (b := t + (E - k)) in *.
  destruct (Z.le_gt_cases a b) as [Hab|Hab].
  - replace b with (a + (b - a)) in Heq by lia.
    rewrite Z.pow_add_r in Heq by lia.
    assert (0 < 2 ^ a) by (apply Z.pow_pos_nonneg; lia).
    assert (0 < 2 ^ (b - a)) by (apply Z.pow_pos_nonneg; lia).
    assert (Zpos m = Zpos M' * 2 ^ (b - a)) by nia. nia.
  - replace a with (b + (a - b)) in Heq by lia.
    rewrite Z.pow_add_r in Heq by lia.
    assert (0 < 2 ^ b) by (apply Z.pow_pos_nonneg; lia).
    assert (HM2 : Zpos m * 2 ^ (a - b) = Zpos M') by nia.
    replace (a - b) with (Z.succ (a - b - 1)) in HM2 by lia.
    rewrite Z.pow_succ_r in HM2 by lia.
    rewrite <- HM2, Z.odd_mul, Z.odd_mul in Hodd. cbn in Hodd.
    rewrite andb_false_r in Hodd. discriminate.
Qed.

(** The same for any float of at most 24 bits of mantissa, finite or not. *)
Lemma py_eq_narrow_wide (a : spec_float) (s' : bool) (M M' : positive) (t E : Z) :
  narrow 24 a -> 2 ^ 24 < Zpos M' -> Z.odd (Zpos M') = true -> 0 <= t ->
  Zpos M = Zpos M' * 2 ^ t ->
  py_eq a (S754_finite s' M E) = false.
Proof.
  intros Ha HM' Hodd Ht HM.
  destruct a as [s|s| |s m e]; unfold py_eq, py_cmp, SFcompare;
    [destruct s'; reflexivity | destruct s; reflexivity | reflexivity |].
  fold (py_cmp (S754_finite s m e) (S754_finite s' M E)).
  fold (py_eq (S754_finite s m e) (S754_finite s' M E)).
  eapply py_eq_wide; eassumption.
Qed.

End NumPyFloatFacts.

Module ThermalFloatClaims.
Import SpecFloat NumPyFloat NumPyFloatFacts.
Local Open Scope R_scope.

(** The default calibration with [PlanckO = 0]: the raw count 0 is not
    above [PlanckO], so [raw2temp] clamps it. *)
Definition clamp_config : FloatCalibration :=
  {| PlanckR1 := literal 2110677 100; PlanckB := literal 15068 10; PlanckF := one64;
     PlanckO := of_Z64 0; Emissivity := literal 95 100;
     ReflectedApparentTemperature := literal 200 10 |}.

(** [val] on the scalar path at raw count 0: [R1 / 1.0 + 1.0] in
    binary64, and the two consecutive binary64 numbers around its
    logarithm. *)
Definition clamp_val : spec_float := add64 (div64 (PlanckR1 clamp_config) one64) one64.
Definition ln_down : spec_float := S754_finite false 5605515894816201 (-49).
Definition ln_up : spec_float := S754_finite false 5605515894816202 (-49).

Lemma SF2R_Q (m e : positive) :
  SF2R (S754_finite false m (Zneg e)) = Q2R (Zpos m # Pos.pow 2 e).
Proof.
  unfold SF2R, Q2R; cbn [cond_Zopp Qnum Qden powerRZ].
  rewrite pow_IZR, positive_nat_Z, <- Pos2Z.inj_pow. reflexivity.
Qed.

Lemma clamp_val_value : clamp_val = S754_finite false 5802059637855355 (-38).
Proof. vm_compute. reflexivity. Qed.

Definition fine : positive := Pos.pow 10 40.

Lemma exp_hi_ln_down :
  (ExpBoundsAt.exp_hi fine 60 (5605515894816201 # Pos.pow 2 49) < 5802059637855355 # Pos.pow 2 38)%Q.
Proof.
  apply Qnot_le_lt. intro H. apply Qle_bool_iff in H. vm_compute in H. discriminate H.
Qed.

Lemma exp_lo_ln_up :
  (5802059637855355 # Pos.pow 2 38 < ExpBoundsAt.exp_lo fine 60 (5605515894816202 # Pos.pow 2 49))%Q.
Proof.
  apply Qnot_le_lt. intro H. apply Qle_bool_iff in H. vm_compute in H. discriminate H.
Qed.

Lemma ln_clamp_val_between : SF2R ln_down < ln (SF2R clamp_val) < SF2R ln_up.
Proof.
  rewrite clamp_val_value. unfold ln_down, ln_up. rewrite !SF2R_Q.
  set (qd := (5605515894816201 # Pos.pow 2 49)%Q).
  set (qu := (5605515894816202 # Pos.pow 2 49)%Q).
  set (qv := (5802059637855355 # Pos.pow 2 38)%Q).
  assert (Hd16 : Q2R qd < 16).
  { replace 16 with (Q2R (16 # 1)) by (unfold Q2R; cbn; field).
    apply Qlt_Rlt. apply Qnot_le_lt. intro H. apply Qle_bool_iff in H.
    vm_compute in H. discriminate H. }
  assert (H16 : 16 <= 2 ^ 60).
  { replace 16 with (2 ^ 4) by (simpl; lra). apply Rle_pow; lra || lia. }
  pose proof (ExpBoundsAt.exp_hi_at_ge fine 60 qd ltac:(lra)) as H1.
  pose proof (Qlt_Rlt _ _ exp_hi_ln_down) as H2. fold qd qv in H2.
  pose proof (ExpBoundsAt.exp_lo_at_le fine 60 qu) as H3.
  pose proof (Qlt_Rlt _ _ exp_lo_ln_up) as H4. fold qu qv in H4.
  split.
  - rewrite <- (ln_exp (Q2R qd)). apply ln_increasing; [apply exp_pos | lra].
  - rewrite <- (ln_exp (Q2R qu)). apply ln_increasing; [|lra].
    pose proof (exp_pos (Q2R qd)). lra.
Qed.

Lemma ln_down_succ : SFsucc prec64 emax64 ln_down = ln_up.
Proof. vm_compute. reflexivity. Qed.

Section Paths.
Variable log32 log64 : spec_float -> spec_float.

Lemma scalar_clamped :
  raw2temp_scalar log32 log64 clamp_config 0
  = F64 (sub64 (div64 (PlanckB clamp_config) (log64 clamp_val)) K273).
Proof.
  unfold raw2temp_scalar. cbv zeta.
  replace (py_le (of_Z32 0) (round32 (PlanckO clamp_config))) with true
    by (vm_compute; reflexivity).
  cbv beta iota.
  match goal with |- context [py_eq (num_value ?d) zero] =>
    replace (py_eq (num_value d) zero) with false by (vm_compute; reflexivity) end.
  cbv beta iota.
  match goal with |- context [py_le (num_value ?v) zero] =>
    replace (py_le (num_value v) zero) with false by (vm_compute; reflexivity) end.
  cbv beta iota.
  match goal with |- context [log64 ?v] =>
    replace v with clamp_val by (vm_compute; reflexivity) end.
  reflexivity.
Qed.

Lemma elem_narrow : narrow 24 (raw2temp_elem log32 clamp_config 0).
Proof.
  unfold raw2temp_elem. cbv zeta.
  replace (round32 K273) with (S754_finite false 8950579 (-15)) by (vm_compute; reflexivity).
  apply sub_narrow; reflexivity.
Qed.

End Paths.

(** C6: the scalar path and the matrix path of [raw2temp] differ. Take
    the calibration [clamp_config] and the 60x80 matrix of zeros [M].
    [raw2temp(M[0][0])] clamps the count to the Python float [O + 1.0]
    and so computes in binary64. [raw2temp(M)[0][0]] computes in float32.
    Let [np.log] on binary64 return one of the two consecutive binary64
    numbers around the exact logarithm of its argument (a faithful
    rounding). Then [raw2temp(M)[0][0] == raw2temp(M[0][0])] is [False],
    whatever [np.log] does on float32. *)
Theorem raw2temp_scalar_matrix_differ (log32 log64 : spec_float -> spec_float) :
  log64 clamp_val = ln_down \/ log64 clamp_val = ln_up ->
  SF2R ln_down < ln (SF2R clamp_val) < SF2R ln_up /\
  SFsucc prec64 emax64 ln_down = ln_up /\
  (exists t, raw2temp_scalar log32 log64 clamp_config (nth 0 (nth 0 FrameParser.zero_matrix []) 0%Z)
             = F64 t) /\
  py_eq (nth 0 (nth 0 (raw2temp_matrix log32 clamp_config FrameParser.zero_matrix) []) S754_nan)
        (num_value (raw2temp_scalar log32 log64 clamp_config
                      (nth 0 (nth 0 FrameParser.zero_matrix []) 0%Z)))
  = false.
Proof.
  intros Hlog.
  change (nth 0 (nth 0 FrameParser.zero_matrix []) 0%Z) with 0%Z.
  change (nth 0 (nth 0 (raw2temp_matrix log32 clamp_config FrameParser.zero_matrix) []) S754_nan)
    with (raw2temp_elem log32 clamp_config 0).
  split; [exact ln_clamp_val_between|]. split; [exact ln_down_succ|].
  rewrite scalar_clamped. split; [eexists; reflexivity|]. cbn [num_value].
  destruct Hlog as [-> | ->].
  - replace (sub64 (div64 (PlanckB clamp_config) ln_down) K273)
      with (S754_finite true 8572693637620292 (-46)) by (vm_compute; reflexivity).
    apply (py_eq_narrow_wide _ _ _ 2143173409405073 2);
      [apply elem_narrow | reflexivity | reflexivity | lia | reflexivity].
  - replace (sub64 (div64 (PlanckB clamp_config) ln_up) K273)
      with (S754_finite true 8572693637620294 (-46)) by (vm_compute; reflexivity).
    apply (py_eq_narrow_wide _ _ _ 4286346818810147 1);
      [apply elem_narrow | reflexivity | reflexivity | lia | reflexivity].
Qed.

Lemma raw2temp_scalar_matrix_differ_witness :
  let log32 := fun _ : spec_float => zero in
  let log64 := fun _ : spec_float => ln_down in
  (log64 clamp_val = ln_down \/ log64 clamp_val = ln_up) /\
  (SF2R ln_down < ln (SF2R clamp_val) < SF2R ln_up /\
   SFsucc prec64 emax64 ln_down = ln_up /\
   (exists t, raw2temp_scalar log32 log64 clamp_config (nth 0 (nth 0 FrameParser.zero_matrix []) 0%Z)
              = F64 t) /\
   py_eq (nth 0 (nth 0 (raw2temp_matrix log32 clamp_config FrameParser.zero_matrix) []) S754_nan)
         (num_value (raw2temp_scalar log32 log64 clamp_config
                       (nth 0 (nth 0 FrameParser.zero_matrix []) 0%Z)))
   = false).
Proof.
  intros log32 log64. split; [left; reflexivity|].
  apply raw2temp_scalar_matrix_differ. left; reflexivity.
Defined.

End ThermalFloatClaims.
